(** * DataVerser: schema evolution utilities

    A shallow embedding of [dynamic-etl-frontend-v2/src/utils/schemaUtils.js]
    ([normalizeFieldsArray], [buildFieldMap], [diffSchemas],
    [computeStability], [fieldTimeline]) together with the properties the
    specification states about schema diffs.

    JavaScript strings are modelled by [string]; a character of [string]
    stands for one code unit below 256.  Field maps are plain JavaScript
    objects in the source ([const map = {}]), so the model keeps what such
    an object does: own keys in [Object.keys] order, reads that fall
    through to the prototype, and the assignment [map['__proto__'] = v]
    that replaces the prototype instead of storing a key. *)

From Stdlib Require Import ZArith Ascii String.
From Stdlib Require Floats.SpecFloat.
From stdpp Require Import base tactics option list strings pretty.

Local Open Scope list_scope.
#[local] Set Warnings "-clear-no-such-hyp".

(** ** JavaScript values *)

(** A normalised field descriptor, the shape [normalizeFieldsArray]
    produces: [{ name, type, nullable, new? }].  [new] is [true] when the
    optional property [new: true] is there. *)
Record Field := mkField {
  name : string;
  type : string;
  nullable : bool;
  new : bool
}.

(** The values that reach the code: primitives, descriptor objects, and
    the members of [Object.prototype] that a read on a plain object can
    return ([VBuiltin "toString"] is the function
    [Object.prototype.toString]; [VBuiltin "__proto__"] is
    [Object.prototype] itself). *)
Inductive Value :=
| VUndefined
| VNull
| VBool (b : bool)
| VNumber (z : Z)
| VString (s : string)
| VField (f : Field)
| VBuiltin (k : string).

#[global] Instance Field_eq_dec : EqDecision Field.
Proof. solve_decision. Defined.

#[global] Instance Value_eq_dec : EqDecision Value.
Proof. solve_decision. Defined.

(** [!!v]: ToBoolean.  Numbers are integers here, so only zero is falsy. *)
Definition truthy (v : Value) : bool :=
  match v with
  | VUndefined | VNull => false
  | VBool b => b
  | VNumber z => negb (z =? 0)%Z
  | VString s => negb (String.eqb s "")
  | VField _ | VBuiltin _ => true
  end.

(** [a || b] *)
Definition js_or (a b : Value) : Value := if truthy a then a else b.

(** [a !== b].  Two descriptor objects are compared by identity in
    JavaScript; the code only applies [!==] to primitives. *)
Definition strict_neq (a b : Value) : bool := bool_decide (a ≠ b).

(** [v.type] and [v.nullable]; [None] is the TypeError of a property read
    on [undefined] or [null].  Only descriptor objects carry these
    properties: functions, strings, booleans and numbers answer
    [undefined]. *)
Definition get_type (v : Value) : option Value :=
  match v with
  | VUndefined | VNull => None
  | VField f => Some (VString (type f))
  | _ => Some VUndefined
  end.

Definition get_nullable (v : Value) : option Value :=
  match v with
  | VUndefined | VNull => None
  | VField f => Some (VBool (nullable f))
  | _ => Some VUndefined
  end.

(** ** Strings: [trim] and array-index keys *)

(** Code units below 256 that [String.prototype.trim] strips: TAB, LF, VT,
    FF, CR, SPACE and NBSP. *)
Definition is_white_space (c : ascii) : bool :=
  let n := N_of_ascii c in
  ((9 <=? n) && (n <=? 13) || (n =? 32) || (n =? 160))%N.

Fixpoint trim_start (s : string) : string :=
  match s with
  | String c s' => if is_white_space c then trim_start s' else s
  | EmptyString => EmptyString
  end.

Fixpoint trim_end (s : string) : string :=
  match s with
  | EmptyString => EmptyString
  | String c s' =>
      match trim_end s' with
      | EmptyString => if is_white_space c then EmptyString else String c EmptyString
      | t => String c t
      end
  end.

Definition trim (s : string) : string := trim_end (trim_start s).

Definition digit_of (c : ascii) : option N :=
  let n := N_of_ascii c in
  if ((48 <=? n) && (n <=? 57))%N then Some (n - 48)%N else None.

Fixpoint parse_digits (s : string) (acc : N) : option N :=
  match s with
  | EmptyString => Some acc
  | String c s' =>
      match digit_of c with
      | Some d => parse_digits s' (10 * acc + d)%N
      | None => None
      end
  end.

(** A property key is an array index when it is the canonical decimal
    spelling of an integer below 2^32 - 1.  [Object.keys] lists such keys
    first, in ascending numeric order. *)
Definition array_index (s : string) : option N :=
  match s with
  | EmptyString => None
  | String c EmptyString => digit_of c
  | String c _ =>
      if Ascii.eqb c "0"%char then None
      else match parse_digits s 0 with
           | Some n => if (n <? 4294967295)%N then Some n else None
           | None => None
           end
  end.

(** ** Raw descriptors and [normalizeFieldsArray] *)

(** A descriptor as it arrives.  [None] for [name], [field] and [type] is
    a property that is absent, [undefined] or [null] (the three are alike
    to [??]); when present they are strings.  [nullable] and [new] may
    hold any value. *)
Record RawField := mkRaw {
  raw_name : option string;
  raw_field : option string;
  raw_type : option string;
  raw_nullable : Value;
  raw_new : Value
}.

Definition normalizeField (f : RawField) : Field :=
  {| name := match raw_name f with
             | Some n => n
             | None => trim (default "" (raw_field f))
             end;
     type := default "unknown" (raw_type f);
     nullable := strict_neq (raw_nullable f) (VBool false);
     new := truthy (raw_new f) |}.

(** [fields = []] and [(fields || [])]: an absent or [null] array is the
    empty array. *)
Definition normalizeFieldsArray (fields : option (list RawField)) : list Field :=
  normalizeField <$> default [] fields.

(** ** Field maps: [buildFieldMap] *)

(** The object built from [const map = {}].  [own] holds the own
    properties in insertion order; [proto] is [Some d] once
    [map['__proto__'] = d] has replaced the prototype by the descriptor
    [d], and [None] while the prototype is [Object.prototype]. *)
Record FieldMap := mkMap {
  own : list (string * Field);
  proto : option Field
}.

Definition empty_map : FieldMap := {| own := []; proto := None |}.

(** Own properties, generic in what they hold: descriptors here,
    references to descriptors in the store model below. *)
Fixpoint own_lookup {V : Type} (k : string) (l : list (string * V)) : option V :=
  match l with
  | [] => None
  | (k', v) :: l' => if String.eqb k k' then Some v else own_lookup k l'
  end.

Fixpoint own_set {V : Type} (k : string) (v : V) (l : list (string * V))
  : list (string * V) :=
  match l with
  | [] => [(k, v)]
  | (k', v') :: l' =>
      if String.eqb k k' then (k', v) :: l' else (k', v') :: own_set k v l'
  end.

(** [map[k] = v] for a descriptor object [v]. *)
Definition map_set (k : string) (v : Field) (m : FieldMap) : FieldMap :=
  if String.eqb k "__proto__"
  then {| own := own m; proto := Some v |}
  else {| own := own_set k v (own m); proto := proto m |}.

(** The property names of [Object.prototype]. *)
Definition object_prototype_keys : list string :=
  [ "constructor"; "__defineGetter__"; "__defineSetter__"; "hasOwnProperty";
    "__lookupGetter__"; "__lookupSetter__"; "isPrototypeOf";
    "propertyIsEnumerable"; "toString"; "valueOf"; "__proto__";
    "toLocaleString" ].

Definition inherited (k : string) : bool :=
  bool_decide (k ∈ object_prototype_keys).

Definition object_prototype_get (k : string) : Value :=
  if inherited k then VBuiltin k else VUndefined.

(** The own properties of a descriptor object. *)
Definition field_get (d : Field) (k : string) : option Value :=
  if String.eqb k "name" then Some (VString (name d))
  else if String.eqb k "type" then Some (VString (type d))
  else if String.eqb k "nullable" then Some (VBool (nullable d))
  else if String.eqb k "new" then (if new d then Some (VBool true) else None)
  else None.

(** [map[k]]: own property, else the prototype chain. *)
Definition map_get (m : FieldMap) (k : string) : Value :=
  if String.eqb k "__proto__"
  then match proto m with Some d => VField d | None => VBuiltin "__proto__" end
  else
    match own_lookup k (own m) with
    | Some d => VField d
    | None =>
        match proto m with
        | Some d => default (object_prototype_get k) (field_get d k)
        | None => object_prototype_get k
        end
    end.

(** [normalizeFieldsArray(fields).forEach(f => { map[f.name] = { ...f } })] *)
Definition buildFieldMap (fields : option (list RawField)) : FieldMap :=
  foldl (fun m f => map_set (name f) f m) empty_map (normalizeFieldsArray fields).

(** Ascending insertion of an array-index key. *)
Fixpoint insert_index (n : N) (k : string) (l : list (N * string)) : list (N * string) :=
  match l with
  | [] => [(n, k)]
  | (n', k') :: l' =>
      if (n <? n')%N then (n, k) :: l else (n', k') :: insert_index n k l'
  end.

Definition index_keys (ks : list string) : list (N * string) :=
  foldr (fun k acc => match array_index k with
                           | Some n => insert_index n k acc
                           | None => acc
                           end) [] ks.

Definition is_index (k : string) : bool :=
  match array_index k with Some _ => true | None => false end.

(** The order in which own keys are listed: array-index keys ascending,
    then the other keys in insertion order. *)
Definition key_order (ks : list string) : list string :=
  (index_keys ks).*2 ++ filter (fun k => is_index k = false) ks.

(** [Object.keys(map)] *)
Definition Object_keys (m : FieldMap) : list string := key_order (own m).*1.

(** [Array.from(new Set(l))]: first occurrences, in order. *)
Fixpoint uniq (l : list string) : list string :=
  match l with
  | [] => []
  | x :: l' => x :: filter (fun y => y ≠ x) (uniq l')
  end.

(** ** Schemas and [diffSchemas] *)

(** A schema version: an object with a [fields] array (which may be
    absent). *)
Record Schema := mkSchema {
  fields : option (list RawField)
}.

(** [{ type: a.type, nullable: a.nullable }] *)
Record Snapshot := mkSnapshot {
  snap_type : Value;
  snap_nullable : Value
}.

(** An entry of [changed]: [{ name, before, after, diffs }]. *)
Record Changed := mkChanged {
  changed_name : string;
  before : Snapshot;
  after : Snapshot;
  diffs : list string
}.

(** The returned object [{ added, removed, changed, unchanged }]. *)
Record Diff := mkDiff {
  added : list Value;
  removed : list Value;
  changed : list Changed;
  unchanged : list Value
}.

Definition empty_diff : Diff :=
  {| added := []; removed := []; changed := []; unchanged := [] |}.

(** [Array.from(new Set([...Object.keys(oldMap), ...Object.keys(newMap)]))] *)
Definition allNames (oldMap newMap : FieldMap) : list string :=
  uniq (Object_keys oldMap ++ Object_keys newMap).

(** The comparison of lines 50-52: the list [diffs]. *)
Definition compare (ta tb na nb : Value) : list string :=
  (if strict_neq (js_or ta (VString "")) (js_or tb (VString "")) then ["type"] else [])
  ++ (if negb (eqb (truthy na) (truthy nb)) then ["nullable"] else []).

(** The body of [allNames.forEach(name => ...)] applied to the lists
    gathered so far; [None] is a TypeError. *)
Definition visit (oldMap newMap : FieldMap) (acc : Diff) (nm : string) : option Diff :=
  let a := map_get oldMap nm in
  let b := map_get newMap nm in
  if negb (truthy a) && truthy b then
    Some {| added := added acc ++ [b]; removed := removed acc;
            changed := changed acc; unchanged := unchanged acc |}
  else if truthy a && negb (truthy b) then
    Some {| added := added acc; removed := removed acc ++ [a];
            changed := changed acc; unchanged := unchanged acc |}
  else
    ta ← get_type a;
    tb ← get_type b;
    na ← get_nullable a;
    nb ← get_nullable b;
    let ds := compare ta tb na nb in
    match ds with
    | _ :: _ =>
        Some {| added := added acc; removed := removed acc;
                changed := changed acc ++
                  [ {| changed_name := nm;
                       before := {| snap_type := ta; snap_nullable := na |};
                       after := {| snap_type := tb; snap_nullable := nb |};
                       diffs := ds |} ];
                unchanged := unchanged acc |}
    | [] =>
        Some {| added := added acc; removed := removed acc;
                changed := changed acc; unchanged := unchanged acc ++ [b] |}
    end.

Fixpoint forEach {A S : Type} (body : S → A → option S) (l : list A) (s : S) : option S :=
  match l with
  | [] => Some s
  | x :: l' => s' ← body s x; forEach body l' s'
  end.

Definition diffSchemas (oldSchema newSchema : Schema) : option Diff :=
  let oldMap := buildFieldMap (fields oldSchema) in
  let newMap := buildFieldMap (fields newSchema) in
  forEach (visit oldMap newMap) (allNames oldMap newMap) empty_diff.

(** Literals for descriptors as the examples write them. *)
Definition named (n ty : string) : RawField :=
  {| raw_name := Some n; raw_field := None; raw_type := Some ty;
     raw_nullable := VUndefined; raw_new := VUndefined |}.

Definition schema_of (l : list RawField) : Schema := {| fields := Some l |}.


(** ** Numbers: [Math.round((stableChecks / totalChecks) * 100)] *)

(** JavaScript numbers are IEEE 754 binary64 values; [SpecFloat] gives
    their arithmetic, rounding to nearest even. *)
Module Number.
Import Floats.SpecFloat.

Definition prec : Z := 53.
Definition emax : Z := 1024.

(** A counter or an integer literal as a number. *)
Definition of_N (n : N) : spec_float :=
  binary_normalize prec emax (Z.of_N n) 0 false.

Definition div : spec_float → spec_float → spec_float := SFdiv prec emax.
Definition mul : spec_float → spec_float → spec_float := SFmul prec emax.

(** [Math.round]: the nearest integer, a tie going up, computed exactly
    from sign, mantissa and exponent.  [None] stands for [NaN] and the
    infinities, which [Math.round] returns as they are. *)
Definition round (x : spec_float) : option Z :=
  match x with
  | S754_zero _ => Some 0%Z
  | S754_finite s m e =>
      let v := cond_Zopp s (Zpos m) in
      Some (if (0 <=? e)%Z then (v * 2 ^ e)%Z
            else ((2 * v + 2 ^ (- e)) / 2 ^ (1 - e))%Z)
  | S754_infinity _ | S754_nan => None
  end.
End Number.

(** ** [computeStability] *)

(** [diff.added.length + diff.removed.length + diff.changed.length === 0] *)
Definition no_changes (d : Diff) : bool :=
  (length (added d) + length (removed d) + length (changed d) =? 0)%nat.

(** The [for] loop: [prev] is [history[i - 1]], the head of [rest] is
    [history[i]]; the counters are returned as [(totalChecks,
    stableChecks)]. *)
Fixpoint stability_loop (prev : Schema) (rest : list Schema)
    (totalChecks stableChecks : N) : option (N * N) :=
  match rest with
  | [] => Some (totalChecks, stableChecks)
  | cur :: rest' =>
      d ← diffSchemas prev cur;
      stability_loop cur rest' (totalChecks + 1)
        (if no_changes d then stableChecks + 1 else stableChecks)%N
  end.

(** [Math.round((stableChecks / totalChecks) * 100)] *)
Definition score (stableChecks totalChecks : N) : option Z :=
  Number.round
    (Number.mul (Number.div (Number.of_N stableChecks) (Number.of_N totalChecks))
                (Number.of_N 100)).

(** [history] is [None] when the argument is absent or [null]. *)
Definition computeStability (history : option (list Schema)) : option Z :=
  match history with
  | None => Some 100%Z
  | Some [] | Some [_] => Some 100%Z
  | Some (first :: rest) =>
      '(totalChecks, stableChecks) ← stability_loop first rest 0 0;
      score stableChecks totalChecks
  end.

(** ** [fieldTimeline] *)

(** What [s.schema] may hold in a history entry: nothing, a schema object,
    or the field array itself. *)
Inductive SchemaProp :=
| SchemaAbsent
| SchemaObject (s : Schema)
| SchemaArray (l : list RawField).

(** A history entry as [fieldTimeline] reads it. *)
Record Version := mkVersion {
  schema : SchemaProp;
  version : Value;
  id : Value;
  created_at : Value;
  timestamp : Value
}.

(** An entry of the timeline: [{ version, created_at, present, type,
    nullable }]. *)
Record TimelineEntry := mkEntry {
  entry_version : Value;
  entry_created_at : Value;
  present : bool;
  entry_type : Value;
  entry_nullable : Value
}.

(** [buildFieldMap(s.schema?.fields || s.schema || [])].  A schema object
    without a [fields] array is itself handed to [buildFieldMap], whose
    [.map] call then throws: [None]. *)
Definition timeline_map (s : Version) : option FieldMap :=
  match schema s with
  | SchemaAbsent => Some (buildFieldMap (Some []))
  | SchemaObject o =>
      match fields o with
      | Some l => Some (buildFieldMap (Some l))
      | None => None
      end
  | SchemaArray l => Some (buildFieldMap (Some l))
  end.

(** [f?.type] *)
Definition optional_type (f : Value) : Value := default VUndefined (get_type f).

Definition timeline_entry (fieldName : string) (s : Version) : option TimelineEntry :=
  m ← timeline_map s;
  let f := map_get m fieldName in
  Some {| entry_version :=
            js_or (js_or (js_or (version s) (version s)) (id s)) (VString "v?");
          entry_created_at := js_or (js_or (created_at s) (timestamp s)) VNull;
          present := truthy f;
          entry_type := js_or (optional_type f) VNull;
          entry_nullable :=
            if truthy f
            then VBool (truthy (default VUndefined (get_nullable f)))
            else VNull |}.

Definition fieldTimeline (fieldName : string) (history : option (list Version))
  : option (list TimelineEntry) :=
  mapM (timeline_entry fieldName) (default [] history).

(** * The same functions over a store

    The functions above return fresh values, so they cannot say whether
    the JavaScript code writes into the objects it is given.  This
    module runs the same code over a store of objects with identity:
    every object literal, array literal and spread is an allocation, and
    every [map[k] = v] and [push] is a write to a location. *)

Module Store.

(** Locations are positions in the store. *)
Abbreviation loc := nat (only parsing).

(** A value in a variable, a property or an array slot: a primitive (or a
    member of [Object.prototype]), or a reference to an object of the
    store. *)
Inductive SVal :=
| SPrim (v : Value)
| SRef (l : loc).

#[global] Instance SVal_eq_dec : EqDecision SVal.
Proof. solve_decision. Defined.

(** The objects of the store, by shape. *)
Inductive Cell :=
| CRaw (f : RawField)
    (* a descriptor as it arrives *)
| CField (f : Field)
    (* { name, type, nullable, new? } *)
| CMap (own : list (string * loc)) (proto : option loc)
    (* a field map; [proto] as in [FieldMap] *)
| CArray (elems : list SVal)
| CSchema (fields : SVal)
    (* { fields } *)
| CSnapshot (type nullable : SVal)
    (* { type, nullable } *)
| CChanged (name : string) (before after diffs : loc)
    (* { name, before, after, diffs } *)
| CDiff (added removed changed unchanged : loc)
    (* { added, removed, changed, unchanged } *)
| CVersion (schema : SVal) (version id created_at timestamp : Value)
    (* a history entry; its version, id and dates are primitives *)
| CEntry (version created_at : Value) (present : bool) (type nullable : SVal).
    (* { version, created_at, present, type, nullable } *)

Abbreviation Heap := (list Cell) (only parsing).

(** Computations on the store.  The outcome is a result or, for [None],
    an exception; either way the store is returned as the computation
    left it. *)
Definition M (A : Type) : Type := Heap → option A * Heap.

#[global] Instance M_ret : MRet M := λ A x h, (Some x, h).
#[global] Instance M_bind : MBind M := λ A B k m h,
  match m h with
  | (Some x, h') => k x h'
  | (None, h') => (None, h')
  end.

Definition throw {A} : M A := λ h, (None, h).

(** A new object. *)
Definition alloc (c : Cell) : M loc := λ h, (Some (length h), h ++ [c]).

Definition load (l : loc) : M Cell := λ h, (h !! l, h).

(** A write to the object at [l]. *)
Definition store (l : loc) (c : Cell) : M unit := λ h,
  if decide (l < length h) then (Some tt, <[l := c]> h) else (None, h).

(** [!!v]: a reference is an object, hence truthy. *)
Definition to_boolean (v : SVal) : bool :=
  match v with
  | SPrim p => truthy p
  | SRef _ => true
  end.

(** [a || b] *)
Definition or_else (a b : SVal) : SVal := if to_boolean a then a else b.

(** [a !== b]; two references differ when they name different objects. *)
Definition differs (a b : SVal) : bool := bool_decide (a ≠ b).

Definition of_option {A} (o : option A) : M A :=
  match o with
  | Some x => mret x
  | None => throw
  end.

(** The elements of the array [v]; anything else has no [.map],
    [.forEach] or [.push]. *)
Definition load_array (v : SVal) : M (list SVal) :=
  match v with
  | SRef l =>
      c ← load l;
      match c with
      | CArray es => mret es
      | _ => throw
      end
  | SPrim _ => throw
  end.

(** [arr.push(v)] *)
Definition push (arr : loc) (v : SVal) : M unit :=
  es ← load_array (SRef arr);
  store arr (CArray (es ++ [v])).

(** The descriptor object [v] refers to. *)
Definition load_field (v : SVal) : M Field :=
  match v with
  | SRef l =>
      c ← load l;
      match c with
      | CField f => mret f
      | _ => throw
      end
  | SPrim _ => throw
  end.

(** [v.type] and [v.nullable].  The references the code reads these from
    are descriptor objects; a primitive answers as in [get_type]. *)
Definition type_of (v : SVal) : M SVal :=
  match v with
  | SRef _ => f ← load_field v; mret (SPrim (VString (type f)))
  | SPrim p => t ← of_option (get_type p); mret (SPrim t)
  end.

Definition nullable_of (v : SVal) : M SVal :=
  match v with
  | SRef _ => f ← load_field v; mret (SPrim (VBool (nullable f)))
  | SPrim p => t ← of_option (get_nullable p); mret (SPrim t)
  end.

Fixpoint forEach {A} (body : A → M unit) (l : list A) : M unit :=
  match l with
  | [] => mret tt
  | x :: l' => _ ← body x; forEach body l'
  end.

Fixpoint map_array {A B} (f : A → M B) (l : list A) : M (list B) :=
  match l with
  | [] => mret []
  | x :: l' => y ← f x; ys ← map_array f l'; mret (y :: ys)
  end.

(** The arrow function of [normalizeFieldsArray]: a new object made from
    the properties of [f]. *)
Definition normalize_element (v : SVal) : M SVal :=
  match v with
  | SRef l =>
      c ← load l;
      match c with
      | CRaw f => l' ← alloc (CField (normalizeField f)); mret (SRef l')
      | _ => throw
      end
  | SPrim _ => throw
  end.

(** [(fields || []).map(f => ({ ... }))]: the result is a new array of
    new objects; an absent [fields] is replaced by a new empty array. *)
Definition normalizeFieldsArray (fields : SVal) : M loc :=
  arr ← (if to_boolean fields then mret fields
         else l ← alloc (CArray []); mret (SRef l));
  es ← load_array arr;
  out ← map_array normalize_element es;
  alloc (CArray out).

(** [map[k] = v] on a field map. *)
Definition map_set (map : loc) (k : string) (v : loc) : M unit :=
  c ← load map;
  match c with
  | CMap own proto =>
      store map (if String.eqb k "__proto__"
                 then CMap own (Some v)
                 else CMap (own_set k v own) proto)
  | _ => throw
  end.

(** [map[k]] on a field map. *)
Definition map_get (map : loc) (k : string) : M SVal :=
  c ← load map;
  match c with
  | CMap own proto =>
      if String.eqb k "__proto__"
      then mret (match proto with
                 | Some l => SRef l
                 | None => SPrim (VBuiltin "__proto__")
                 end)
      else
        match own_lookup k own with
        | Some l => mret (SRef l)
        | None =>
            match proto with
            | Some l =>
                d ← load_field (SRef l);
                mret (SPrim (default (object_prototype_get k) (field_get d k)))
            | None => mret (SPrim (object_prototype_get k))
            end
        end
  | _ => throw
  end.

(** [const map = {}; normalizeFieldsArray(fields).forEach(f => {
    map[f.name] = { ...f } }); return map] *)
Definition buildFieldMap (fields : SVal) : M loc :=
  map ← alloc (CMap [] None);
  arr ← normalizeFieldsArray fields;
  es ← load_array (SRef arr);
  _ ← forEach (λ v, f ← load_field v;
                    copy ← alloc (CField f);
                    map_set map (name f) copy) es;
  mret map.

(** [Object.keys(map)] *)
Definition Object_keys (map : loc) : M (list string) :=
  c ← load map;
  match c with
  | CMap own _ => mret (key_order own.*1)
  | _ => throw
  end.

(** [s.fields] of a schema object. *)
Definition fields_of (s : loc) : M SVal :=
  c ← load s;
  match c with
  | CSchema fs => mret fs
  | _ => throw
  end.

(** The body of [allNames.forEach(name => ...)]. *)
Definition visit (oldMap newMap added removed changed unchanged : loc)
    (nm : string) : M unit :=
  a ← map_get oldMap nm;
  b ← map_get newMap nm;
  if negb (to_boolean a) && to_boolean b then push added b
  else if to_boolean a && negb (to_boolean b) then push removed a
  else
    diffs ← alloc (CArray []);
    ta ← type_of a;
    tb ← type_of b;
    _ ← (if differs (or_else ta (SPrim (VString ""))) (or_else tb (SPrim (VString "")))
         then push diffs (SPrim (VString "type")) else mret tt);
    na ← nullable_of a;
    nb ← nullable_of b;
    _ ← (if negb (eqb (to_boolean na) (to_boolean nb))
         then push diffs (SPrim (VString "nullable")) else mret tt);
    ds ← load_array (SRef diffs);
    match ds with
    | _ :: _ =>
        before ← alloc (CSnapshot ta na);
        after ← alloc (CSnapshot tb nb);
        entry ← alloc (CChanged nm before after diffs);
        push changed (SRef entry)
    | [] => push unchanged b
    end.

Definition diffSchemas (oldSchema newSchema : loc) : M loc :=
  fo ← fields_of oldSchema;
  oldMap ← buildFieldMap fo;
  fn ← fields_of newSchema;
  newMap ← buildFieldMap fn;
  added ← alloc (CArray []);
  removed ← alloc (CArray []);
  changed ← alloc (CArray []);
  unchanged ← alloc (CArray []);
  ko ← Object_keys oldMap;
  kn ← Object_keys newMap;
  _ ← forEach (visit oldMap newMap added removed changed unchanged) (uniq (ko ++ kn));
  alloc (CDiff added removed changed unchanged).

(** [diff.added.length + diff.removed.length + diff.changed.length === 0] *)
Definition no_changes (diff : loc) : M bool :=
  c ← load diff;
  match c with
  | CDiff added removed changed _ =>
      a ← load_array (SRef added);
      r ← load_array (SRef removed);
      ch ← load_array (SRef changed);
      mret (length a + length r + length ch =? 0)%nat
  | _ => throw
  end.

Definition schema_ref (v : SVal) : M loc :=
  match v with
  | SRef l => mret l
  | SPrim _ => throw
  end.

Fixpoint stability_loop (prev : SVal) (rest : list SVal)
    (totalChecks stableChecks : N) : M (N * N) :=
  match rest with
  | [] => mret (totalChecks, stableChecks)
  | cur :: rest' =>
      p ← schema_ref prev;
      c ← schema_ref cur;
      diff ← diffSchemas p c;
      stable ← no_changes diff;
      stability_loop cur rest' (totalChecks + 1)
        (if (stable : bool) then stableChecks + 1 else stableChecks)%N
  end.

Definition computeStability (history : SVal) : M Z :=
  if negb (to_boolean history) then mret 100%Z
  else
    es ← load_array history;
    match es with
    | [] | [_] => mret 100%Z
    | first :: rest =>
        '(totalChecks, stableChecks) ← stability_loop first rest 0 0;
        of_option (score stableChecks totalChecks)
    end.

(** [s.schema?.fields || s.schema || []] *)
Definition timeline_fields (schema : SVal) : M SVal :=
  match schema with
  | SRef l =>
      c ← load l;
      match c with
      | CSchema fs => mret (or_else fs schema)
      | CArray _ => mret schema
      | _ => throw
      end
  | SPrim _ =>
      if to_boolean schema then mret schema
      else l ← alloc (CArray []); mret (SRef l)
  end.

(** The arrow function of [fieldTimeline]. *)
Definition timeline_entry (fieldName : string) (s : SVal) : M SVal :=
  l ← schema_ref s;
  c ← load l;
  match c with
  | CVersion schema version id created_at timestamp =>
      fields ← timeline_fields schema;
      map ← buildFieldMap fields;
      f ← map_get map fieldName;
      ty ← (match f with
            | SPrim VUndefined | SPrim VNull => mret (SPrim VUndefined)
            | _ => type_of f
            end);
      nl ← (if to_boolean f
            then n ← nullable_of f; mret (SPrim (VBool (to_boolean n)))
            else mret (SPrim VNull));
      e ← alloc (CEntry (js_or (js_or (js_or version version) id) (VString "v?"))
                        (js_or (js_or created_at timestamp) VNull)
                        (to_boolean f)
                        (or_else ty (SPrim VNull))
                        nl);
      mret (SRef e)
  | _ => throw
  end.

Definition fieldTimeline (fieldName : string) (history : SVal) : M loc :=
  arr ← (if to_boolean history then mret history
         else l ← alloc (CArray []); mret (SRef l));
  es ← load_array arr;
  out ← map_array (timeline_entry fieldName) es;
  alloc (CArray out).

(** References held by a value or an object. *)
Definition val_refs (v : SVal) : list loc :=
  match v with
  | SRef l => [l]
  | SPrim _ => []
  end.

Definition cell_refs (c : Cell) : list loc :=
  match c with
  | CRaw _ | CField _ => []
  | CMap own proto => own.*2 ++ from_option (λ l, [l]) [] proto
  | CArray es => es ≫= val_refs
  | CSchema fs => val_refs fs
  | CSnapshot t n => val_refs t ++ val_refs n
  | CChanged _ b a d => [b; a; d]
  | CDiff a r c u => [a; r; c; u]
  | CVersion s _ _ _ _ => val_refs s
  | CEntry _ _ _ t n => val_refs t ++ val_refs n
  end.

(** Reading a result back as a value of the functional model. *)
Definition value_at (h : Heap) (v : SVal) : option Value :=
  match v with
  | SPrim p => Some p
  | SRef l =>
      match h !! l with
      | Some (CField f) => Some (VField f)
      | _ => None
      end
  end.

Definition array_at (h : Heap) (l : loc) : option (list SVal) :=
  match h !! l with
  | Some (CArray es) => Some es
  | _ => None
  end.

Definition prim_at (v : SVal) : option Value :=
  match v with
  | SPrim p => Some p
  | SRef _ => None
  end.

Definition string_at (v : SVal) : option string :=
  match v with
  | SPrim (VString s) => Some s
  | _ => None
  end.

Definition snapshot_at (h : Heap) (l : loc) : option Snapshot :=
  match h !! l with
  | Some (CSnapshot t n) =>
      t' ← prim_at t; n' ← prim_at n;
      Some {| snap_type := t'; snap_nullable := n' |}
  | _ => None
  end.

Definition changed_at (h : Heap) (v : SVal) : option Changed :=
  match v with
  | SRef l =>
      match h !! l with
      | Some (CChanged nm b a d) =>
          b' ← snapshot_at h b;
          a' ← snapshot_at h a;
          ds ← array_at h d;
          ds' ← mapM string_at ds;
          Some {| changed_name := nm; before := b'; after := a'; diffs := ds' |}
      | _ => None
      end
  | SPrim _ => None
  end.

Definition diff_at (h : Heap) (l : loc) : option Diff :=
  match h !! l with
  | Some (CDiff a r c u) =>
      a' ← array_at h a ≫= mapM (value_at h);
      r' ← array_at h r ≫= mapM (value_at h);
      c' ← array_at h c ≫= mapM (changed_at h);
      u' ← array_at h u ≫= mapM (value_at h);
      Some {| added := a'; removed := r'; changed := c'; unchanged := u' |}
  | _ => None
  end.

(** A store holding a schema: its descriptors, its field array, and the
    schema object, whose location is returned. *)
Definition put_schema (l : list RawField) (h : Heap) : loc * Heap :=
  let h1 := h ++ (CRaw <$> l) in
  let h2 := h1 ++ [CArray (SRef <$> seq (length h) (length l))] in
  (length h2, h2 ++ [CSchema (SRef (length h1))]).

(** [v] refers to no object made before the store had [n] objects. *)
Definition val_fresh (n : nat) (v : SVal) : Prop :=
  ∀ l, l ∈ val_refs v → n ≤ l.

Definition cell_fresh (n : nat) (c : Cell) : Prop :=
  ∀ l, l ∈ cell_refs c → n ≤ l.

(** The objects made since the store had [n] objects refer only to
    objects made since then. *)
Definition closed (n : nat) (h : Heap) : Prop :=
  ∀ l c, n ≤ l → h !! l = Some c → cell_fresh n c.

(** [m] keeps the first [n] objects of the store as they are, whether it
    returns or throws: it only allocates, and writes only to objects
    beyond [n], which it keeps closed; a result satisfies [Q]. *)
Definition safe {A} (n : nat) (m : M A) (Q : A → Prop) : Prop :=
  ∀ h r h', n ≤ length h → closed n h → m h = (r, h') →
    length h ≤ length h' ∧
    (∀ l, l < n → h' !! l = h !! l) ∧
    closed n h' ∧
    (∀ x, r = Some x → Q x).

(** ** The store model against the functional model *)

(** [m] returns from [h], with a result and a store that satisfy [Φ]. *)
Definition wp {A} (m : M A) (h : Heap) (Φ : A → Heap → Prop) : Prop :=
  match m h with
  | (Some x, h') => Φ x h'
  | (None, _) => False
  end.

(** The objects of [h] at the locations selected by [P] are the same in
    [h']. *)
Definition keeps (P : loc → Prop) (h h' : Heap) : Prop :=
  ∀ a c, P a → h !! a = Some c → h' !! a = Some c.

Definition extends (h h' : Heap) : Prop := keeps (λ _, True) h h'.

(** The array elements [es] refer to the raw descriptors [l]. *)
Definition raw_elems (h : Heap) (es : list SVal) (l : list RawField) : Prop :=
  Forall2 (λ e f, ∃ a, e = SRef a ∧ h !! a = Some (CRaw f)) es l.

(** The array elements [es] refer to the descriptor objects [l]. *)
Definition field_elems (h : Heap) (es : list SVal) (l : list Field) : Prop :=
  Forall2 (λ e f, ∃ a, e = SRef a ∧ h !! a = Some (CField f)) es l.

(** The value [v] is the [fields] property of a schema whose field list
    is [fs]. *)
Definition holds_fields (h : Heap) (v : SVal) (fs : option (list RawField)) : Prop :=
  match fs with
  | None => v = SPrim VUndefined ∨ v = SPrim VNull
  | Some l => ∃ a es, v = SRef a ∧ h !! a = Some (CArray es) ∧ raw_elems h es l
  end.

(** The object at [s] is the schema [sch]. *)
Definition holds_schema (h : Heap) (s : loc) (sch : Schema) : Prop :=
  ∃ v, h !! s = Some (CSchema v) ∧ holds_fields h v (fields sch).

(** The object at [map] is the field map [m]. *)
Definition holds_map (h : Heap) (map : loc) (m : FieldMap) : Prop :=
  ∃ own_refs proto_ref,
    h !! map = Some (CMap own_refs proto_ref) ∧
    Forall2 (λ r d, r.1 = d.1 ∧ h !! r.2 = Some (CField d.2)) own_refs (own m) ∧
    option_Forall2 (λ a f, h !! a = Some (CField f)) proto_ref (proto m).

(** The array element [e] is the [changed] entry [x]; its [diffs] array
    is none of the arrays in [W]. *)
Definition changed_rel (W : list loc) (h : Heap) (e : SVal) (x : Changed) : Prop :=
  ∃ l b a d ds,
    e = SRef l ∧
    h !! l = Some (CChanged (changed_name x) b a d) ∧
    h !! b = Some (CSnapshot (SPrim (snap_type (before x)))
                             (SPrim (snap_nullable (before x)))) ∧
    h !! a = Some (CSnapshot (SPrim (snap_type (after x)))
                             (SPrim (snap_nullable (after x)))) ∧
    (d ∉ W) ∧
    h !! d = Some (CArray ds) ∧
    ds = (λ s, SPrim (VString s)) <$> diffs x.

(** The four arrays at [added], [removed], [changed] and [unchanged] hold
    the four lists of [acc]. *)
(** The array at [l] holds the list [xs], element by element. *)
Definition holds_array {X} (R : SVal → X → Prop) (h : Heap) (l : loc)
    (xs : list X) : Prop :=
  ∃ es, h !! l = Some (CArray es) ∧ Forall2 R es xs.

Definition holds_lists (h : Heap) (la lr lc lu : loc) (acc : Diff) : Prop :=
  let W := [la; lr; lc; lu] in
  NoDup W ∧
  holds_array (λ e x, value_at h e = Some x) h la (added acc) ∧
  holds_array (λ e x, value_at h e = Some x) h lr (removed acc) ∧
  holds_array (changed_rel W h) h lc (changed acc) ∧
  holds_array (λ e x, value_at h e = Some x) h lu (unchanged acc).

(** The array element [e] refers to the schema [sch]. *)
Definition schema_elem (h : Heap) (e : SVal) (sch : Schema) : Prop :=
  ∃ l, e = SRef l ∧ holds_schema h l sch.

(** The value [v] is the history [hist] handed to [computeStability]. *)
Definition holds_history (h : Heap) (v : SVal) (hist : option (list Schema)) : Prop :=
  match hist with
  | None => v = SPrim VUndefined ∨ v = SPrim VNull
  | Some l => ∃ a es, v = SRef a ∧ h !! a = Some (CArray es) ∧
                      Forall2 (schema_elem h) es l
  end.

(** The value [v] is the [schema] property [p] of a history entry. *)
Definition holds_schema_prop (h : Heap) (v : SVal) (p : SchemaProp) : Prop :=
  match p with
  | SchemaAbsent => v = SPrim VUndefined ∨ v = SPrim VNull
  | SchemaObject o => ∃ l, v = SRef l ∧ holds_schema h l o
  | SchemaArray fs => holds_fields h v (Some fs)
  end.

(** The array element [e] refers to the history entry [s]. *)
Definition version_elem (h : Heap) (e : SVal) (s : Version) : Prop :=
  ∃ l sv, e = SRef l ∧
          h !! l = Some (CVersion sv (version s) (id s) (created_at s) (timestamp s)) ∧
          holds_schema_prop h sv (schema s).

(** The value [v] is the history [hist] handed to [fieldTimeline]. *)
Definition holds_versions (h : Heap) (v : SVal) (hist : option (list Version)) : Prop :=
  match hist with
  | None => v = SPrim VUndefined ∨ v = SPrim VNull
  | Some l => ∃ a es, v = SRef a ∧ h !! a = Some (CArray es) ∧
                      Forall2 (version_elem h) es l
  end.

(** Reading a timeline back. *)
Definition entry_at (h : Heap) (e : SVal) : option TimelineEntry :=
  match e with
  | SRef l =>
      match h !! l with
      | Some (CEntry v c p t n) =>
          t' ← prim_at t; n' ← prim_at n;
          Some {| entry_version := v; entry_created_at := c; present := p;
                  entry_type := t'; entry_nullable := n' |}
      | _ => None
      end
  | SPrim _ => None
  end.

Definition timeline_at (h : Heap) (l : loc) : option (list TimelineEntry) :=
  array_at h l ≫= mapM (entry_at h).

End Store.

(** * Fragment Detector *)

Module FragmentDetector.

(** Modelled from the spec: the kinds of fragment of section 3. *)
Inductive Kind := Json | HtmlTable | Csv | KeyValue | RawText.

#[global] Instance Kind_eq_dec : EqDecision Kind.
Proof. solve_decision. Defined.

Section Detector.

(** The parsed value a fragment carries. *)
Context {Payload : Type}.

(** Modelled from the spec: the structured detectors of section 4.1 (the
    Python extraction module is not part of the sources at hand).
    [detector k buf pos] is the longest match of kind [k] that starts at
    offset [pos] of [buf]: its length and its parsed payload, or [None]
    when nothing of that kind starts there. *)
Variable detector : Kind → list ascii → nat → option (nat * Payload).

(** Modelled from the spec: the payload of a [RawText] fragment, made
    from the text of its span. *)
Variable raw_text : list ascii → Payload.

(** Modelled from the spec: a Fragment is [{kind, rawSpan: (start, end),
    payload}], the span being offsets into the source text. *)
Record Fragment := mkFragment {
  kind : Kind;
  rawSpan : nat * nat;
  payload : Payload
}.

(** Modelled from the spec: JSON takes priority, then HTML table, then
    CSV, then KV. *)
Definition priority : list Kind := [Json; HtmlTable; Csv; KeyValue].

(** Modelled from the spec: the detectors are applied in priority order
    at the current scan position; the first one that matches wins. *)
Fixpoint first_match (ks : list Kind) (buf : list ascii) (pos : nat)
  : option (Kind * nat * Payload) :=
  match ks with
  | [] => None
  | k :: ks' =>
      match detector k buf pos with
      | Some (n, p) => Some (k, n, p)
      | None => first_match ks' buf pos
      end
  end.

(** The text between two offsets. *)
Definition span_text (buf : list ascii) (sp : nat * nat) : list ascii :=
  take (sp.2 - sp.1) (drop sp.1 buf).

(** Modelled from the spec: the [RawText] fragment under accumulation,
    open since offset [start], is closed at [pos]. *)
Definition flush (buf : list ascii) (raw : option nat) (pos : nat) : list Fragment :=
  match raw with
  | Some start =>
      [ {| kind := RawText; rawSpan := (start, pos);
           payload := raw_text (span_text buf (start, pos)) |} ]
  | None => []
  end.

(** Modelled from the spec: the scanner.  At [pos] a structured match
    closes the pending [RawText] fragment, yields its own fragment, and
    the scan resumes past the consumed span; an unmatched position joins
    the current [RawText] fragment.  [fuel] bounds the number of steps;
    [detect] supplies one step per character, which is enough because
    every step advances. *)
Fixpoint scan (fuel : nat) (buf : list ascii) (pos : nat) (raw : option nat)
  : list Fragment :=
  match fuel with
  | 0 => flush buf raw pos
  | S fuel' =>
      if decide (length buf ≤ pos) then flush buf raw pos
      else
        match first_match priority buf pos with
        | Some (k, n, p) =>
            flush buf raw pos ++
            {| kind := k; rawSpan := (pos, pos + n); payload := p |} ::
            scan fuel' buf (pos + n) None
        | None => scan fuel' buf (S pos) (Some (default pos raw))
        end
  end.

(** Modelled from the spec: the Fragment Detector, from the first offset
    of the buffer with no [RawText] fragment pending. *)
Definition detect (buf : list ascii) : list Fragment :=
  scan (length buf) buf 0 None.

(** The spans [sps] tile the offsets from [pos] to [stop]: each one is
    not empty and starts where the one before it ends. *)
Fixpoint tiles (pos : nat) (sps : list (nat * nat)) (stop : nat) : Prop :=
  match sps with
  | [] => pos = stop
  | sp :: sps' => sp.1 = pos ∧ sp.1 < sp.2 ∧ tiles sp.2 sps' stop
  end.

End Detector.

Arguments Fragment : clear implicits.

(** A detector set to run the scanner on: JSON regions are found by a
    balanced-brace scan, the other kinds never match. *)
Fixpoint balanced (l : list ascii) (depth len : nat) : option nat :=
  match l with
  | [] => None
  | c :: l' =>
      if Ascii.eqb c "{" then balanced l' (S depth) (S len)
      else if Ascii.eqb c "}" then
        match depth with
        | 0 => None
        | 1 => Some (S len)
        | S d => balanced l' d (S len)
        end
      else if (depth =? 0)%nat then None
      else balanced l' depth (S len)
  end.

Definition brace_detector (k : Kind) (buf : list ascii) (pos : nat)
  : option (nat * unit) :=
  match k with
  | Json => n ← balanced (drop pos buf) 0 0; Some (n, tt)
  | _ => None
  end.

End FragmentDetector.

(** * The views: log rows and the schema view

    [transformLogRow] and the schema object of [fetchMetricsAndSchema]
    come from [dynamic-etl-frontend-v2/src/App.jsx]; [normalizeLog] and
    the computations of [SchemaView] (the [schema_diff] parser,
    [totalFields], [normalizeItem], [fieldPreview]) from
    [dynamic-etl-frontend-v2/src/views/LogsView.jsx].  They work on
    whatever JSON the backend returned, so the model has JavaScript values
    of every shape. *)

(** ** Values *)

(** What [JSON.parse] returns, [undefined], and the [Date] objects
    [transformLogRow] creates.  A number is a binary64 value; an object is
    the list of its own properties in insertion order, each key once; a
    [Date] is its time value in milliseconds, [None] for an invalid
    date. *)
#[local] Set Warnings "-register-all".
Inductive Js :=
| JsUndefined
| JsNull
| JsBool (b : bool)
| JsNumber (x : Floats.SpecFloat.spec_float)
| JsString (s : string)
| JsArray (elements : list Js)
| JsObject (properties : list (string * Js))
| JsDate (time : option Z).

(** ToBoolean: [0], [-0] and [NaN] are the falsy numbers. *)
Definition js_truthy (v : Js) : bool :=
  match v with
  | JsUndefined | JsNull => false
  | JsBool b => b
  | JsNumber x =>
      match x with
      | Floats.SpecFloat.S754_zero _ | Floats.SpecFloat.S754_nan => false
      | _ => true
      end
  | JsString s => negb (String.eqb s "")
  | JsArray _ | JsObject _ | JsDate _ => true
  end.

(** [a || b], [a && b] and [a ?? b], for a right operand whose evaluation
    cannot throw. *)
Definition js_else (a b : Js) : Js := if js_truthy a then a else b.

Definition js_and (a b : Js) : Js := if js_truthy a then b else a.

Definition js_nullish (v : Js) : bool :=
  match v with JsUndefined | JsNull => true | _ => false end.

Definition js_coalesce (a b : Js) : Js := if js_nullish a then b else a.

(** [typeof v === "object" && v !== null], [typeof v === "object"] and
    [typeof v === "string"] *)
Definition is_object (v : Js) : bool :=
  match v with JsArray _ | JsObject _ | JsDate _ => true | _ => false end.

Definition typeof_object (v : Js) : bool :=
  match v with JsNull => true | _ => is_object v end.

Definition is_string (v : Js) : bool :=
  match v with JsString _ => true | _ => false end.

(** [v.k] on a value that is neither [undefined] nor [null], for the
    property names the code reads by name ([extra], [message], [id],
    [schema], [added], [op], [old], [path], [type], ...).  No prototype
    defines any of these names, and none is an index, so the read finds an
    own property of an object or nothing.  ([length] is read through
    [js_length].) *)
Definition js_prop (v : Js) (k : string) : Js :=
  match v with
  | JsObject properties => default JsUndefined (own_lookup k properties)
  | _ => JsUndefined
  end.

(** [v.k] in general: [None] is the TypeError of a read on [undefined] or
    [null]. *)
Definition js_get (v : Js) (k : string) : option Js :=
  if js_nullish v then None else Some (js_prop v k).

(** [v?.k] *)
Definition js_optional (v : Js) (k : string) : Js :=
  if js_nullish v then JsUndefined else js_prop v k.

(** A counter as a number. *)
Definition js_nat (n : nat) : Js := JsNumber (Number.of_N (N.of_nat n)).

(** [v.length] on a value that is neither [undefined] nor [null]. *)
Definition js_length (v : Js) : Js :=
  match v with
  | JsString s => js_nat (String.length s)
  | JsArray elements => js_nat (length elements)
  | _ => js_prop v "length"
  end.

(** The decimal spelling of an index. *)
Definition index_name (i : nat) : string := pretty (N.of_nat i).

(** [Object.entries(v)] for a value that is neither [undefined] nor
    [null]: the characters of a string and the elements of an array under
    their indices, the own properties of an object in the order of
    [Object.keys]. *)
Definition js_entries (v : Js) : list (string * Js) :=
  match v with
  | JsString s =>
      imap (λ i c, (index_name i, JsString (String c EmptyString)))
           (list_ascii_of_string s)
  | JsArray elements => imap (λ i e, (index_name i, e)) elements
  | JsObject properties =>
      (λ k, (k, default JsUndefined (own_lookup k properties)))
        <$> key_order properties.*1
  | _ => []
  end.

(** [Object.keys(v)] *)
Definition js_keys (v : Js) : list string := (js_entries v).*1.

(** [v[k]] for an own key [k] of [v]. *)
Definition js_index (v : Js) (k : string) : Js :=
  default JsUndefined (own_lookup k (js_entries v)).

(** ** Strings *)

(** [String.prototype.toLowerCase] on code units below 256: the letters
    [A]-[Z], and the accented capitals from U+00C0 to U+00DE other than the
    multiplication sign U+00D7. *)
Definition lower_char (c : ascii) : ascii :=
  let n := N_of_ascii c in
  if ((65 <=? n) && (n <=? 90) || (192 <=? n) && (n <=? 222) && negb (n =? 215))%N
  then ascii_of_N (n + 32) else c.

Fixpoint toLowerCase (s : string) : string :=
  match s with
  | EmptyString => EmptyString
  | String c s' => String (lower_char c) (toLowerCase s')
  end.

(** [s.includes(needle)] *)
Fixpoint includes (needle s : string) : bool :=
  String.prefix needle s ||
  match s with
  | EmptyString => false
  | String _ s' => includes needle s'
  end.

(** [message?.toLowerCase().includes(needle)] as a condition.  An absent
    message stops the chain at [undefined], which is falsy; a message that
    is not a string has no [toLowerCase] method, and the call throws. *)
Definition lower_includes (message : Js) (needle : string) : option bool :=
  match message with
  | JsUndefined | JsNull => Some false
  | JsString s => Some (includes needle (toLowerCase s))
  | _ => None
  end.

Section Views.

(** What the code takes from its environment: the decimal form of a
    number, the form of a date, [Date.parse] for [new Date(s)], the clock
    for [new Date()], the method [toLocaleString], which may throw
    ([None]), and [JSON.stringify], whose result is a string or
    [undefined] ([None]). *)
Variable number_to_string : Floats.SpecFloat.spec_float → string.
Variable date_to_string : option Z → string.
Variable Date_parse : string → option Z.
Variable now : Z.
Variable toLocaleString : Js → option string.
Variable JSON_stringify : Js → option string.

(** ToString, and with it [v.toString()] on a value that is neither
    [undefined] nor [null].  An array joins its elements with commas,
    [undefined] and [null] elements giving the empty string.  An object
    is ["[object Object]"], unless it has an own property [toString]:
    that property holds data, not a function, and the conversion throws
    ([None]). *)
Fixpoint ToString (v : Js) : option string :=
  match v with
  | JsUndefined => Some "undefined"
  | JsNull => Some "null"
  | JsBool b => Some (if b then "true" else "false")
  | JsNumber x => Some (number_to_string x)
  | JsString s => Some s
  | JsArray elements =>
      String.concat "," <$>
        mapM (λ e, if js_nullish e then Some "" else ToString e) elements
  | JsObject properties =>
      if bool_decide ("toString" ∈ properties.*1) then None
      else Some "[object Object]"
  | JsDate t => Some (date_to_string t)
  end.

(** ** [transformLogRow] ([App.jsx]) *)

Definition transformLogRow (log : Js) : option Js :=
  log_extra ← js_get log "extra";
  let extra := js_else log_extra (JsObject []) in
  let message := js_prop log "message" in
  uploaded ← lower_includes message "uploaded";
  failed ← lower_includes message "failed";
  let status : string :=
    if failed : bool then "Failed"
    else if uploaded : bool then "Success" else "Completed_With_Errors" in
  let log_timestamp := js_prop log "timestamp" in
  let timestamp :=
    if js_truthy log_timestamp then
      match log_timestamp with
      | JsString s => JsDate (Date_parse s)
      | _ => log_timestamp
      end
    else JsDate (Some now) in
  id ← (if js_truthy (js_prop log "id") then Some (js_prop log "id")
        else if js_truthy (js_prop log "_id") then Some (js_prop log "_id")
        else
          a ← ToString (js_else (js_prop log "filename") (JsString "file"));
          b ← ToString log_timestamp;
          Some (JsString (a +:+ "-" +:+ b)));
  timestampString ← toLocaleString timestamp;
  Some (JsObject
    [ ("id", id);
      ("filename",
        js_else (js_else (js_prop log "filename") (js_prop extra "filename"))
                (JsString "unknown"));
      ("message", js_else message (JsString ""));
      ("timestamp", timestamp);
      ("timestampString", JsString timestampString);
      ("structured_preview",
        js_else (js_else (js_prop log "structured_preview")
                         (js_prop extra "structured_preview"))
                (JsArray []));
      ("cleaning_stats",
        js_else (js_else (js_prop log "cleaning_stats")
                         (js_prop extra "cleaning_stats"))
                (JsObject []));
      ("record_count",
        js_else (js_else (js_prop log "record_count") (js_prop extra "record_count"))
                (js_nat 0));
      ("schemaVersion",
        js_else (js_else (js_prop log "schema_version")
                         (js_prop extra "schema_version"))
                (JsString "v1.0"));
      ("status", JsString status) ]).

(** ** [normalizeLog] ([LogsView.jsx]) *)

(** [random_id] is the string [Math.random().toString(36).slice(2)] would
    give. *)
Definition normalizeLog (random_id : string) (log : Js) : option Js :=
  log__id ← js_get log "_id";
  failed ← lower_includes (js_prop log "message") "failed";
  Some (JsObject
    [ ("id", js_else (js_else log__id (js_prop log "id")) (JsString random_id));
      ("timestamp", js_else (js_prop log "timestamp") (JsString ""));
      ("filename",
        js_else (js_else (js_prop log "filename") (js_prop log "source_id"))
                (JsString "unknown"));
      ("schemaVersion",
        js_coalesce (js_coalesce (js_prop log "schema_version")
                                 (js_prop log "schemaVersion"))
                    (JsString "N/A"));
      ("structured_preview",
        js_else (js_else (js_else (js_prop log "structured_preview")
                                  (js_prop log "structured_data"))
                         (js_prop log "processed_df"))
                (JsArray []));
      ("cleaning_stats", js_else (js_prop log "cleaning_stats") JsNull);
      ("record_count", js_coalesce (js_prop log "record_count") (js_nat 0));
      ("status", JsString (if failed : bool then "Failed" else "Success")) ]).

(** ** The schema object of [fetchMetricsAndSchema] ([App.jsx]) *)

(** [{ ...base, ...field }]: the own properties of [field] are assigned
    in order, replacing the value of a key that is there and appending
    the others. *)
Definition spread (base : list (string * Js)) (field : Js) : list (string * Js) :=
  foldl (λ acc kv, own_set kv.1 kv.2 acc) base (js_entries field).

(** The body of [.map(([name, field]) => ...)]. *)
Definition schema_field (entry : string * Js) : Js :=
  let '(key, field) := entry in
  if is_object field then
    JsObject (spread
      [ ("name", JsString key);
        ("type", js_else (js_prop field "type") (JsString "string"));
        ("nullable",
          JsBool match js_prop field "nullable" with
                 | JsBool false => false
                 | _ => true
                 end) ]
      field)
  else
    JsObject
      [ ("name", JsString key);
        ("type", if is_string field then field
                 else from_option JsString JsUndefined (JSON_stringify field));
        ("nullable", JsBool true) ].

(** The argument of [setCurrentSchema], built when [schemaData] is
    truthy. *)
Definition currentSchema_of (schemaData : Js) : Js :=
  let schema := js_prop schemaData "schema" in
  JsObject
    [ ("version", js_else (js_prop schemaData "version") (JsString "v1.0"));
      ("created_at", js_prop schemaData "created_at");
      ("fields",
        JsArray (schema_field <$>
          js_entries (js_else (js_else (js_optional schema "fields") schema)
                              (JsObject [])))) ].

(** ** [SchemaView] ([LogsView.jsx]) *)

(** [currentSchema?.schema || {}] and [currentSchema?.schema_diff ?? null] *)
Definition view_schema (currentSchema : Js) : Js :=
  js_else (js_optional currentSchema "schema") (JsObject []).

Definition schemaDiffRaw (currentSchema : Js) : Js :=
  js_coalesce (js_optional currentSchema "schema_diff") JsNull.

(** The object [{ added, removed, changed }] the parser returns. *)
Record Groups := mkGroups {
  added_group : Js;
  removed_group : Js;
  changed_group : Js
}.

Definition empty_groups : Groups :=
  {| added_group := JsArray []; removed_group := JsArray [];
     changed_group := JsArray [] |}.

(** [(op.op || op.action || "").toString().toLowerCase()] *)
Definition op_type (op : Js) : option string :=
  op_op ← js_get op "op";
  toLowerCase <$>
    ToString (js_else (js_else op_op (js_prop op "action")) (JsString "")).

(** The body of [schemaDiffRaw.forEach(op => ...)] on the three arrays
    gathered so far. *)
Definition file_op (acc : list Js * list Js * list Js) (op : Js)
  : option (list Js * list Js * list Js) :=
  kind ← op_type op;
  let '(added, removed, changed) := acc in
  Some (if includes "add" kind then (added ++ [op], removed, changed)
        else if includes "remove" kind || includes "del" kind
             then (added, removed ++ [op], changed)
             else (added, removed, changed ++ [op])).

(** The last branch: [schemaDiffRaw] maps [old] and [new] to objects whose
    keys are compared. *)
Definition diff_of_keys (raw : Js) : Groups :=
  let old_side := js_prop raw "old" in
  let new_side := js_prop raw "new" in
  let oldKeys := if js_truthy old_side then js_keys old_side else [] in
  let newKeys := if js_truthy new_side then js_keys new_side else [] in
  {| added_group :=
       JsArray ((λ k, JsObject [("name", JsString k); ("new", js_index new_side k)])
                  <$> filter (λ k, k ∉ oldKeys) newKeys);
     removed_group :=
       JsArray ((λ k, JsObject [("name", JsString k); ("old", js_index old_side k)])
                  <$> filter (λ k, k ∉ newKeys) oldKeys);
     changed_group :=
       JsArray ((λ k, JsObject [("name", JsString k); ("old", js_index old_side k);
                                ("new", js_index new_side k)])
                  <$> filter (λ k, k ∈ oldKeys ∧
                                   JSON_stringify (js_index old_side k) ≠
                                   JSON_stringify (js_index new_side k)) newKeys) |}.

(** The parser of [schema_diff] (the [useMemo] callback). *)
Definition schemaDiff (raw : Js) : option Groups :=
  if negb (js_truthy raw) then Some empty_groups
  else if typeof_object raw &&
          js_truthy (js_else (js_else (js_prop raw "added") (js_prop raw "removed"))
                             (js_prop raw "changed"))
  then Some {| added_group := js_else (js_prop raw "added") (JsArray []);
               removed_group := js_else (js_prop raw "removed") (JsArray []);
               changed_group := js_else (js_prop raw "changed") (JsArray []) |}
  else match raw with
       | JsArray ops =>
           '(added, removed, changed) ← forEach file_op ops ([], [], []);
           Some {| added_group := JsArray added; removed_group := JsArray removed;
                   changed_group := JsArray changed |}
       | JsObject _ | JsDate _ => Some (diff_of_keys raw)
       | _ => Some empty_groups
       end.

(** [(schema.fields && schema.fields.length) || (schema.raw_schema &&
    Object.keys(schema.raw_schema).length) || 0], for the truthy [schema]
    of [view_schema]. *)
Definition totalFields (schema : Js) : Js :=
  let schema_fields := js_prop schema "fields" in
  let raw_schema := js_prop schema "raw_schema" in
  js_else
    (js_else (js_and schema_fields (js_length schema_fields))
             (js_and raw_schema (js_nat (length (js_keys raw_schema)))))
    (js_nat 0).

(** The number [0.6]. *)
Definition six_tenths : Floats.SpecFloat.spec_float :=
  Floats.SpecFloat.S754_finite false 5404319552844595 (-53).

(** The body of [.map((f, idx) => ...)] in [fieldPreview]. *)
Definition preview_field (idx : nat) (f : Js) : option Js :=
  if is_string f then
    Some (JsObject [ ("name", f); ("type", JsString "unknown");
                     ("nullable", JsBool true) ])
  else
    f_path ← js_get f "path";
    let etl_meta := js_prop f "etl_meta" in
    Some (JsObject
      [ ("name",
          js_else (js_else (js_else f_path (js_prop f "name"))
                           (js_and etl_meta (js_prop etl_meta "path")))
                  (JsString ("field_" +:+ index_name idx)));
        ("type",
          js_else (js_else (js_prop f "type")
                           (js_and etl_meta (js_prop etl_meta "type")))
                  (JsString "string"));
        ("nullable",
          match js_prop f "nullable" with
          | JsUndefined => JsBool true
          | given => given
          end);
        ("confidence",
          js_else (js_else (js_prop f "confidence")
                           (js_and etl_meta (js_prop etl_meta "confidence")))
                  (JsNumber six_tenths)) ]).

(** [(schema.fields || []).slice(0, 6).map(...)]: only an array has both
    methods; on any other truthy value the expression throws. *)
Definition fieldPreview (schema : Js) : option (list Js) :=
  match js_else (js_prop schema "fields") (JsArray []) with
  | JsArray elements =>
      mapM (λ xf, preview_field xf.1 xf.2) (imap (λ i f, (i, f)) (take 6 elements))
  | _ => None
  end.

(** [normalizeItem]: the row shown for an entry of a group. *)
Definition nameless (item_name : Js) : Js :=
  JsObject [("name", item_name); ("before", JsUndefined); ("after", JsUndefined)].

(** [typeof side === "object" && side !== null ? (side.type ||
    JSON.stringify(side)) : side] *)
Definition side_type (side : Js) : Js :=
  if is_object side
  then js_else (js_prop side "type")
               (from_option JsString JsUndefined (JSON_stringify side))
  else side.

Definition normalizeItem (item : Js) : Js :=
  if negb (js_truthy item) then nameless (JsString "unknown")
  else if is_string item then nameless item
  else
    let item_new := js_prop item "new" in
    let item_name :=
      js_else (js_else (js_else (js_else (js_else (js_else (js_else
        (js_prop item "name") (js_prop item "field")) (js_prop item "path"))
        (js_prop item "key")) (js_prop item "column")) (js_prop item "key_name"))
        (js_and item_new (js_prop item_new "path"))) (JsString "unknown") in
    let before_side :=
      js_coalesce (js_coalesce (js_coalesce
        (js_prop item "old") (js_prop item "before"))
        (js_and item_new (js_prop item_new "old")))
        (js_coalesce (js_prop item "old_type") JsUndefined) in
    let after_side :=
      js_coalesce (js_coalesce (js_coalesce
        item_new (js_prop item "after"))
        (js_and item_new (js_prop item_new "type")))
        (js_coalesce (js_prop item "new_type") JsUndefined) in
    JsObject [ ("name", item_name); ("before", side_type before_side);
               ("after", side_type after_side) ].

End Views.

(** * The API client

    [fetchAPI] and [schemaAPI] come from [src/utils/api.js]; the use of
    the schema history from [fetchMetricsAndSchema] in
    [dynamic-etl-frontend-v2/src/App.jsx].  The functions are [async]: the
    model gives what their promise settles to, and leaves out what
    [console.error] prints. *)

(** What [fetch] settles to: a rejection with an error of the given
    message, or a response with its [status] and [statusText].  [json] is
    what [response.json()] settles to, [inl] for a rejection with an error
    of that message and [inr] for the parsed body. *)
Inductive Reply : Type :=
| Rejected (message : string)
| Response (status : N) (statusText : string) (json : string + Js).

(** [response.ok] *)
Definition response_ok (status : N) : bool :=
  (200 <=? status)%N && (status <=? 299)%N.

(** What the promise of an [async] function settles to: the value returned,
    or an error thrown, of which the callers read the message only. *)
Inductive Outcome : Type :=
| Returned (v : Js)
| Thrown (message : string).

Section Api.

(** What the code takes from its environment: the conversions of [ToString],
    [fetch], [encodeURIComponent] on a string, and the messages of the
    engine's [TypeError]s for a property read on [undefined] or [null] and
    for an object that cannot be converted to a string. *)
Variable number_to_string : Floats.SpecFloat.spec_float → string.
Variable date_to_string : option Z → string.
Variable fetch : string → Js → Reply.
Variable encodeURIComponent : string → string.
Variable cannot_read : string.
Variable cannot_convert : string.

Definition API_BASE_URL : string := "/api".

(** [{ headers: { 'Content-Type': 'application/json', ...options.headers },
    ...options }] *)
Definition defaultOptions (options : Js) : option Js :=
  options_headers ← js_get options "headers";
  Some (JsObject (spread
    [ ("headers",
        JsObject (spread [("Content-Type", JsString "application/json")]
                         options_headers)) ]
    options)).

(** [throw new Error(value)] *)
Definition throw_Error (value : Js) : Outcome :=
  match value with
  | JsUndefined => Thrown ""
  | _ => match ToString number_to_string date_to_string value with
         | Some message => Thrown message
         | None => Thrown cannot_convert
         end
  end.

Definition fetchAPI (endpoint : string) (options : Js) : Outcome :=
  let options := match options with JsUndefined => JsObject [] | _ => options end in
  match defaultOptions options with
  | None => Thrown cannot_read
  | Some request =>
      match fetch (API_BASE_URL +:+ endpoint) request with
      | Rejected message => Thrown message
      | Response status statusText json =>
          if negb (response_ok status) then
            let errorData :=
              match json with
              | inl _ => JsObject [("detail", JsString statusText)]
              | inr body => body
              end in
            match js_get errorData "detail" with
            | None => Thrown cannot_read
            | Some detail =>
                throw_Error
                  (js_else detail
                     (JsString ("HTTP error! status: " +:+ pretty status)))
            end
          else
            match json with
            | inl message => Thrown message
            | inr body => Returned body
            end
      end
  end.

(** [schemaAPI.getSchema] *)
Definition getSchema (sourceId : Js) : Outcome :=
  let attempt :=
    match ToString number_to_string date_to_string sourceId with
    | None => Thrown cannot_convert
    | Some id =>
        fetchAPI ("/schema/latest?source_id=" +:+ encodeURIComponent id) JsUndefined
    end in
  match attempt with
  | Returned body => Returned body
  | Thrown message =>
      if includes "404" message then Returned JsNull else Thrown message
  end.

(** [schemaAPI.getSchemaHistory]; the default [limit] is the number [100],
    spelled [100] in the address. *)
Definition getSchemaHistory (sourceId limit : Js) : Outcome :=
  let limit_text :=
    match limit with
    | JsUndefined => Some "100"
    | _ => ToString number_to_string date_to_string limit
    end in
  let attempt : option Js :=
    id ← ToString number_to_string date_to_string sourceId;
    limit_text ← limit_text;
    match fetchAPI ("/schema/history?source_id=" +:+ encodeURIComponent id
                      +:+ "&limit=" +:+ limit_text) JsUndefined with
    | Returned res =>
        res_history ← js_get res "history";
        Some (js_else res_history (JsArray []))
    | Thrown _ => None
    end in
  Returned (default (JsArray []) attempt).

(** ** The schema history in [fetchMetricsAndSchema] ([App.jsx]) *)

(** [historyData]: what
    [schemaAPI.getSchemaHistory(src).catch(() => ({ history: [] }))]
    settles to. *)
Definition historyData (src : Js) : Js :=
  match getSchemaHistory src JsUndefined with
  | Returned history => history
  | Thrown _ => JsObject [("history", JsArray [])]
  end.

(** The condition [historyData && historyData.history], under which
    [setSchemaHistory] is called. *)
Definition history_condition (src : Js) : Js :=
  js_and (historyData src) (js_prop (historyData src) "history").

End Api.

(** ** Proof devices for the diff loop *)

(** The descriptor a field list gives for a name: the last one of that
    name, since [map[f.name] = ...] overwrites. *)
Fixpoint field_named (k : string) (l : list Field) : option Field :=
  match l with
  | [] => None
  | f :: l' =>
      match field_named k l' with
      | Some g => Some g
      | None => if String.eqb (name f) k then Some f else None
      end
  end.

Definition declared (s : Schema) (k : string) : option Field :=
  field_named k (normalizeFieldsArray (fields s)).

Definition install (m : FieldMap) (f : Field) : FieldMap := map_set (name f) f m.

(** Where one visited name is filed. *)
Inductive Verdict :=
| IsAdded (v : Value)
| IsRemoved (v : Value)
| IsChanged (c : Changed)
| IsUnchanged (v : Value).

Definition verdict (oldMap newMap : FieldMap) (nm : string) : option Verdict :=
  let a := map_get oldMap nm in
  let b := map_get newMap nm in
  if negb (truthy a) && truthy b then Some (IsAdded b)
  else if truthy a && negb (truthy b) then Some (IsRemoved a)
  else
    ta ← get_type a; tb ← get_type b;
    na ← get_nullable a; nb ← get_nullable b;
    match compare ta tb na nb with
    | [] => Some (IsUnchanged b)
    | ds => Some (IsChanged {| changed_name := nm;
                               before := {| snap_type := ta; snap_nullable := na |};
                               after := {| snap_type := tb; snap_nullable := nb |};
                               diffs := ds |})
    end.

Definition added_of (v : Verdict) : option Value :=
  match v with IsAdded x => Some x | _ => None end.
Definition removed_of (v : Verdict) : option Value :=
  match v with IsRemoved x => Some x | _ => None end.
Definition changed_of (v : Verdict) : option Changed :=
  match v with IsChanged c => Some c | _ => None end.
Definition unchanged_of (v : Verdict) : option Value :=
  match v with IsUnchanged x => Some x | _ => None end.

Definition file (acc : Diff) (v : Verdict) : Diff :=
  {| added := added acc ++ from_option (λ x, [x]) [] (added_of v);
     removed := removed acc ++ from_option (λ x, [x]) [] (removed_of v);
     changed := changed acc ++ from_option (λ x, [x]) [] (changed_of v);
     unchanged := unchanged acc ++ from_option (λ x, [x]) [] (unchanged_of v) |}.


(** ** Reading a diff *)

(** The entry [v] of [added], [removed] or [unchanged] is a descriptor of
    the path [nm]. *)
Definition entry_named (nm : string) (v : Value) : Prop :=
  ∃ f, v = VField f ∧ name f = nm.

(** The path [nm] has an entry somewhere in the returned diff. *)
Definition mentions (d : Diff) (nm : string) : Prop :=
  Exists (entry_named nm) (added d) ∨
  Exists (entry_named nm) (removed d) ∨
  Exists (λ c, changed_name c = nm) (changed d) ∨
  Exists (entry_named nm) (unchanged d).

(** The field names of a schema, after normalisation. *)
Definition names (s : Schema) : list string :=
  name <$> normalizeFieldsArray (fields s).

(** No field is named like a member of [Object.prototype]. *)
Definition plain_names (s : Schema) : Prop :=
  ∀ nm, nm ∈ names s → inherited nm = false.

(** [{ type: f.type, nullable: f.nullable }] of a descriptor. *)
Definition snapshot (f : Field) : Snapshot :=
  {| snap_type := VString (type f); snap_nullable := VBool (nullable f) |}.

(** A raw descriptor with an explicit [nullable] flag. *)
Definition flagged (n ty : string) (flag : Value) : RawField :=
  {| raw_name := Some n; raw_field := None; raw_type := Some ty;
     raw_nullable := flag; raw_new := VUndefined |}.

(** A history entry [{ schema: { fields: l }, version: v }]. *)
Definition version_of (v : Z) (l : list RawField) : Version :=
  {| schema := SchemaObject (schema_of l); version := VNumber v;
     id := VUndefined; created_at := VUndefined; timestamp := VUndefined |}.

(** The adjacent pair [(prev, cur)] of a history has an empty diff. *)
Definition stable_pair (prev cur : Schema) : bool :=
  from_option no_changes false (diffSchemas prev cur).

(** The number of adjacent pairs with an empty diff, [prev] being the
    version before the head of [rest]. *)
Fixpoint stable_pairs (prev : Schema) (rest : list Schema) : nat :=
  match rest with
  | [] => 0
  | cur :: rest' =>
      (if stable_pair prev cur then 1 else 0) + stable_pairs cur rest'
  end.

Fixpoint all_stable (prev : Schema) (rest : list Schema) : Prop :=
  match rest with
  | [] => True
  | cur :: rest' => stable_pair prev cur = true ∧ all_stable cur rest'
  end.

(** The score is an integer percentage, and 100 only when every check is
    stable: checked for [s] stable checks out of [t]. *)
Definition score_ok (s t : nat) : bool :=
  match score (N.of_nat s) (N.of_nat t) with
  | Some z => (0 <=? z)%Z && (z <=? 100)%Z && eqb (z =? 100)%Z (s =? t)%nat
  | None => false
  end.

Definition scores_ok_below (bound : nat) : bool :=
  forallb (λ t, forallb (λ s, score_ok s (S t)) (seq 0 (S (S t)))) (seq 0 bound).

(** The field list [fieldTimeline] reads from a history entry, when it
    finds one. *)
Definition version_fields (s : Version) : option (list RawField) :=
  match schema s with
  | SchemaAbsent => Some []
  | SchemaObject o => fields o
  | SchemaArray l => Some l
  end.

(** Names for the functional model, for use where the store model is
    open. *)
Module Spec.
Abbreviation normalizeFieldsArray := normalizeFieldsArray.
Abbreviation buildFieldMap := buildFieldMap.
Abbreviation map_set := map_set.
Abbreviation map_get := map_get.
Abbreviation Object_keys := Object_keys.
Abbreviation visit := visit.
Abbreviation forEach := forEach.
Abbreviation diffSchemas := diffSchemas.
Abbreviation no_changes := no_changes.
Abbreviation stability_loop := stability_loop.
Abbreviation computeStability := computeStability.
Abbreviation timeline_entry := timeline_entry.
Abbreviation timeline_map := timeline_map.
Abbreviation fieldTimeline := fieldTimeline.
End Spec.

(** The path an entry of a diff is filed under. *)
Definition entry_name (v : Value) : option string :=
  match v with
  | VField f => Some (name f)
  | _ => None
  end.

(** The paths of the four groups of a diff, group after group. *)
Definition group_names (d : Diff) : list string :=
  omap entry_name (added d) ++ omap entry_name (removed d) ++
  (changed_name <$> changed d) ++ omap entry_name (unchanged d).

Definition verdict_name (v : Verdict) : option string :=
  match v with
  | IsAdded x | IsRemoved x | IsUnchanged x => entry_name x
  | IsChanged c => Some (changed_name c)
  end.

(** ** Devices for the further properties *)

(** The descriptor object [normalizeFieldsArray] returns, read back as an
    input descriptor: [name], [type] and [nullable] are there, [new] only
    when it is [true]. *)
Definition as_raw (f : Field) : RawField :=
  {| raw_name := Some (name f); raw_field := None; raw_type := Some (type f);
     raw_nullable := VBool (nullable f);
     raw_new := if new f then VBool true else VUndefined |}.

(** [z] is an integer nearest to the percentage [100 * s / t]. *)
Definition nearest_percentage (s t : nat) (z : Z) : bool :=
  (200 * Z.of_nat s - Z.of_nat t <=? 2 * Z.of_nat t * z)%Z &&
  (2 * Z.of_nat t * z <=? 200 * Z.of_nat s + Z.of_nat t)%Z.

(** The score for [s] stable checks out of [t] is an integer nearest to
    the percentage, and one more stable check does not lower it. *)
Definition score_near (s t : nat) : bool :=
  match score (N.of_nat s) (N.of_nat t), score (N.of_nat (S s)) (N.of_nat t) with
  | Some z, Some z' => nearest_percentage s t z && implb (s <? t) (z <=? z')%Z
  | _, _ => false
  end.

Definition scores_near_below (bound : nat) : bool :=
  forallb (λ t, forallb (λ s, score_near s (S t)) (seq 0 (S (S t)))) (seq 0 bound).

(** ** Devices for the views *)

(** The status [transformLogRow] derives from a message. *)
Definition status_of (message : string) : string :=
  if includes "failed" (toLowerCase message) then "Failed"
  else if includes "uploaded" (toLowerCase message) then "Success"
  else "Completed_With_Errors".

(** [log.extra || {}] *)
Definition extra_of (log : Js) : Js := js_else (js_prop log "extra") (JsObject []).

(** The group an operation of the given type is filed under: [0] for
    [added], [1] for [removed], [2] for [changed]. *)
Definition files_under (kind : string) : nat :=
  if includes "add" kind then 0
  else if includes "remove" kind || includes "del" kind then 1 else 2.

(** ** Devices for the API client *)

(** The request options [fetchAPI] passes on when it is called without
    options. *)
Definition plain_request : Js :=
  JsObject [("headers", JsObject [("Content-Type", JsString "application/json")])].
(** * Properties *)

(** ** Keys of a field map *)

Lemma elem_of_uniq (x : string) (l : list string) : x ∈ uniq l ↔ x ∈ l.
Proof.
  induction l as [|y l IH]; simpl; [done|].
  rewrite !elem_of_cons, list_elem_of_filter, IH.
  destruct (decide (x = y)); naive_solver.
Qed.

Lemma NoDup_uniq (l : list string) : NoDup (uniq l).
Proof.
  induction l as [|y l IH]; simpl; [constructor|].
  constructor; [|by apply NoDup_filter].
  rewrite list_elem_of_filter. naive_solver.
Qed.

Lemma own_lookup_Some_elem {V} k (l : list (string * V)) d :
  own_lookup k l = Some d → (k, d) ∈ l.
Proof.
  induction l as [|[k' v] l IH]; simpl; [done|].
  destruct (String.eqb_spec k k') as [->|Hne].
  - intros [= ->]. left.
  - intros H. right. auto.
Qed.

Lemma own_lookup_is_Some {V} k (l : list (string * V)) :
  is_Some (own_lookup k l) ↔ k ∈ l.*1.
Proof.
  induction l as [|[k' v] l IH]; simpl.
  - split; [by intros [? ?]|by intros ?%elem_of_nil].
  - rewrite elem_of_cons. destruct (String.eqb_spec k k') as [->|Hne].
    + split; eauto.
    + rewrite IH. naive_solver.
Qed.

Lemma own_lookup_None {V} k (l : list (string * V)) :
  own_lookup k l = None ↔ k ∉ l.*1.
Proof. rewrite <- own_lookup_is_Some, eq_None_not_Some. done. Qed.

Lemma own_lookup_set_eq {V} k (v : V) l :
  own_lookup k (own_set k v l) = Some v.
Proof.
  induction l as [|[k' v'] l IH]; simpl.
  - by rewrite String.eqb_refl.
  - destruct (String.eqb_spec k k') as [->|Hne]; simpl.
    + by rewrite String.eqb_refl.
    + by destruct (String.eqb_spec k k').
Qed.

Lemma own_lookup_set_ne {V} k k' (v : V) l :
  k ≠ k' → own_lookup k' (own_set k v l) = own_lookup k' l.
Proof.
  intros Hne. induction l as [|[k0 v0] l IH]; simpl.
  - by destruct (String.eqb_spec k' k) as [->|].
  - destruct (String.eqb_spec k k0) as [->|Hne0]; simpl.
    + by destruct (String.eqb_spec k' k0) as [->|].
    + by rewrite IH.
Qed.

Lemma elem_of_insert_index n k l x :
  x ∈ insert_index n k l ↔ x = (n, k) ∨ x ∈ l.
Proof.
  induction l as [|[n' k'] l IH]; simpl.
  - rewrite list_elem_of_singleton, elem_of_nil. naive_solver.
  - destruct (n <? n')%N; rewrite !elem_of_cons; [done|].
    rewrite IH. naive_solver.
Qed.

Lemma elem_of_index_keys ks n k :
  (n, k) ∈ index_keys ks ↔ k ∈ ks ∧ array_index k = Some n.
Proof.
  induction ks as [|k0 ks IH]; simpl.
  - rewrite !elem_of_nil. naive_solver.
  - rewrite elem_of_cons. destruct (array_index k0) as [n0|] eqn:E.
    + rewrite elem_of_insert_index, IH. split.
      * intros [[= -> ->]|[? ?]]; auto.
      * intros [[->|?] Hk]; [left; congruence|auto].
    + rewrite IH. split; [naive_solver|].
      intros [[->|?] Hk]; [congruence|auto].
Qed.

Lemma elem_of_key_order ks k : k ∈ key_order ks ↔ k ∈ ks.
Proof.
  unfold key_order. rewrite elem_of_app, list_elem_of_fmap, list_elem_of_filter.
  unfold is_index. split.
  - intros [[[n k'] [E H]]|[_ H]]; [|done].
    simpl in E; subst k'. by apply elem_of_index_keys in H as [H _].
  - intros H. destruct (array_index k) as [n|] eqn:E; [left|by right].
    exists (n, k). split; [done|]. by apply elem_of_index_keys.
Qed.

Lemma elem_of_Object_keys m k :
  k ∈ Object_keys m ↔ k ∈ (own m).*1.
Proof. apply elem_of_key_order. Qed.

(** ** What a field map holds *)

Lemma field_named_name k l f : field_named k l = Some f → name f = k.
Proof.
  induction l as [|g l IH]; simpl; [done|].
  destruct (field_named k l); [by intros [= ->]; auto|].
  destruct (String.eqb_spec (name g) k); [by intros [= <-]|done].
Qed.

Lemma field_named_elem k l f : field_named k l = Some f → f ∈ l.
Proof.
  induction l as [|g l IH]; simpl; [done|].
  destruct (field_named k l); [intros [= ->]; right; auto|].
  destruct (String.eqb (name g) k); [intros [= <-]; left|done].
Qed.

Lemma field_named_None k l : field_named k l = None ↔ k ∉ name <$> l.
Proof.
  induction l as [|g l IH]; simpl.
  - split; [intros _ ?%elem_of_nil; done|done].
  - rewrite not_elem_of_cons, <- IH.
    destruct (field_named k l); [naive_solver|].
    destruct (String.eqb_spec (name g) k); naive_solver.
Qed.

Lemma field_named_NoDup k l f :
  NoDup (name <$> l) → f ∈ l → name f = k → field_named k l = Some f.
Proof.
  induction l as [|g l IH]; simpl; [by intros _ ?%elem_of_nil|].
  rewrite NoDup_cons, elem_of_cons. intros [Hg Hl] [->|Hf] Hk.
  - subst k. destruct (field_named (name g) l) eqn:E.
    + apply field_named_None in Hg. congruence.
    + by rewrite String.eqb_refl.
  - by rewrite (IH Hl Hf Hk).
Qed.

Lemma install_own_lookup m f k :
  k ≠ "__proto__" →
  own_lookup k (own (install m f)) =
    if String.eqb (name f) k then Some f else own_lookup k (own m).
Proof.
  intros Hk. unfold install, map_set.
  destruct (String.eqb_spec (name f) "__proto__") as [E|E]; simpl.
  - destruct (String.eqb_spec (name f) k); [congruence|done].
  - destruct (String.eqb_spec (name f) k) as [<-|Hne].
    + apply own_lookup_set_eq.
    + by apply own_lookup_set_ne.
Qed.

Lemma install_proto m f :
  proto (install m f) =
    if String.eqb (name f) "__proto__" then Some f else proto m.
Proof. unfold install, map_set. by destruct (String.eqb (name f) "__proto__"). Qed.

Lemma foldl_install_own_lookup l m k :
  k ≠ "__proto__" →
  own_lookup k (own (foldl install m l)) =
    match field_named k l with
    | Some g => Some g
    | None => own_lookup k (own m)
    end.
Proof.
  intros Hk. revert m. induction l as [|f l IH]; intros m; simpl; [done|].
  rewrite IH, install_own_lookup by done.
  by destruct (field_named k l), (String.eqb (name f) k).
Qed.

Lemma foldl_install_proto l m :
  proto (foldl install m l) =
    match field_named "__proto__" l with
    | Some g => Some g
    | None => proto m
    end.
Proof.
  revert m. induction l as [|f l IH]; intros m; simpl; [done|].
  rewrite IH, install_proto.
  by destruct (field_named "__proto__" l), (String.eqb (name f) "__proto__").
Qed.

Lemma foldl_install_proto_key l m :
  "__proto__" ∉ (own m).*1 → "__proto__" ∉ (own (foldl install m l)).*1.
Proof.
  revert m. induction l as [|f l IH]; intros m Hm; simpl; [done|].
  apply IH. unfold install, map_set.
  destruct (String.eqb_spec (name f) "__proto__") as [E|E]; simpl; [done|].
  rewrite <- own_lookup_None in *. by rewrite own_lookup_set_ne.
Qed.

(** The own properties of [buildFieldMap(fields)] are the declared
    descriptors, except that a field named [__proto__] is never stored. *)
Lemma buildFieldMap_own fs k :
  k ≠ "__proto__" →
  own_lookup k (own (buildFieldMap fs)) = field_named k (normalizeFieldsArray fs).
Proof.
  intros Hk. unfold buildFieldMap. fold install.
  rewrite foldl_install_own_lookup by done. simpl. by destruct (field_named _ _).
Qed.

Lemma buildFieldMap_proto fs :
  proto (buildFieldMap fs) = field_named "__proto__" (normalizeFieldsArray fs).
Proof.
  unfold buildFieldMap. fold install.
  rewrite foldl_install_proto. simpl. by destruct (field_named _ _).
Qed.

Lemma buildFieldMap_keys fs k :
  k ∈ Object_keys (buildFieldMap fs) ↔
  k ≠ "__proto__" ∧ is_Some (field_named k (normalizeFieldsArray fs)).
Proof.
  rewrite elem_of_Object_keys. split.
  - intros Hk. assert (k ≠ "__proto__") as Hne.
    { intros ->. revert Hk. unfold buildFieldMap. fold install.
      apply foldl_install_proto_key. simpl. apply not_elem_of_nil. }
    split; [done|]. rewrite <- buildFieldMap_own by done.
    by apply own_lookup_is_Some.
  - intros [Hne Hk]. rewrite <- buildFieldMap_own in Hk by done.
    by apply own_lookup_is_Some.
Qed.

(** A read [map[k]] that returns a descriptor returns the declared one. *)
Lemma map_get_declared fs k d :
  k ≠ "__proto__" →
  field_named k (normalizeFieldsArray fs) = Some d →
  map_get (buildFieldMap fs) k = VField d.
Proof.
  intros Hk Hd. unfold map_get.
  destruct (String.eqb_spec k "__proto__"); [done|].
  by rewrite buildFieldMap_own, Hd.
Qed.

Lemma map_get_VField fs k d :
  k ≠ "__proto__" →
  map_get (buildFieldMap fs) k = VField d →
  field_named k (normalizeFieldsArray fs) = Some d.
Proof.
  intros Hk. unfold map_get.
  destruct (String.eqb_spec k "__proto__"); [done|].
  rewrite buildFieldMap_own by done.
  destruct (field_named k _) as [g|]; [by intros [= ->]|].
  unfold object_prototype_get, field_get.
  destruct (proto _) as [p|]; repeat case_match; simpl; congruence.
Qed.

(** ** The loop of [diffSchemas] *)

Lemma Diff_eta (d : Diff) :
  d = {| added := added d; removed := removed d;
         changed := changed d; unchanged := unchanged d |}.
Proof. by destruct d. Qed.

Lemma visit_verdict oldMap newMap acc nm :
  visit oldMap newMap acc nm = file acc <$> verdict oldMap newMap nm.
Proof.
  unfold visit, verdict, file.
  destruct (negb (truthy (map_get oldMap nm)) && truthy (map_get newMap nm));
    [by simpl; rewrite !app_nil_r|].
  destruct (truthy (map_get oldMap nm) && negb (truthy (map_get newMap nm)));
    [by simpl; rewrite !app_nil_r|].
  destruct (get_type (map_get oldMap nm)) as [ta|]; [|done].
  destruct (get_type (map_get newMap nm)) as [tb|]; [|done].
  destruct (get_nullable (map_get oldMap nm)) as [na|]; [|done].
  destruct (get_nullable (map_get newMap nm)) as [nb|]; [|done].
  simpl. destruct (compare ta tb na nb); by simpl; rewrite !app_nil_r.
Qed.

(** A name read as a truthy value on either side is always filed: the
    TypeError needs both reads to be falsy. *)
Lemma truthy_get_type v : truthy v = true → is_Some (get_type v).
Proof. destruct v; simpl; eauto; discriminate. Qed.

Lemma truthy_get_nullable v : truthy v = true → is_Some (get_nullable v).
Proof. destruct v; simpl; eauto; discriminate. Qed.

Lemma verdict_total oldMap newMap nm :
  truthy (map_get oldMap nm) = true ∨ truthy (map_get newMap nm) = true →
  is_Some (verdict oldMap newMap nm).
Proof.
  unfold verdict. intros H.
  destruct (truthy (map_get oldMap nm)) eqn:Ea,
           (truthy (map_get newMap nm)) eqn:Eb; simpl; eauto.
  - destruct (truthy_get_type _ Ea) as [ta ->], (truthy_get_type _ Eb) as [tb ->],
      (truthy_get_nullable _ Ea) as [na ->], (truthy_get_nullable _ Eb) as [nb ->].
    simpl. destruct (compare ta tb na nb); eauto.
  - destruct H; discriminate.
Qed.

Lemma forEach_visit oldMap newMap l acc :
  (∀ nm, nm ∈ l → is_Some (verdict oldMap newMap nm)) →
  ∃ vs, mapM (verdict oldMap newMap) l = Some vs ∧
        forEach (visit oldMap newMap) l acc =
          Some {| added := added acc ++ omap added_of vs;
                  removed := removed acc ++ omap removed_of vs;
                  changed := changed acc ++ omap changed_of vs;
                  unchanged := unchanged acc ++ omap unchanged_of vs |}.
Proof.
  revert acc. induction l as [|nm l IH]; intros acc Hl; simpl.
  - exists []. split; [done|]. simpl. rewrite !app_nil_r. f_equal. apply Diff_eta.
  - destruct (Hl nm) as [v Hv]; [left|].
    destruct (IH (file acc v)) as (vs & Hvs & Hrun).
    { intros ? ?. apply Hl. by right. }
    exists (v :: vs). split.
    + rewrite Hv. simpl. by rewrite Hvs.
    + rewrite visit_verdict, Hv. simpl. rewrite Hrun. f_equal.
      destruct v; simpl; rewrite ?app_nil_r, <- ?app_assoc; done.
Qed.

Lemma allNames_spec fo fn nm :
  nm ∈ allNames (buildFieldMap fo) (buildFieldMap fn) ↔
  nm ≠ "__proto__" ∧
  (is_Some (field_named nm (normalizeFieldsArray fo)) ∨
   is_Some (field_named nm (normalizeFieldsArray fn))).
Proof.
  unfold allNames. rewrite elem_of_uniq, elem_of_app, !buildFieldMap_keys.
  naive_solver.
Qed.

Lemma allNames_verdict fo fn nm :
  nm ∈ allNames (buildFieldMap fo) (buildFieldMap fn) →
  is_Some (verdict (buildFieldMap fo) (buildFieldMap fn) nm).
Proof.
  rewrite allNames_spec. intros [Hne [[d Hd]|[d Hd]]]; apply verdict_total.
  - left. by rewrite (map_get_declared _ _ _ Hne Hd).
  - right. by rewrite (map_get_declared _ _ _ Hne Hd).
Qed.

Lemma elem_of_mapM_Some {A B} (f : A → option B) l k y :
  mapM f l = Some k → y ∈ k ↔ ∃ x, x ∈ l ∧ f x = Some y.
Proof.
  rewrite mapM_Some. induction 1 as [|x y' l k Hxy _ IH].
  - rewrite elem_of_nil. split; [done|]. by intros (? & ?%elem_of_nil & _).
  - rewrite elem_of_cons, IH. split.
    + intros [->|(x' & ? & ?)]; [exists x; split; [left|done]|].
      exists x'. split; [by right|done].
    + intros (x' & [->|?]%elem_of_cons & Hx'); [left; congruence|].
      right. eauto.
Qed.

(** [diffSchemas] never throws, and each of its four lists holds exactly
    the entries the loop body files for the visited names. *)
Lemma diffSchemas_spec (oldSchema newSchema : Schema) :
  let oldMap := buildFieldMap (fields oldSchema) in
  let newMap := buildFieldMap (fields newSchema) in
  ∃ d, diffSchemas oldSchema newSchema = Some d ∧
    (∀ v, v ∈ added d ↔
       ∃ nm, nm ∈ allNames oldMap newMap ∧ verdict oldMap newMap nm = Some (IsAdded v)) ∧
    (∀ v, v ∈ removed d ↔
       ∃ nm, nm ∈ allNames oldMap newMap ∧ verdict oldMap newMap nm = Some (IsRemoved v)) ∧
    (∀ c, c ∈ changed d ↔
       ∃ nm, nm ∈ allNames oldMap newMap ∧ verdict oldMap newMap nm = Some (IsChanged c)) ∧
    (∀ v, v ∈ unchanged d ↔
       ∃ nm, nm ∈ allNames oldMap newMap ∧ verdict oldMap newMap nm = Some (IsUnchanged v)).
Proof.
  intros oldMap newMap. unfold diffSchemas. fold oldMap newMap.
  destruct (forEach_visit oldMap newMap (allNames oldMap newMap) empty_diff)
    as (vs & Hvs & ->).
  { intros nm. apply allNames_verdict. }
  eexists. split; [done|]. simpl.
  split_and!; intros x; rewrite list_elem_of_omap.
  all: split;
    [ intros ([] & Hv & [= ->]); by apply (elem_of_mapM_Some _ _ _ _ Hvs) in Hv
    | intros Hx; eexists; split;
        [by apply (elem_of_mapM_Some _ _ _ _ Hvs)|done] ].
Qed.

Lemma diffSchemas_total (oldSchema newSchema : Schema) :
  is_Some (diffSchemas oldSchema newSchema).
Proof. destruct (diffSchemas_spec oldSchema newSchema) as (d & -> & _). eauto. Qed.

(** ** Filing of one name *)

Lemma compare_fields (a b : Field) :
  compare (VString (type a)) (VString (type b))
          (VBool (nullable a)) (VBool (nullable b)) =
  (if bool_decide (type a ≠ type b) then ["type"] else []) ++
  (if negb (eqb (nullable a) (nullable b)) then ["nullable"] else []).
Proof.
  unfold compare, js_or, strict_neq. simpl. f_equal.
  assert (∀ s, (if negb (String.eqb s "") then VString s else VString "") = VString s) as E.
  { intros s. by destruct (String.eqb_spec s "") as [->|]. }
  rewrite !E. repeat case_bool_decide; congruence.
Qed.

Lemma compare_fields_nil (a b : Field) :
  compare (VString (type a)) (VString (type b))
          (VBool (nullable a)) (VBool (nullable b)) = [] ↔
  type a = type b ∧ nullable a = nullable b.
Proof.
  rewrite compare_fields.
  case_bool_decide; destruct (nullable a), (nullable b); simpl; naive_solver.
Qed.

Lemma compare_same (t : string) (n : bool) :
  compare (VString t) (VString t) (VBool n) (VBool n) = [].
Proof.
  by apply (compare_fields_nil {| name := ""; type := t; nullable := n; new := false |}
                               {| name := ""; type := t; nullable := n; new := false |}).
Qed.

#[local] Arguments compare : simpl never.

(** Both maps hold the name: the comparison decides between [changed] and
    [unchanged]. *)
Lemma verdict_both fo fn nm a b :
  nm ≠ "__proto__" →
  field_named nm (normalizeFieldsArray fo) = Some a →
  field_named nm (normalizeFieldsArray fn) = Some b →
  verdict (buildFieldMap fo) (buildFieldMap fn) nm =
    match compare (VString (type a)) (VString (type b))
                  (VBool (nullable a)) (VBool (nullable b)) with
    | [] => Some (IsUnchanged (VField b))
    | ds => Some (IsChanged
              {| changed_name := nm;
                 before := {| snap_type := VString (type a);
                              snap_nullable := VBool (nullable a) |};
                 after := {| snap_type := VString (type b);
                             snap_nullable := VBool (nullable b) |};
                 diffs := ds |})
    end.
Proof.
  intros Hne Ha Hb. unfold verdict.
  by rewrite (map_get_declared _ _ _ Hne Ha), (map_get_declared _ _ _ Hne Hb).
Qed.

(** The three ways out of the loop body. *)
Lemma verdict_inv oldMap newMap nm v :
  verdict oldMap newMap nm = Some v →
  let a := map_get oldMap nm in
  let b := map_get newMap nm in
  (truthy a = false ∧ truthy b = true ∧ v = IsAdded b) ∨
  (truthy a = true ∧ truthy b = false ∧ v = IsRemoved a) ∨
  (truthy a = truthy b ∧
   ∃ ta tb na nb,
     get_type a = Some ta ∧ get_type b = Some tb ∧
     get_nullable a = Some na ∧ get_nullable b = Some nb ∧
     ((compare ta tb na nb = [] ∧ v = IsUnchanged b) ∨
      (compare ta tb na nb ≠ [] ∧
       v = IsChanged {| changed_name := nm;
                        before := {| snap_type := ta; snap_nullable := na |};
                        after := {| snap_type := tb; snap_nullable := nb |};
                        diffs := compare ta tb na nb |}))).
Proof.
  intros H a b. unfold verdict in H. fold a b in H.
  destruct (truthy a) eqn:Ea, (truthy b) eqn:Eb; simpl in H.
  2: { right; left. by injection H as <-. }
  2: { left. by injection H as <-. }
  all: right; right; split; [done|].
  all: destruct (get_type a) as [ta|]; [|done];
       destruct (get_type b) as [tb|]; [|done];
       destruct (get_nullable a) as [na|]; [|done];
       destruct (get_nullable b) as [nb|]; [|done]; simpl in H.
  all: exists ta, tb, na, nb; split_and!; try done.
  all: destruct (compare ta tb na nb) eqn:Ec; injection H as <-;
       [left|right]; done.
Qed.

Lemma verdict_added oldMap newMap nm v :
  verdict oldMap newMap nm = Some (IsAdded v) →
  truthy (map_get oldMap nm) = false ∧
  truthy v = true ∧ v = map_get newMap nm.
Proof. intros H%verdict_inv. naive_solver. Qed.

Lemma verdict_removed oldMap newMap nm v :
  verdict oldMap newMap nm = Some (IsRemoved v) →
  truthy (map_get newMap nm) = false ∧
  truthy v = true ∧ v = map_get oldMap nm.
Proof. intros H%verdict_inv. naive_solver. Qed.

Lemma verdict_changed_name oldMap newMap nm c :
  verdict oldMap newMap nm = Some (IsChanged c) → changed_name c = nm.
Proof. intros H%verdict_inv. naive_solver. Qed.

(** ** General facts about a diff *)

Lemma allNames_not_proto fo fn nm :
  nm ∈ allNames (buildFieldMap fo) (buildFieldMap fn) → nm ≠ "__proto__".
Proof. rewrite allNames_spec. naive_solver. Qed.

(** Entries of [added] are descriptors of the new schema filed under
    their own name, for which the read on the old map was falsy. *)
Lemma added_inv oldSchema newSchema d v :
  diffSchemas oldSchema newSchema = Some d → v ∈ added d →
  ∃ f, v = VField f ∧ declared newSchema (name f) = Some f ∧
       name f ≠ "__proto__" ∧
       truthy (map_get (buildFieldMap (fields oldSchema)) (name f)) = false.
Proof.
  intros Hd Hv.
  destruct (diffSchemas_spec oldSchema newSchema) as (d' & Hd' & Ha & _).
  simplify_eq. apply Ha in Hv as (nm & Hnm & Hver).
  apply allNames_spec in Hnm as Hdecl. destruct Hdecl as [Hne Hdecl].
  apply verdict_added in Hver as (Hfalsy & Htruthy & ->).
  destruct Hdecl as [[a Ha']|[b Hb]].
  - by rewrite (map_get_declared _ _ _ Hne Ha') in Hfalsy.
  - rewrite (map_get_declared _ _ _ Hne Hb).
    pose proof (field_named_name _ _ _ Hb) as <-.
    exists b. by split_and!.
Qed.

Lemma removed_inv oldSchema newSchema d v :
  diffSchemas oldSchema newSchema = Some d → v ∈ removed d →
  ∃ f, v = VField f ∧ declared oldSchema (name f) = Some f ∧
       name f ≠ "__proto__" ∧
       truthy (map_get (buildFieldMap (fields newSchema)) (name f)) = false.
Proof.
  intros Hd Hv.
  destruct (diffSchemas_spec oldSchema newSchema) as (d' & Hd' & _ & Hr & _).
  simplify_eq. apply Hr in Hv as (nm & Hnm & Hver).
  apply allNames_spec in Hnm as Hdecl. destruct Hdecl as [Hne Hdecl].
  apply verdict_removed in Hver as (Hfalsy & Htruthy & ->).
  destruct Hdecl as [[a Ha']|[b Hb]].
  - rewrite (map_get_declared _ _ _ Hne Ha').
    pose proof (field_named_name _ _ _ Ha') as <-.
    exists a. by split_and!.
  - by rewrite (map_get_declared _ _ _ Hne Hb) in Hfalsy.
Qed.

(** No path is both in [added] and in [removed] of one diff. *)
Lemma added_removed_disjoint oldSchema newSchema d nm :
  diffSchemas oldSchema newSchema = Some d →
  Exists (entry_named nm) (added d) →
  Exists (entry_named nm) (removed d) → False.
Proof.
  intros Hd (v & Hv & f & -> & Hf)%Exists_exists (w & Hw & g & -> & Hg)%Exists_exists.
  destruct (added_inv _ _ _ _ Hd Hv) as (f' & [= <-] & _ & _ & Hfalsy).
  destruct (removed_inv _ _ _ _ Hd Hw) as (g' & [= <-] & Hdecl & Hne & _).
  rewrite Hf, <- Hg in Hfalsy.
  by rewrite (map_get_declared _ _ _ Hne Hdecl) in Hfalsy.
Qed.

Lemma changed_inv oldSchema newSchema d c :
  diffSchemas oldSchema newSchema = Some d → c ∈ changed d →
  changed_name c ∈ allNames (buildFieldMap (fields oldSchema))
                            (buildFieldMap (fields newSchema)) ∧
  verdict (buildFieldMap (fields oldSchema)) (buildFieldMap (fields newSchema))
          (changed_name c) = Some (IsChanged c).
Proof.
  intros Hd Hc.
  destruct (diffSchemas_spec oldSchema newSchema) as (d' & Hd' & _ & _ & Hch & _).
  simplify_eq. apply Hch in Hc as (nm & Hnm & Hver).
  by rewrite (verdict_changed_name _ _ _ _ Hver).
Qed.

(** ** Unchanged paths *)

(** C3, as the code has it.  The returned diff has a fourth group,
    [unchanged].  A path other than [__proto__] that both schemas declare
    with the same type and the same nullability has no entry in [added],
    [removed] or [changed]; the descriptor of the new schema is listed in
    [unchanged]. *)
Theorem diffSchemas_unchanged_path (oldSchema newSchema : Schema) (nm : string)
    (a b : Field) :
  nm ≠ "__proto__" →
  declared oldSchema nm = Some a →
  declared newSchema nm = Some b →
  type a = type b →
  nullable a = nullable b →
  ∃ d, diffSchemas oldSchema newSchema = Some d ∧
       VField b ∈ unchanged d ∧
       ¬ Exists (entry_named nm) (added d) ∧
       ¬ Exists (entry_named nm) (removed d) ∧
       ¬ Exists (λ c, changed_name c = nm) (changed d).
Proof.
  intros Hne Ha Hb Ht Hn.
  destruct (diffSchemas_spec oldSchema newSchema) as (d & Hd & _ & _ & _ & Hun).
  pose proof (verdict_both _ _ _ _ _ Hne Ha Hb) as Hver.
  assert (compare (VString (type a)) (VString (type b))
                  (VBool (nullable a)) (VBool (nullable b)) = []) as Hcmp
    by by apply compare_fields_nil.
  rewrite Hcmp in Hver.
  exists d. split_and!; [done|..].
  - apply Hun. exists nm. split; [|done]. apply allNames_spec.
    split; [done|]. left. unfold declared in Ha. by rewrite Ha.
  - intros (v & Hv & f & -> & Hf)%Exists_exists.
    destruct (added_inv _ _ _ _ Hd Hv) as (f' & [= <-] & _ & _ & Hfalsy).
    rewrite Hf in Hfalsy. by rewrite (map_get_declared _ _ _ Hne Ha) in Hfalsy.
  - intros (v & Hv & f & -> & Hf)%Exists_exists.
    destruct (removed_inv _ _ _ _ Hd Hv) as (f' & [= <-] & _ & _ & Hfalsy).
    rewrite Hf in Hfalsy. by rewrite (map_get_declared _ _ _ Hne Hb) in Hfalsy.
  - intros (c & Hc & Hcn)%Exists_exists.
    destruct (changed_inv _ _ _ _ Hd Hc) as [_ Hver'].
    rewrite Hcn in Hver'. congruence.
Qed.

Lemma diffSchemas_unchanged_path_witness :
  let s := schema_of [named "id" "string"; named "price" "decimal"] in
  ∃ d, diffSchemas s s = Some d ∧
       VField (normalizeField (named "price" "decimal")) ∈ unchanged d ∧
       ¬ Exists (entry_named "price") (added d) ∧
       ¬ Exists (entry_named "price") (removed d) ∧
       ¬ Exists (λ c, changed_name c = "price") (changed d).
Proof.
  intros s.
  apply (diffSchemas_unchanged_path s s "price"
           (normalizeField (named "price" "decimal"))
           (normalizeField (named "price" "decimal")));
    [discriminate | reflexivity | reflexivity | reflexivity | reflexivity].
Defined.

(** As the specification words it, C3 fails: a path with identical type
    and nullability on both sides is returned, in [unchanged]. *)
Lemma diffSchemas_returns_unchanged :
  let s := schema_of [named "id" "string"] in
  ∃ d, diffSchemas s s = Some d ∧
       declared s "id" = Some (normalizeField (named "id" "string")) ∧
       mentions d "id".
Proof.
  intros s. eexists. split; [reflexivity|]. split; [reflexivity|].
  right; right; right. simpl. apply Exists_cons_hd.
  eexists. split; reflexivity.
Qed.

(** ** Schemas without inherited names *)

Lemma declared_names s nm : is_Some (declared s nm) ↔ nm ∈ names s.
Proof.
  unfold declared, names. rewrite <- not_eq_None_Some, field_named_None.
  split; [apply dec_stable|auto].
Qed.

Lemma declared_NoDup s f :
  NoDup (names s) →
  declared s (name f) = Some f ↔ f ∈ normalizeFieldsArray (fields s).
Proof.
  intros Hnd. split; [apply field_named_elem|].
  intros Hf. by apply field_named_NoDup.
Qed.

Lemma plain_map_get s nm :
  plain_names s → inherited nm = false →
  map_get (buildFieldMap (fields s)) nm = from_option VField VUndefined (declared s nm).
Proof.
  intros Hs Hnm. unfold map_get.
  destruct (String.eqb_spec nm "__proto__") as [->|Hne]; [done|].
  rewrite buildFieldMap_own, buildFieldMap_proto by done. fold (declared s nm).
  destruct (declared s nm); [done|].
  destruct (field_named "__proto__" _) as [p|] eqn:Ep.
  - assert (is_Some (declared s "__proto__")) as Hp%declared_names by (by exists p).
    by apply Hs in Hp.
  - unfold object_prototype_get. by rewrite Hnm.
Qed.

(** When no field of either schema is named like a member of
    [Object.prototype], the diff files every path as the specification
    says: [added] holds the descriptors declared only by the new schema,
    [removed] those declared only by the old one, [changed] one entry for
    each path declared by both with a different type or nullability,
    carrying both snapshots. *)
Lemma diffSchemas_plain_names (oldSchema newSchema : Schema) :
  plain_names oldSchema → plain_names newSchema →
  ∃ d, diffSchemas oldSchema newSchema = Some d ∧
    (∀ v, v ∈ added d ↔
       ∃ f, v = VField f ∧ declared newSchema (name f) = Some f ∧
            declared oldSchema (name f) = None) ∧
    (∀ v, v ∈ removed d ↔
       ∃ f, v = VField f ∧ declared oldSchema (name f) = Some f ∧
            declared newSchema (name f) = None) ∧
    (∀ c, c ∈ changed d ↔
       ∃ a b, declared oldSchema (changed_name c) = Some a ∧
              declared newSchema (changed_name c) = Some b ∧
              (type a ≠ type b ∨ nullable a ≠ nullable b) ∧
              before c = snapshot a ∧ after c = snapshot b ∧
              diffs c = (if bool_decide (type a ≠ type b) then ["type"] else []) ++
                        (if negb (eqb (nullable a) (nullable b)) then ["nullable"] else [])).
Proof.
  intros Ho Hn.
  destruct (diffSchemas_spec oldSchema newSchema) as (d & Hd & Hadd & Hrem & Hch & _).
  exists d. split; [done|].
  assert (∀ s nm, plain_names s → is_Some (declared s nm) →
            inherited nm = false ∧ nm ≠ "__proto__") as Hplain.
  { intros s nm Hs Hnm%declared_names. apply Hs in Hnm. split; [done|].
    by intros ->. }
  split_and!.
  - intros v. split.
    + intros Hv. destruct (added_inv _ _ _ _ Hd Hv) as (f & -> & Hf & _ & Hfalsy).
      exists f. split_and!; [done..|].
      destruct (Hplain newSchema (name f) Hn) as [Hi _]; [by rewrite Hf|].
      rewrite (plain_map_get _ _ Ho Hi) in Hfalsy.
      by destruct (declared oldSchema (name f)).
    + intros (f & -> & Hf & Hnone). apply Hadd. exists (name f).
      destruct (Hplain newSchema (name f) Hn) as [Hi Hne]; [by rewrite Hf|].
      split.
      * apply allNames_spec. split; [done|]. right. unfold declared in Hf. by rewrite Hf.
      * unfold verdict. rewrite (plain_map_get _ _ Ho Hi), (plain_map_get _ _ Hn Hi).
        by rewrite Hf, Hnone.
  - intros v. split.
    + intros Hv. destruct (removed_inv _ _ _ _ Hd Hv) as (f & -> & Hf & _ & Hfalsy).
      exists f. split_and!; [done..|].
      destruct (Hplain oldSchema (name f) Ho) as [Hi _]; [by rewrite Hf|].
      rewrite (plain_map_get _ _ Hn Hi) in Hfalsy.
      by destruct (declared newSchema (name f)).
    + intros (f & -> & Hf & Hnone). apply Hrem. exists (name f).
      destruct (Hplain oldSchema (name f) Ho) as [Hi Hne]; [by rewrite Hf|].
      split.
      * apply allNames_spec. split; [done|]. left. unfold declared in Hf. by rewrite Hf.
      * unfold verdict. rewrite (plain_map_get _ _ Ho Hi), (plain_map_get _ _ Hn Hi).
        by rewrite Hf, Hnone.
  - intros c. split.
    + intros Hc. destruct (changed_inv _ _ _ _ Hd Hc) as [Hnm Hver].
      apply allNames_spec in Hnm as [Hne Hdecl].
      assert (inherited (changed_name c) = false) as Hi.
      { destruct Hdecl as [H|H]; [by apply (Hplain oldSchema)|by apply (Hplain newSchema)]. }
      unfold verdict in Hver.
      rewrite (plain_map_get _ _ Ho Hi), (plain_map_get _ _ Hn Hi) in Hver.
      destruct (declared oldSchema (changed_name c)) as [a|],
               (declared newSchema (changed_name c)) as [b|]; simpl in Hver; try done.
      exists a, b. rewrite compare_fields in Hver.
      assert (type a ≠ type b ∨ nullable a ≠ nullable b) as Hdiff.
      { destruct (decide (type a = type b)) as [Et|]; [|by left].
        destruct (decide (nullable a = nullable b)) as [En|]; [|by right].
        rewrite bool_decide_eq_false_2, En, eqb_reflx in Hver by auto. done. }
      destruct (_ ++ _) eqn:Ec in Hver.
      { apply app_eq_nil in Ec as [H1 H2]. destruct Hdiff as [Ht|Hnl].
        - by rewrite bool_decide_eq_true_2 in H1.
        - destruct (nullable a), (nullable b); done. }
      injection Hver as <-. simpl. by rewrite Ec.
    + intros (a & b & Ha & Hb & Hdiff & Hbefore & Hafter & Hdiffs).
      apply Hch. exists (changed_name c).
      destruct (Hplain oldSchema (changed_name c) Ho) as [Hi Hne]; [by rewrite Ha|].
      split.
      * apply allNames_spec. split; [done|]. left. unfold declared in Ha. by rewrite Ha.
      * rewrite (verdict_both _ _ _ _ _ Hne Ha Hb), compare_fields, <- Hdiffs.
        destruct (diffs c) eqn:Ed.
        { exfalso. symmetry in Hdiffs. apply app_eq_nil in Hdiffs as [H1 H2].
          destruct Hdiff as [Ht|Hnl].
          - by rewrite bool_decide_eq_true_2 in H1.
          - destruct (nullable a), (nullable b); done. }
        rewrite <- Ed. destruct c; simpl in *. by subst.
Qed.

(** ** Every path is filed once *)

Lemma verdict_groups_Permutation (vs : list Verdict) (nms : list string) :
  Forall2 (λ v nm, verdict_name v = Some nm) vs nms →
  omap entry_name (omap added_of vs) ++ omap entry_name (omap removed_of vs) ++
  (changed_name <$> omap changed_of vs) ++ omap entry_name (omap unchanged_of vs)
  ≡ₚ nms.
Proof.
  induction 1 as [|v nm vs nms Hv _ IH]; [done|].
  destruct v as [x|x|c|x]; simpl in Hv; csimpl; rewrite ?Hv; csimpl.
  - by rewrite IH.
  - rewrite <- Permutation_middle. by rewrite IH.
  - injection Hv as ->. rewrite app_assoc, <- Permutation_middle, <- app_assoc.
    by rewrite IH.
  - rewrite !app_assoc, <- Permutation_middle, <- !app_assoc. by rewrite IH.
Qed.

Lemma Forall2_impl_elem {A B} (P Q : A → B → Prop) l k :
  Forall2 P l k → (∀ x y, x ∈ l → P x y → Q x y) → Forall2 Q l k.
Proof.
  induction 1 as [|x y l k Hxy _ IH]; intros HPQ; constructor.
  - apply HPQ; [left|done].
  - apply IH. intros x' y' Hx'. apply HPQ. by right.
Qed.

Lemma verdict_name_plain oldSchema newSchema nm v :
  plain_names oldSchema → plain_names newSchema →
  nm ∈ names oldSchema ∨ nm ∈ names newSchema →
  verdict (buildFieldMap (fields oldSchema)) (buildFieldMap (fields newSchema)) nm
    = Some v →
  verdict_name v = Some nm.
Proof.
  intros Ho Hn Hnm Hv.
  assert (inherited nm = false) as Hi by (destruct Hnm; auto).
  pose proof (plain_map_get _ _ Ho Hi) as Ea.
  pose proof (plain_map_get _ _ Hn Hi) as Eb.
  assert (∀ s x, from_option VField VUndefined (declared s nm) = x →
                 truthy x = true → entry_name x = Some nm) as Hentry.
  { intros s x <-. destruct (declared s nm) as [f|] eqn:E; [|done].
    intros _. simpl. f_equal. by eapply field_named_name. }
  apply verdict_inv in Hv as [(_ & Hb & ->)|[(Ha & _ & ->)|(Hab & ? & ? & ? & ? & _ & _ & _ & _ & Hc)]];
    simpl.
  - by eapply Hentry.
  - by eapply Hentry.
  - destruct Hc as [[_ ->]|[_ ->]]; simpl; [|done].
    eapply Hentry; [done|].
    destruct Hnm as [H%declared_names|H%declared_names].
    + rewrite <- Hab, Ea. by destruct H as [? ->].
    + rewrite Eb. by destruct H as [? ->].
Qed.

(** When no field is named like a member of [Object.prototype], the
    paths of the four groups are, up to order, the field names of the two
    schemas, each once: every field name of either schema has exactly one
    entry in exactly one group, and no group has two entries for one
    path. *)
Lemma diffSchemas_files_each_path_once (oldSchema newSchema : Schema) :
  plain_names oldSchema → plain_names newSchema →
  ∃ d, diffSchemas oldSchema newSchema = Some d ∧
       NoDup (group_names d) ∧
       ∀ nm, nm ∈ group_names d ↔ nm ∈ names oldSchema ∨ nm ∈ names newSchema.
Proof.
  intros Ho Hn.
  set (oldMap := buildFieldMap (fields oldSchema)).
  set (newMap := buildFieldMap (fields newSchema)).
  destruct (forEach_visit oldMap newMap (allNames oldMap newMap) empty_diff)
    as (vs & Hvs & Hrun).
  { intros nm. apply allNames_verdict. }
  exists {| added := omap added_of vs; removed := omap removed_of vs;
            changed := omap changed_of vs; unchanged := omap unchanged_of vs |}.
  split; [exact Hrun|].
  assert (∀ nm, nm ∈ allNames oldMap newMap ↔
                nm ∈ names oldSchema ∨ nm ∈ names newSchema) as Hnames.
  { intros nm. unfold oldMap, newMap. rewrite allNames_spec.
    rewrite <- !declared_names. unfold declared. split; [naive_solver|].
    intros H. split; [|done]. intros ->.
    destruct H as [H|H]; apply declared_names in H; [apply Ho in H|apply Hn in H];
      done. }
  assert (group_names {| added := omap added_of vs; removed := omap removed_of vs;
                         changed := omap changed_of vs;
                         unchanged := omap unchanged_of vs |}
          ≡ₚ allNames oldMap newMap) as Hperm.
  { apply verdict_groups_Permutation. apply mapM_Some in Hvs.
    apply Forall2_flip. eapply Forall2_impl_elem; [exact Hvs|]. simpl.
    intros nm v Hnm%Hnames Hv. by apply (verdict_name_plain oldSchema newSchema). }
  split.
  - rewrite Hperm. apply NoDup_uniq.
  - intros nm. by rewrite Hperm.
Qed.

(** ** The example of scenario 2 *)

(** C5.  Diffing version 1 with fields [id] and [price: string] against
    version 2 with [id] of the same type, [price: decimal] and [currency]
    gives [added = [currency]], an empty [removed], and one [changed]
    entry, [price], going from type [string] to type [decimal]; this
    holds whatever the types of [id] and [currency] are. *)
Theorem diffSchemas_scenario_2 (id_type currency_type : string) :
  diffSchemas
    (schema_of [named "id" id_type; named "price" "string"])
    (schema_of [named "id" id_type; named "price" "decimal";
                named "currency" currency_type]) =
  Some {| added := [VField (normalizeField (named "currency" currency_type))];
          removed := [];
          changed := [ {| changed_name := "price";
                          before := {| snap_type := VString "string";
                                       snap_nullable := VBool true |};
                          after := {| snap_type := VString "decimal";
                                      snap_nullable := VBool true |};
                          diffs := ["type"] |} ];
          unchanged := [VField (normalizeField (named "id" id_type))] |}.
Proof.
  unfold diffSchemas. simpl. unfold visit. simpl.
  rewrite compare_same. reflexivity.
Qed.

(** ** Names that collide with the prototype of the field map *)

(** C1 at a failing input.  The new schema declares one field,
    [constructor], which the old schema lacks; field names are pairwise
    distinct.  The read [oldMap["constructor"]] returns the inherited
    function, so the loop takes the branch under its comment [both exist]:
    [added] stays empty and the field is reported in [changed], with a
    [before] snapshot of two [undefined]. *)
Theorem diffSchemas_constructor_misfiled :
  let oldSchema := schema_of [] in
  let newSchema := schema_of [named "constructor" "string"] in
  NoDup (names oldSchema) ∧ NoDup (names newSchema) ∧
  declared oldSchema "constructor" = None ∧
  declared newSchema "constructor" =
    Some (normalizeField (named "constructor" "string")) ∧
  map_get (buildFieldMap (fields oldSchema)) "constructor" = VBuiltin "constructor" ∧
  diffSchemas oldSchema newSchema =
    Some {| added := [];
            removed := [];
            changed := [ {| changed_name := "constructor";
                            before := {| snap_type := VUndefined;
                                         snap_nullable := VUndefined |};
                            after := {| snap_type := VString "string";
                                        snap_nullable := VBool true |};
                            diffs := ["type"; "nullable"] |} ];
            unchanged := [] |}.
Proof.
  simpl. split_and!; try reflexivity.
  - constructor.
  - apply NoDup_singleton.
Qed.

(** C2 at a failing input.  The old schema declares [toString], the new
    one does not; the diff nevertheless has a [changed] entry for
    [toString], a path that exists in one of the two schemas only. *)
Theorem diffSchemas_changed_in_one_schema_only :
  let oldSchema := schema_of [named "toString" "string"] in
  let newSchema := schema_of [named "id" "string"] in
  ∃ d, diffSchemas oldSchema newSchema = Some d ∧
       Exists (λ c, changed_name c = "toString") (changed d) ∧
       "toString" ∈ names oldSchema ∧ "toString" ∉ names newSchema.
Proof.
  simpl. eexists. split; [reflexivity|]. simpl. split_and!.
  - by apply Exists_cons_hd.
  - apply list_elem_of_singleton. reflexivity.
  - intros H%list_elem_of_singleton. discriminate H.
Qed.

(** C4 at a failing input.  The old schema declares [__proto__] and [id],
    with distinct names.  [map['__proto__'] = ...] replaces the prototype
    of the field map and stores no key, so the path [__proto__] is filed
    in none of the four groups. *)
Theorem diffSchemas_proto_path_lost :
  let oldSchema := schema_of [named "__proto__" "string"; named "id" "string"] in
  let newSchema := schema_of [named "id" "string"] in
  NoDup (names oldSchema) ∧ NoDup (names newSchema) ∧
  "__proto__" ∈ names oldSchema ∧
  ∃ d, diffSchemas oldSchema newSchema = Some d ∧
       d = {| added := []; removed := []; changed := [];
              unchanged := [VField (normalizeField (named "id" "string"))] |} ∧
       ¬ mentions d "__proto__".
Proof.
  simpl. split_and!.
  - apply NoDup_cons. split; [|apply NoDup_singleton].
    intros H%list_elem_of_singleton. discriminate H.
  - apply NoDup_singleton.
  - left.
  - eexists. split; [reflexivity|]. split; [reflexivity|].
    unfold mentions. simpl. rewrite !Exists_nil, Exists_cons, Exists_nil.
    intros [[]|[[]|[[]|[(f & [= <-] & Hf)|[]]]]]. discriminate Hf.
Qed.

(** ** Nullability *)

(** An absent [nullable] flag is normalised to [true]. *)
Lemma normalizeField_nullable_absent (f : RawField) :
  raw_nullable f = VUndefined → nullable (normalizeField f) = true.
Proof. intros E. simpl. by rewrite E. Qed.

(** Only an explicit [nullable: false] gives a non-nullable field. *)
Lemma normalizeField_nullable_false (f : RawField) :
  nullable (normalizeField f) = false ↔ raw_nullable f = VBool false.
Proof.
  simpl. unfold strict_neq. rewrite bool_decide_eq_false. split; [apply dec_stable|auto].
Qed.

(** For a path other than [__proto__] that both schemas declare, the
    entry filed for it lists [nullable] among its [diffs] exactly when the
    two normalised flags differ. *)
Lemma diffSchemas_nullable_change (oldSchema newSchema : Schema) (nm : string)
    (a b : Field) :
  nm ≠ "__proto__" →
  declared oldSchema nm = Some a →
  declared newSchema nm = Some b →
  ∃ d, diffSchemas oldSchema newSchema = Some d ∧
       (Exists (λ c, changed_name c = nm ∧ "nullable" ∈ diffs c) (changed d)
        ↔ nullable a ≠ nullable b).
Proof.
  intros Hne Ha Hb.
  destruct (diffSchemas_spec oldSchema newSchema) as (d & Hd & _ & _ & Hch & _).
  exists d. split; [done|].
  pose proof (verdict_both _ _ _ _ _ Hne Ha Hb) as Hver.
  rewrite compare_fields in Hver. rewrite Exists_exists. split.
  - intros (c & Hc & Hcn & Hdiffs).
    destruct (changed_inv _ _ _ _ Hd Hc) as [_ Hver'].
    rewrite Hcn, Hver in Hver'. intros En. rewrite En, eqb_reflx in Hver'.
    simpl in Hver'. rewrite app_nil_r in Hver'.
    case_bool_decide; [|done]. injection Hver' as Hver'.
    rewrite <- Hver' in Hdiffs. simpl in Hdiffs.
    apply list_elem_of_singleton in Hdiffs. discriminate Hdiffs.
  - intros Hn.
    assert (negb (eqb (nullable a) (nullable b)) = true) as En
      by (destruct (nullable a), (nullable b); done).
    rewrite En in Hver.
    assert (∃ c, verdict (buildFieldMap (fields oldSchema))
                         (buildFieldMap (fields newSchema)) nm = Some (IsChanged c) ∧
                 changed_name c = nm ∧ "nullable" ∈ diffs c) as (c & Hc & Hcn & Hdiffs).
    { case_bool_decide; simpl in Hver; eexists; (split; [exact Hver|]); simpl;
        (split; [done|]); [right|]; left. }
    exists c. split_and!; [|done..]. apply Hch. exists nm. split; [|done].
    apply allNames_spec. split; [done|]. left. unfold declared in Ha. by rewrite Ha.
Qed.

(** C9 at a failing input.  Both schemas declare the path [__proto__];
    the old descriptor has [nullable: false], the new one has no flag, so
    exactly one of the two is non-nullable.  The diff reports nothing. *)
Theorem diffSchemas_proto_nullability_unreported :
  let oldSchema := schema_of [flagged "__proto__" "string" (VBool false)] in
  let newSchema := schema_of [flagged "__proto__" "string" VUndefined] in
  (∃ a b, declared oldSchema "__proto__" = Some a ∧
          declared newSchema "__proto__" = Some b ∧
          nullable a = false ∧ nullable b = true) ∧
  diffSchemas oldSchema newSchema = Some empty_diff.
Proof.
  simpl. split; [|reflexivity]. do 2 eexists. split_and!; reflexivity.
Qed.

(** ** The field timeline *)

Lemma fieldTimeline_length fieldName history entries :
  fieldTimeline fieldName history = Some entries →
  length entries = length (default [] history).
Proof. intros H. symmetry. by apply length_mapM in H. Qed.

(** An entry with [present = false] has [null] for [type] and
    [nullable]. *)
Lemma timeline_entry_absent fieldName s e :
  timeline_entry fieldName s = Some e → present e = false →
  entry_type e = VNull ∧ entry_nullable e = VNull.
Proof.
  unfold timeline_entry. destruct (timeline_map s) as [m|]; [|done].
  simpl. intros [= <-]. simpl. intros Hf. rewrite Hf. split; [|done].
  unfold optional_type, js_or.
  by destruct (map_get m fieldName) as [| |[]|z|str|f|k]; simpl in *.
Qed.

(** For a name that is not a member of [Object.prototype], and a version
    whose fields are not named like one either, [present] says whether
    the version declares the field. *)
Lemma timeline_entry_present_plain fieldName s l e :
  version_fields s = Some l →
  inherited fieldName = false →
  plain_names (schema_of l) →
  timeline_entry fieldName s = Some e →
  present e = true ↔ fieldName ∈ names (schema_of l).
Proof.
  intros Hl Hi Hplain. unfold timeline_entry.
  assert (timeline_map s = Some (buildFieldMap (Some l))) as ->.
  { unfold timeline_map, version_fields in *.
    destruct (schema s) as [|o|l']; simplify_eq; [done| |done]. by rewrite Hl. }
  simpl. intros [= <-]. simpl.
  change (buildFieldMap (Some l)) with (buildFieldMap (fields (schema_of l))).
  rewrite (plain_map_get (schema_of l) fieldName Hplain Hi).
  rewrite <- declared_names. destruct (declared (schema_of l) fieldName); simpl.
  - split; eauto.
  - split; [done|]. by intros [? ?].
Qed.

(** C10 at a failing input.  The only version of the history declares the
    single field [id]; the timeline of [toString] still has
    [present = true], because [map["toString"]] reads the inherited
    function. *)
Theorem fieldTimeline_inherited_name_present :
  let history := [version_of 1 [named "id" "string"]] in
  ("toString" ∉ names (schema_of [named "id" "string"])) ∧
  fieldTimeline "toString" (Some history) =
    Some [ mkEntry (VNumber 1) VNull true VNull (VBool false) ].
Proof.
  simpl. split; [|reflexivity].
  intros H%list_elem_of_singleton. discriminate H.
Qed.

(** ** The stability score *)

(** Fewer than two versions: the score is 100. *)
Lemma computeStability_short (history : list Schema) :
  length history < 2 → computeStability (Some history) = Some 100%Z.
Proof. destruct history as [|? [|? ?]]; simpl; [done..|lia]. Qed.

Lemma computeStability_absent : computeStability None = Some 100%Z.
Proof. reflexivity. Qed.

(** C8 at a failing input.  A history of 201 versions: 200 equal ones,
    then one whose only field changes type.  199 of the 200 adjacent
    diffs are empty and the last one has a [changed] entry, yet
    [Math.round(199 / 200 * 100)] is 100. *)
Theorem computeStability_100_with_a_change :
  let stable := schema_of [named "a" "string"] in
  let last := schema_of [named "a" "decimal"] in
  (∃ d, diffSchemas stable last = Some d ∧ no_changes d = false) ∧
  computeStability (Some (replicate 200 stable ++ [last])) = Some 100%Z.
Proof.
  split.
  - eexists. split; reflexivity.
  - vm_compute. reflexivity.
Qed.

(** The loop counts the adjacent pairs and, among them, the stable
    ones; it never throws. *)
Lemma stability_loop_counts prev rest totalChecks stableChecks :
  stability_loop prev rest totalChecks stableChecks =
    Some ((totalChecks + N.of_nat (length rest))%N,
          (stableChecks + N.of_nat (stable_pairs prev rest))%N).
Proof.
  revert prev totalChecks stableChecks.
  induction rest as [|cur rest IH]; intros prev totalChecks stableChecks; simpl.
  - by rewrite !N.add_0_r.
  - unfold stable_pair.
    destruct (diffSchemas_total prev cur) as [d ->]. simpl. rewrite IH.
    do 2 f_equal; destruct (no_changes d); lia.
Qed.

Lemma stable_pairs_le prev rest : stable_pairs prev rest ≤ length rest.
Proof.
  revert prev. induction rest as [|cur rest IH]; intros prev; simpl; [done|].
  specialize (IH cur). destruct (stable_pair prev cur); lia.
Qed.

Lemma stable_pairs_all prev rest :
  stable_pairs prev rest = length rest ↔ all_stable prev rest.
Proof.
  revert prev. induction rest as [|cur rest IH]; intros prev; simpl; [done|].
  pose proof (stable_pairs_le cur rest). rewrite <- IH.
  destruct (stable_pair prev cur); split.
  - intros ?. split; [done|lia].
  - intros [_ ?]. lia.
  - lia.
  - intros [? _]. done.
Qed.

#[local] Arguments score : simpl never.

Lemma scores_ok_below_spec bound s t :
  scores_ok_below bound = true → 1 ≤ t ≤ bound → s ≤ t → score_ok s t = true.
Proof.
  unfold scores_ok_below. rewrite forallb_forall. intros H Ht Hs.
  destruct t as [|t]; [lia|].
  specialize (H t). rewrite forallb_forall in H.
  apply H; apply in_seq; lia.
Qed.

Lemma scores_ok_below_200 : scores_ok_below 199 = true.
Proof. vm_compute. reflexivity. Qed.

Lemma score_ok_below_200 s t :
  1 ≤ t ≤ 199 → s ≤ t → score_ok s t = true.
Proof. apply scores_ok_below_spec, scores_ok_below_200. Qed.

(** With at most 200 versions the score is an integer from 0 to 100,
    equal to 100 exactly when every adjacent diff is empty; a history of
    201 versions is the shortest one on which this fails. *)
Lemma computeStability_up_to_200_versions (history : list Schema) :
  2 ≤ length history ≤ 200 →
  ∃ z, computeStability (Some history) = Some z ∧
       (0 ≤ z ≤ 100)%Z ∧
       (z = 100%Z ↔ match history with
                    | first :: rest => all_stable first rest
                    | [] => True
                    end).
Proof.
  destruct history as [|first [|second rest]]; [simpl; lia..|]. intros Hlen.
  set (rest' := second :: rest) in *.
  assert (1 ≤ length rest' ≤ 199) as Hlen' by (simpl in *; lia).
  unfold computeStability. fold rest'.
  rewrite stability_loop_counts. cbn [mbind option_bind]. rewrite !N.add_0_l.
  pose proof (stable_pairs_le first rest') as Hle.
  pose proof (stable_pairs_all first rest') as Hall.
  pose proof (score_ok_below_200 _ _ Hlen' Hle) as Hok.
  unfold score_ok in Hok.
  destruct (score _ _) as [z|]; [|discriminate Hok].
  exists z. split; [done|].
  apply andb_prop in Hok as [[H0 H100]%andb_prop Heq].
  apply Z.leb_le in H0. apply Z.leb_le in H100. split; [lia|].
  rewrite <- Hall. apply eqb_prop in Heq. split.
  - intros ->. rewrite Z.eqb_refl in Heq. symmetry in Heq. by apply Nat.eqb_eq in Heq.
  - intros E. rewrite E, Nat.eqb_refl in Heq. by apply Z.eqb_eq in Heq.
Qed.

(** * Coverage of the Fragment Detector *)

Section Coverage.

Import FragmentDetector.

Context {Payload : Type}.
Variable detector : Kind → list ascii → nat → option (nat * Payload).
Variable raw_text : list ascii → Payload.

(** A match is a span of the buffer: it is not empty and ends inside. *)
Hypothesis detector_span : ∀ k buf pos n p,
  detector k buf pos = Some (n, p) → 0 < n ∧ pos + n ≤ length buf.

Lemma first_match_span ks buf pos k n p :
  first_match detector ks buf pos = Some (k, n, p) →
  k ∈ ks ∧ detector k buf pos = Some (n, p) ∧ 0 < n ∧ pos + n ≤ length buf.
Proof.
  induction ks as [|k' ks IH]; simpl; [done|].
  destruct (detector k' buf pos) as [[n' p']|] eqn:E.
  - intros ?; simplify_eq. split; [left|]. split; [done|]. by eapply detector_span.
  - intros (? & ? & ?)%IH. split; [by right|done].
Qed.

#[local] Arguments first_match : simpl never.

Lemma tiles_le pos sps stop : tiles pos sps stop → pos ≤ stop.
Proof.
  revert pos. induction sps as [|sp sps IH]; simpl; intros pos.
  - intros ->. done.
  - intros (<- & Hlt & Hrest%IH). lia.
Qed.

Lemma tiles_text (buf : list ascii) pos sps stop :
  tiles pos sps stop → stop ≤ length buf →
  mjoin (span_text buf <$> sps) = take (stop - pos) (drop pos buf).
Proof.
  revert pos. induction sps as [|sp sps IH]; csimpl; intros pos.
  - intros -> _. by rewrite Nat.sub_diag.
  - intros (<- & Hlt & Hrest) Hstop.
    pose proof (tiles_le _ _ _ Hrest) as Hle.
    rewrite (IH _ Hrest Hstop). unfold span_text.
    replace (drop sp.2 buf) with (drop (sp.2 - sp.1) (drop sp.1 buf))
      by (rewrite drop_drop; f_equal; lia).
    rewrite take_take_drop. f_equal. lia.
Qed.

Lemma scan_tiles fuel buf pos raw :
  length buf - pos ≤ fuel → pos ≤ length buf →
  (∀ s, raw = Some s → s < pos) →
  tiles (default pos raw)
        (rawSpan <$> scan detector raw_text fuel buf pos raw) (length buf).
Proof.
  revert pos raw. induction fuel as [|fuel IH]; intros pos raw Hfuel Hpos Hraw.
  - assert (pos = length buf) as -> by lia.
    destruct raw as [s|]; simpl; [|done]. repeat split; auto.
  - simpl. case_decide as Hend.
    { assert (pos = length buf) as -> by lia.
      destruct raw as [s|]; simpl; [|done]. repeat split; auto. }
    destruct (first_match detector priority buf pos) as [[[k n] p]|] eqn:Em.
    + apply first_match_span in Em as (_ & _ & Hn & Hin).
      assert (tiles (pos + n)
                (rawSpan <$> scan detector raw_text fuel buf (pos + n) None)
                (length buf)) as Hrest.
      { apply (IH (pos + n) None); [lia|lia|done]. }
      destruct raw as [s|]; csimpl; repeat split; simpl; auto; try lia.
    + apply (IH (S pos) (Some (default pos raw))); [lia|lia|].
      intros s [= <-]. destruct raw as [s|]; simpl; [|lia].
      specialize (Hraw s eq_refl). lia.
Qed.

(** Raw text holds no structured match, and a structured fragment is the
    first match in priority order at its start. *)
Lemma scan_kinds fuel buf pos raw f :
  (∀ s i, raw = Some s → s ≤ i < pos → first_match detector priority buf i = None) →
  f ∈ scan detector raw_text fuel buf pos raw →
  if decide (kind f = RawText)
  then ∀ i, f.(rawSpan).1 ≤ i < f.(rawSpan).2 →
            first_match detector priority buf i = None
  else first_match detector priority buf f.(rawSpan).1 =
         Some (kind f, f.(rawSpan).2 - f.(rawSpan).1, payload f).
Proof.
  assert (∀ pos raw,
    (∀ s i, raw = Some s → s ≤ i < pos → first_match detector priority buf i = None) →
    f ∈ flush raw_text buf raw pos →
    if decide (kind f = RawText)
    then ∀ i, f.(rawSpan).1 ≤ i < f.(rawSpan).2 →
              first_match detector priority buf i = None
    else first_match detector priority buf f.(rawSpan).1 =
           Some (kind f, f.(rawSpan).2 - f.(rawSpan).1, payload f)) as Hflush.
  { intros pos' [s|] Hraw; simpl; [|by intros ?%elem_of_nil].
    intros ->%list_elem_of_singleton. simpl. intros i Hi. by eapply Hraw. }
  revert pos raw. induction fuel as [|fuel IH]; intros pos raw Hraw; simpl.
  - by apply Hflush.
  - destruct (decide (length buf ≤ pos)) as [Hend|Hend]; [by apply Hflush|].
    destruct (first_match detector priority buf pos) as [[[k n] p]|] eqn:Em.
    + rewrite elem_of_app, elem_of_cons. intros [Hf|[->|Hf]].
      * by eapply Hflush.
      * simpl. pose proof Em as (Hk & _)%first_match_span.
        destruct (decide (k = RawText)) as [Hkind|Hkind].
        { subst k. repeat (apply elem_of_cons in Hk as [Hk|Hk]; [done|]).
          by apply elem_of_nil in Hk. }
        rewrite Em. by replace (pos + n - pos) with n by lia.
      * apply (IH (pos + n) None); [done|done].
    + apply (IH (S pos) (Some (default pos raw))).
      intros s i [= <-] Hi. destruct raw as [s|]; simpl in Hi.
      * destruct (decide (i = pos)) as [->|]; [done|]. eapply Hraw; [done|lia].
      * by assert (i = pos) as -> by lia.
Qed.

(** C7.  For any input buffer the fragments returned by the detector have
    spans that tile the buffer from its first offset to its last, in
    order, without gap or overlap; the texts of the spans, concatenated,
    are the buffer; a [RawText] fragment covers positions where no
    structured detector matches, and every other fragment is the first
    match in priority order at its start. *)
Theorem detect_covers_buffer (buf : list ascii) :
  let frags := detect detector raw_text buf in
  tiles 0 (rawSpan <$> frags) (length buf) ∧
  mjoin (span_text buf <$> (rawSpan <$> frags)) = buf ∧
  ∀ f, f ∈ frags →
    if decide (kind f = RawText)
    then ∀ i, f.(rawSpan).1 ≤ i < f.(rawSpan).2 →
              first_match detector priority buf i = None
    else first_match detector priority buf f.(rawSpan).1 =
           Some (kind f, f.(rawSpan).2 - f.(rawSpan).1, payload f).
Proof.
  intros frags.
  assert (tiles 0 (rawSpan <$> frags) (length buf)) as Htiles.
  { apply (scan_tiles (length buf) buf 0 None); [lia|lia|done]. }
  split_and!; [done|..].
  - rewrite (tiles_text buf 0 _ (length buf) Htiles) by done.
    rewrite drop_0, Nat.sub_0_r. by apply take_ge.
  - intros f Hf. apply (scan_kinds (length buf) buf 0 None f); [done|exact Hf].
Qed.

End Coverage.

Section Coverage_examples.

Import FragmentDetector.

#[local] Arguments first_match : simpl never.

Lemma balanced_span l depth len n :
  balanced l depth len = Some n → len < n ∧ n ≤ len + length l.
Proof.
  revert depth len. induction l as [|c l IH]; intros depth len; simpl; [done|].
  destruct (Ascii.eqb c "{").
  { intros ?%IH. lia. }
  destruct (Ascii.eqb c "}").
  { destruct depth as [|[|d]]; [done|intros [= <-]; lia|intros ?%IH; lia]. }
  destruct (depth =? 0)%nat; [done|]. intros ?%IH. lia.
Qed.

Lemma brace_detector_span k buf pos n p :
  brace_detector k buf pos = Some (n, p) → 0 < n ∧ pos + n ≤ length buf.
Proof.
  destruct k; simpl; try done.
  destruct (balanced (drop pos buf) 0 0) as [m|] eqn:E; simpl; [|done].
  intros [= <- <-]. apply balanced_span in E. rewrite length_drop in E. lia.
Qed.

Lemma detect_covers_buffer_witness :
  let buf := list_ascii_of_string "id: 7 {x{}} tail" in
  let frags := detect brace_detector (λ _, tt) buf in
  tiles 0 (rawSpan <$> frags) (length buf) ∧
  mjoin (span_text buf <$> (rawSpan <$> frags)) = buf ∧
  ∀ f, f ∈ frags →
    if decide (kind f = RawText)
    then ∀ i, f.(rawSpan).1 ≤ i < f.(rawSpan).2 →
              first_match brace_detector priority buf i = None
    else first_match brace_detector priority buf f.(rawSpan).1 =
           Some (kind f, f.(rawSpan).2 - f.(rawSpan).1, payload f).
Proof.
  exact (detect_covers_buffer brace_detector (λ _, tt) brace_detector_span
           (list_ascii_of_string "id: 7 {x{}} tail")).
Defined.

(** The edge cases of section 4.1: an empty buffer has no fragment, and a
    buffer without structured content is one [RawText] fragment. *)
Lemma detect_empty {Payload} (detector : Kind → list ascii → nat → option (nat * Payload))
    raw_text :
  detect detector raw_text [] = [].
Proof. reflexivity. Qed.

Lemma scan_unstructured {Payload}
    (detector : Kind → list ascii → nat → option (nat * Payload)) raw_text
    fuel buf pos raw :
  (∀ i, first_match detector priority buf i = None) →
  length buf - pos ≤ fuel → pos ≤ length buf →
  scan detector raw_text fuel buf pos raw =
    flush raw_text buf (if decide (pos < length buf) then Some (default pos raw) else raw)
          (length buf).
Proof.
  intros Hnone. revert pos raw. induction fuel as [|fuel IH]; intros pos raw Hfuel Hpos; simpl.
  - assert (pos = length buf) as -> by lia. by rewrite decide_False by lia.
  - case_decide as Hend.
    + assert (pos = length buf) as -> by lia. by rewrite decide_False by lia.
    + rewrite Hnone, IH by lia. rewrite (decide_True (P := pos < length buf)) by lia.
      by case_decide.
Qed.

Lemma detect_unstructured {Payload}
    (detector : Kind → list ascii → nat → option (nat * Payload)) raw_text buf :
  buf ≠ [] →
  (∀ i, first_match detector priority buf i = None) →
  detect detector raw_text buf =
    [ {| kind := RawText; rawSpan := (0, length buf);
         payload := raw_text (span_text buf (0, length buf)) |} ].
Proof.
  intros Hne Hnone. unfold detect. rewrite scan_unstructured by (done || lia).
  rewrite decide_True; [done|]. destruct buf; [done|simpl; lia].
Qed.

End Coverage_examples.

(** * The store is only extended *)

Section Frame.

Import Store.

Lemma val_fresh_prim n p : val_fresh n (SPrim p).
Proof. intros l Hl. by apply elem_of_nil in Hl. Qed.

Lemma val_fresh_ref n l : n ≤ l → val_fresh n (SRef l).
Proof. intros Hl l' Hl'%list_elem_of_singleton. by subst. Qed.

Lemma val_fresh_ref_inv n l : val_fresh n (SRef l) → n ≤ l.
Proof. intros H. apply H. simpl. left. Qed.

Lemma cell_fresh_array n es : cell_fresh n (CArray es) ↔ Forall (val_fresh n) es.
Proof.
  unfold cell_fresh, val_fresh. simpl. rewrite Forall_forall. split.
  - intros H v Hv l Hl. apply H. apply list_elem_of_bind. eauto.
  - intros H l (v & Hl & Hv)%list_elem_of_bind. eauto.
Qed.

Lemma safe_ret {A} n (x : A) (Q : A → Prop) : Q x → safe n (mret x) Q.
Proof. intros HQ h r h' Hn Hc [= <- <-]. split_and!; [done..|]. by intros ? [= <-]. Qed.

Lemma safe_throw {A} n (Q : A → Prop) : safe n throw Q.
Proof. intros h r h' _ Hc [= <- <-]. done. Qed.

Lemma safe_bind {A B} n (m : M A) (k : A → M B) (Q : A → Prop) (R : B → Prop) :
  safe n m Q → (∀ x, Q x → safe n (k x) R) → safe n (m ≫= k) R.
Proof.
  intros Hm Hk h r h' Hn Hc Hrun. unfold mbind, M_bind in Hrun.
  destruct (m h) as [[x|] h1] eqn:E.
  - destruct (Hm _ _ _ Hn Hc E) as (Hlen & Hold & Hc1 & HQ).
    destruct (Hk x (HQ x eq_refl) h1 r h') as (Hlen' & Hold' & Hc' & HR);
      [lia|done|done|].
    split_and!; [lia| |done|done].
    intros l Hl. by rewrite Hold', Hold.
  - destruct (Hm _ _ _ Hn Hc E) as (Hlen & Hold & Hc1 & _).
    injection Hrun as <- <-. done.
Qed.

Lemma safe_weaken {A} n (m : M A) (Q R : A → Prop) :
  safe n m Q → (∀ x, Q x → R x) → safe n m R.
Proof.
  intros Hm HQR h r h' Hn Hc Hrun.
  destruct (Hm _ _ _ Hn Hc Hrun) as (? & ? & ? & ?). split_and!; auto.
Qed.


Lemma safe_of_option {A} n (o : option A) (Q : A → Prop) :
  (∀ x, o = Some x → Q x) → safe n (of_option o) Q.
Proof. destruct o; simpl; [intros; apply safe_ret; auto|intros; apply safe_throw]. Qed.

Lemma safe_alloc n c : cell_fresh n c → safe n (alloc c) (λ l, n ≤ l).
Proof.
  intros Hc h r h' Hn Hcl [= <- <-]. rewrite length_app. simpl.
  split_and!; [lia| |..|by intros ? [= <-]].
  - intros l Hl. apply lookup_app_l. lia.
  - intros l c' Hl. destruct (decide (l < length h)) as [Hlt|Hge].
    + rewrite lookup_app_l by done. by apply Hcl.
    + rewrite lookup_app_r by lia. intros Hc'.
      destruct (l - length h) as [|?]; simpl in Hc'; [|done]. by simplify_eq.
Qed.

Lemma safe_load n l : safe n (load l) (λ c, n ≤ l → cell_fresh n c).
Proof.
  intros h r h' Hn Hcl. unfold load. intros [= <- <-].
  split_and!; [done..|]. intros c Hc Hl. by eapply Hcl.
Qed.

Lemma safe_store n l c : n ≤ l → cell_fresh n c → safe n (store l c) (λ _, True).
Proof.
  intros Hl Hc h r h' Hn Hcl. unfold store. case_decide; [|by intros [= <- <-]].
  intros [= <- <-]. rewrite length_insert. split_and!; [done| |..|done].
  - intros l' Hl'. apply list_lookup_insert_ne. lia.
  - intros l' c' Hl'. destruct (decide (l = l')) as [<-|Hne].
    + rewrite list_lookup_insert_eq by done. by intros [= <-].
    + rewrite list_lookup_insert_ne by done. by apply Hcl.
Qed.

Lemma safe_forEach {A} n (body : A → M unit) (l : list A) (P : A → Prop) :
  Forall P l → (∀ x, P x → safe n (body x) (λ _, True)) →
  safe n (forEach body l) (λ _, True).
Proof.
  intros Hl Hbody. induction Hl as [|x l Hx _ IH]; simpl.
  - by apply safe_ret.
  - eapply safe_bind; [by apply Hbody|]. intros _ _. apply IH.
Qed.

Lemma safe_map_array {A B} n (f : A → M B) (l : list A) (P : A → Prop) (Q : B → Prop) :
  Forall P l → (∀ x, P x → safe n (f x) Q) →
  safe n (map_array f l) (Forall Q).
Proof.
  intros Hl Hf. induction Hl as [|x l Hx _ IH]; simpl.
  - by apply safe_ret.
  - eapply safe_bind; [by apply Hf|]. intros y Hy.
    eapply safe_bind; [apply IH|]. intros ys Hys. apply safe_ret. by constructor.
Qed.

Lemma Forall_True {A} (l : list A) : Forall (λ _, True) l.
Proof. by apply Forall_forall. Qed.

(** ** The operations, one by one *)

Lemma safe_load_array n v :
  safe n (load_array v) (λ es, val_fresh n v → Forall (val_fresh n) es).
Proof.
  destruct v as [p|l]; simpl; [apply safe_throw|].
  eapply safe_bind; [apply safe_load|]. intros c Hc.
  destruct c; try apply safe_throw. apply safe_ret.
  intros Hl%val_fresh_ref_inv. by apply cell_fresh_array, Hc.
Qed.

Lemma safe_load_field n v : safe n (load_field v) (λ _, True).
Proof.
  destruct v as [p|l]; simpl; [apply safe_throw|].
  eapply safe_bind; [apply safe_load|]. intros c Hc.
  destruct c; try apply safe_throw. by apply safe_ret.
Qed.

Lemma safe_push n arr v :
  n ≤ arr → val_fresh n v → safe n (push arr v) (λ _, True).
Proof.
  intros Harr Hv. unfold push.
  eapply safe_bind; [apply safe_load_array|]. intros es Hes.
  apply safe_store; [done|]. apply cell_fresh_array, Forall_app. split.
  - by apply Hes, val_fresh_ref.
  - by constructor.
Qed.

Lemma safe_type_of n v : safe n (type_of v) (val_fresh n).
Proof.
  destruct v as [p|l]; simpl.
  - eapply safe_bind; [by apply (safe_of_option _ _ (λ _, True))|].
    intros t _. apply safe_ret, val_fresh_prim.
  - eapply safe_bind; [apply (safe_load_field _ (SRef l))|].
    intros f _. apply safe_ret, val_fresh_prim.
Qed.

Lemma safe_nullable_of n v : safe n (nullable_of v) (val_fresh n).
Proof.
  destruct v as [p|l]; simpl.
  - eapply safe_bind; [by apply (safe_of_option _ _ (λ _, True))|].
    intros t _. apply safe_ret, val_fresh_prim.
  - eapply safe_bind; [apply (safe_load_field _ (SRef l))|].
    intros f _. apply safe_ret, val_fresh_prim.
Qed.

Lemma safe_normalize_element n v : safe n (normalize_element v) (val_fresh n).
Proof.
  destruct v as [p|l]; simpl; [apply safe_throw|].
  eapply safe_bind; [apply safe_load|]. intros c _.
  destruct c; try apply safe_throw.
  eapply safe_bind; [apply safe_alloc; by intros ? ?%elem_of_nil|].
  intros l' Hl'. by apply safe_ret, val_fresh_ref.
Qed.

Lemma safe_normalizeFieldsArray n fields :
  safe n (normalizeFieldsArray fields) (λ arr, n ≤ arr).
Proof.
  unfold normalizeFieldsArray.
  eapply safe_bind with (Q := λ _, True).
  { destruct (to_boolean fields); [by apply safe_ret|].
    eapply safe_bind; [apply safe_alloc; by intros ? ?%elem_of_nil|].
    intros l _. by apply safe_ret. }
  intros arr _. eapply safe_bind; [apply safe_load_array|]. intros es _.
  eapply safe_bind.
  { apply (safe_map_array _ _ _ (λ _, True)); [apply Forall_True|].
    intros v _. apply safe_normalize_element. }
  intros out Hout. apply safe_alloc. by apply cell_fresh_array.
Qed.

Lemma cell_fresh_map_set n own proto k v :
  cell_fresh n (CMap own proto) → n ≤ v →
  cell_fresh n (if String.eqb k "__proto__"
                then CMap own (Some v)
                else CMap (own_set k v own) proto).
Proof.
  unfold cell_fresh. simpl. intros H Hv.
  destruct (String.eqb k "__proto__"); simpl; intros l; rewrite elem_of_app.
  - intros [Hl|Hl%list_elem_of_singleton]; [|by subst].
    apply H. apply elem_of_app. by left.
  - intros [Hl|Hl]; [|apply H, elem_of_app; by right].
    assert (l = v ∨ l ∈ own.*2) as [->|Hown]; [|done|apply H, elem_of_app; by left].
    clear H. induction own as [|[k' v'] own IH]; simpl in *.
    + apply list_elem_of_singleton in Hl. by left.
    + destruct (String.eqb k k'); simpl in Hl;
        apply elem_of_cons in Hl as [->|Hl]; auto.
      * right. by right.
      * right. left.
      * destruct (IH Hl); auto. right. by right.
Qed.

Lemma safe_map_set n map k v :
  n ≤ map → n ≤ v → safe n (map_set map k v) (λ _, True).
Proof.
  intros Hmap Hv. unfold map_set.
  eapply safe_bind; [apply safe_load|]. intros c Hc.
  destruct c; try apply safe_throw.
  apply safe_store; [done|]. apply cell_fresh_map_set; auto.
Qed.

Lemma safe_map_get n map k :
  n ≤ map → safe n (map_get map k) (val_fresh n).
Proof.
  intros Hmap. unfold map_get.
  eapply safe_bind; [apply safe_load|]. intros c Hc.
  destruct c as [| |own proto| | | | | | |]; try apply safe_throw.
  specialize (Hc Hmap). unfold cell_fresh in Hc. simpl in Hc.
  destruct (String.eqb k "__proto__").
  { apply safe_ret. destruct proto as [l|]; [|apply val_fresh_prim].
    apply val_fresh_ref, Hc, elem_of_app. right. simpl. left. }
  destruct (own_lookup k own) as [l|] eqn:E.
  { apply safe_ret, val_fresh_ref, Hc, elem_of_app. left.
    apply own_lookup_Some_elem in E. apply list_elem_of_fmap. by exists (k, l). }
  destruct proto as [l|]; [|apply safe_ret, val_fresh_prim].
  eapply safe_bind; [apply (safe_load_field _ (SRef l))|].
  intros d _. apply safe_ret, val_fresh_prim.
Qed.

Lemma safe_buildFieldMap n fields :
  safe n (buildFieldMap fields) (λ map, n ≤ map).
Proof.
  unfold buildFieldMap.
  eapply safe_bind; [apply safe_alloc; by intros ? ?%elem_of_nil|]. intros map Hmap.
  eapply safe_bind; [apply safe_normalizeFieldsArray|]. intros arr Harr.
  eapply safe_bind; [apply safe_load_array|]. intros es Hes.
  eapply safe_bind.
  { apply (safe_forEach _ _ _ (λ _, True)); [apply Forall_True|]. intros v _.
    eapply safe_bind; [apply safe_load_field|]. intros f _.
    eapply safe_bind; [apply safe_alloc; by intros ? ?%elem_of_nil|]. intros copy Hcopy.
    by apply safe_map_set. }
  intros _ _. by apply safe_ret.
Qed.

Lemma safe_Object_keys n map : safe n (Object_keys map) (λ _, True).
Proof.
  unfold Object_keys. eapply safe_bind; [apply safe_load|]. intros c _.
  destruct c; try apply safe_throw. by apply safe_ret.
Qed.

Lemma safe_fields_of n s : safe n (fields_of s) (λ _, True).
Proof.
  unfold fields_of. eapply safe_bind; [apply safe_load|]. intros c _.
  destruct c; try apply safe_throw. by apply safe_ret.
Qed.

Lemma safe_visit n oldMap newMap added removed changed unchanged nm :
  n ≤ oldMap → n ≤ newMap → n ≤ added → n ≤ removed → n ≤ changed → n ≤ unchanged →
  safe n (visit oldMap newMap added removed changed unchanged nm) (λ _, True).
Proof.
  intros Ho Hn Ha Hr Hc Hu. unfold visit.
  eapply safe_bind; [by apply safe_map_get|]. intros a Hfa.
  eapply safe_bind; [by apply safe_map_get|]. intros b Hfb.
  destruct (negb (to_boolean a) && to_boolean b); [by apply safe_push|].
  destruct (to_boolean a && negb (to_boolean b)); [by apply safe_push|].
  eapply safe_bind; [apply safe_alloc; by intros ? ?%elem_of_nil|]. intros diffs Hd.
  eapply safe_bind; [apply safe_type_of|]. intros ta Hta.
  eapply safe_bind; [apply safe_type_of|]. intros tb Htb.
  eapply safe_bind with (Q := λ _, True).
  { destruct (differs _ _); [|by apply safe_ret].
    apply safe_push; [done|apply val_fresh_prim]. }
  intros _ _.
  eapply safe_bind; [apply safe_nullable_of|]. intros na Hna.
  eapply safe_bind; [apply safe_nullable_of|]. intros nb Hnb.
  eapply safe_bind with (Q := λ _, True).
  { destruct (negb _); [|by apply safe_ret].
    apply safe_push; [done|apply val_fresh_prim]. }
  intros _ _.
  eapply safe_bind; [apply safe_load_array|]. intros ds _.
  destruct ds; [by apply safe_push|].
  eapply safe_bind.
  { apply safe_alloc. intros l. simpl. rewrite elem_of_app. intros [?|?]; auto. }
  intros before Hb.
  eapply safe_bind.
  { apply safe_alloc. intros l. simpl. rewrite elem_of_app. intros [?|?]; auto. }
  intros after Haf.
  eapply safe_bind.
  { apply safe_alloc. intros l. simpl. rewrite !elem_of_cons, elem_of_nil.
    intros [->|[->|[->|?]]]; done. }
  intros entry He. apply safe_push; [done|by apply val_fresh_ref].
Qed.

Lemma safe_diffSchemas n oldSchema newSchema :
  safe n (diffSchemas oldSchema newSchema) (λ diff, n ≤ diff).
Proof.
  unfold diffSchemas.
  eapply safe_bind; [apply safe_fields_of|]. intros fo _.
  eapply safe_bind; [apply safe_buildFieldMap|]. intros oldMap Ho.
  eapply safe_bind; [apply safe_fields_of|]. intros fn _.
  eapply safe_bind; [apply safe_buildFieldMap|]. intros newMap Hn.
  eapply safe_bind; [apply safe_alloc; by intros ? ?%elem_of_nil|]. intros added Ha.
  eapply safe_bind; [apply safe_alloc; by intros ? ?%elem_of_nil|]. intros removed Hr.
  eapply safe_bind; [apply safe_alloc; by intros ? ?%elem_of_nil|]. intros changed Hc.
  eapply safe_bind; [apply safe_alloc; by intros ? ?%elem_of_nil|]. intros unchanged Hu.
  eapply safe_bind; [apply safe_Object_keys|]. intros ko _.
  eapply safe_bind; [apply safe_Object_keys|]. intros kn _.
  eapply safe_bind.
  { apply (safe_forEach _ _ _ (λ _, True)); [apply Forall_True|]. intros nm _.
    by apply safe_visit. }
  intros _ _. apply safe_alloc. intros l. simpl.
  rewrite !elem_of_cons, elem_of_nil. intros [->|[->|[->|[->|?]]]]; done.
Qed.

Lemma safe_no_changes n diff : safe n (no_changes diff) (λ _, True).
Proof.
  unfold no_changes. eapply safe_bind; [apply safe_load|]. intros c _.
  destruct c; try apply safe_throw.
  eapply safe_bind; [apply safe_load_array|]. intros a _.
  eapply safe_bind; [apply safe_load_array|]. intros r _.
  eapply safe_bind; [apply safe_load_array|]. intros ch _.
  by apply safe_ret.
Qed.

Lemma safe_schema_ref n v : safe n (schema_ref v) (λ _, True).
Proof. destruct v; simpl; [apply safe_throw|by apply safe_ret]. Qed.

Lemma safe_stability_loop n prev rest totalChecks stableChecks :
  safe n (stability_loop prev rest totalChecks stableChecks) (λ _, True).
Proof.
  revert prev totalChecks stableChecks.
  induction rest as [|cur rest IH]; intros prev totalChecks stableChecks; simpl.
  - by apply safe_ret.
  - eapply safe_bind; [apply safe_schema_ref|]. intros p _.
    eapply safe_bind; [apply safe_schema_ref|]. intros c _.
    eapply safe_bind; [apply safe_diffSchemas|]. intros diff _.
    eapply safe_bind; [apply safe_no_changes|]. intros stable _.
    apply IH.
Qed.

Lemma safe_computeStability n history :
  safe n (computeStability history) (λ _, True).
Proof.
  unfold computeStability. destruct (negb _); [by apply safe_ret|].
  eapply safe_bind; [apply safe_load_array|]. intros es _.
  destruct es as [|first [|second rest]]; [by apply safe_ret..|].
  eapply safe_bind; [apply safe_stability_loop|]. intros [t s] _.
  by apply safe_of_option.
Qed.

Lemma safe_timeline_fields n schema :
  safe n (timeline_fields schema) (λ _, True).
Proof.
  destruct schema as [p|l]; simpl.
  - destruct (truthy p); [by apply safe_ret|].
    eapply safe_bind; [apply safe_alloc; by intros ? ?%elem_of_nil|].
    intros l _. by apply safe_ret.
  - eapply safe_bind; [apply safe_load|]. intros c _.
    destruct c; try apply safe_throw; by apply safe_ret.
Qed.

Lemma safe_timeline_entry n fieldName s :
  safe n (timeline_entry fieldName s) (val_fresh n).
Proof.
  unfold timeline_entry.
  eapply safe_bind; [apply safe_schema_ref|]. intros l _.
  eapply safe_bind; [apply safe_load|]. intros c _.
  destruct c as [| | | | | | | |schema version id created_at timestamp|];
    try apply safe_throw.
  eapply safe_bind; [apply safe_timeline_fields|]. intros fields _.
  eapply safe_bind; [apply safe_buildFieldMap|]. intros map Hmap.
  eapply safe_bind; [by apply safe_map_get|]. intros f Hf.
  eapply safe_bind with (Q := val_fresh n).
  { destruct f as [[]|]; try apply safe_type_of; apply safe_ret, val_fresh_prim. }
  intros ty Hty.
  eapply safe_bind with (Q := val_fresh n).
  { destruct (to_boolean f); [|apply safe_ret, val_fresh_prim].
    eapply safe_bind; [apply safe_nullable_of|]. intros nl _.
    apply safe_ret, val_fresh_prim. }
  intros nl Hnl.
  eapply safe_bind.
  { apply safe_alloc. intros l'. simpl. rewrite elem_of_app.
    unfold or_else. destruct (to_boolean ty); intros [?|?]; auto.
    by apply elem_of_nil in H. }
  intros e He. by apply safe_ret, val_fresh_ref.
Qed.

Lemma safe_fieldTimeline n fieldName history :
  safe n (fieldTimeline fieldName history) (λ out, n ≤ out).
Proof.
  unfold fieldTimeline.
  eapply safe_bind with (Q := λ _, True).
  { destruct (to_boolean history); [by apply safe_ret|].
    eapply safe_bind; [apply safe_alloc; by intros ? ?%elem_of_nil|].
    intros l _. by apply safe_ret. }
  intros arr _. eapply safe_bind; [apply safe_load_array|]. intros es _.
  eapply safe_bind.
  { apply (safe_map_array _ _ _ (λ _, True)); [apply Forall_True|].
    intros v _. apply safe_timeline_entry. }
  intros out Hout. apply safe_alloc. by apply cell_fresh_array.
Qed.

Lemma closed_length (h : list Cell) : closed (length h) h.
Proof.
  intros l c Hl Hc. apply lookup_lt_Some in Hc. lia.
Qed.

(** What [safe] gives for a whole call: every object of the store the
    call started from is still there, unchanged. *)
Lemma safe_run {A} (m : M A) (Q : A → Prop) (h : list Cell) :
  safe (length h) m Q →
  (∀ l c, h !! l = Some c → (m h).2 !! l = Some c) ∧
  closed (length h) (m h).2 ∧
  (∀ x, (m h).1 = Some x → Q x).
Proof.
  intros Hm. destruct (m h) as [r h'] eqn:Hrun.
  destruct (Hm h r h') as (_ & Hold & Hcl & HQ); [done|apply closed_length|done|].
  split_and!; [|done..]. intros l c Hl. simpl. rewrite Hold; [done|].
  by apply lookup_lt_Some in Hl.
Qed.

End Frame.

(** C6.  Whatever the store and the arguments, and whether the call
    returns or throws, [diffSchemas], [computeStability] and
    [fieldTimeline] leave every object that existed before the call as it
    was: the store after the call begins with the store before it, so
    the schema objects, their field arrays and their descriptors are
    unchanged.  What the calls build is made of new objects only: the
    objects created by the call refer to no earlier object, and the
    returned diff and timeline are new objects. *)
Theorem schema_operations_keep_the_store (h : list Store.Cell) :
  (∀ oldSchema newSchema,
     let out := Store.diffSchemas oldSchema newSchema h in
     take (length h) out.2 = h ∧
     Store.closed (length h) out.2 ∧
     from_option (λ diff, length h ≤ diff) True out.1) ∧
  (∀ history,
     let out := Store.computeStability history h in
     take (length h) out.2 = h ∧ Store.closed (length h) out.2) ∧
  (∀ fieldName history,
     let out := Store.fieldTimeline fieldName history h in
     take (length h) out.2 = h ∧
     Store.closed (length h) out.2 ∧
     from_option (λ timeline, length h ≤ timeline) True out.1).
Proof.
  assert (∀ h' : list Store.Cell,
            (∀ l c, h !! l = Some c → h' !! l = Some c) →
            take (length h) h' = h) as Hprefix.
  { intros h' Hold. apply list_eq. intros i.
    destruct (decide (i < length h)) as [Hi|Hi].
    - rewrite lookup_take_lt by done.
      destruct (lookup_lt_is_Some_2 h i Hi) as [c Hc]. rewrite Hc. by apply Hold.
    - rewrite lookup_take_ge, lookup_ge_None_2 by lia. done. }
  split_and!.
  - intros oldSchema newSchema out.
    destruct (safe_run _ _ h (safe_diffSchemas (length h) oldSchema newSchema))
      as (Hold & Hcl & Hres).
    fold out in Hold, Hcl, Hres. split_and!; [by apply Hprefix|done|].
    destruct out.1; simpl; auto.
  - intros history out.
    destruct (safe_run _ _ h (safe_computeStability (length h) history))
      as (Hold & Hcl & Hres).
    fold out in Hold, Hcl. split; [by apply Hprefix|done].
  - intros fieldName history out.
    destruct (safe_run _ _ h (safe_fieldTimeline (length h) fieldName history))
      as (Hold & Hcl & Hres).
    fold out in Hold, Hcl, Hres. split_and!; [by apply Hprefix|done|].
    destruct out.1; simpl; auto.
Qed.

(** On the store that holds the two schemas of scenario 2, the call
    returns, and the diff it builds reads back as the diff of the
    functional model. *)
Lemma store_diffSchemas_scenario_2 :
  let v1 := [named "id" "string"; named "price" "string"] in
  let v2 := [named "id" "string"; named "price" "decimal"; named "currency" "string"] in
  let '(oldSchema, h1) := Store.put_schema v1 [] in
  let '(newSchema, h2) := Store.put_schema v2 h1 in
  let out := Store.diffSchemas oldSchema newSchema h2 in
  (out.1 ≫= Store.diff_at out.2) = diffSchemas (schema_of v1) (schema_of v2) ∧
  is_Some out.1.
Proof. vm_compute. split; [reflexivity|eauto]. Qed.

(** * The store model computes the functional model *)

Section Refinement.

Import Store.

Lemma wp_ret {A} (x : A) h (Φ : A → list Cell → Prop) : Φ x h → wp (mret x) h Φ.
Proof. done. Qed.

Lemma wp_bind {A B} (m : M A) (k : A → M B) h (Φ : B → list Cell → Prop) :
  wp m h (λ x h', wp (k x) h' Φ) → wp (m ≫= k) h Φ.
Proof.
  unfold wp, mbind, M_bind. by destruct (m h) as [[x|] h'].
Qed.

Lemma wp_mono {A} (m : M A) h (Φ Ψ : A → list Cell → Prop) :
  wp m h Φ → (∀ x h', Φ x h' → Ψ x h') → wp m h Ψ.
Proof. unfold wp. destruct (m h) as [[x|] h']; [auto|done]. Qed.

Lemma wp_alloc c h (Φ : nat → list Cell → Prop) :
  Φ (length h) (h ++ [c]) → wp (alloc c) h Φ.
Proof. done. Qed.

Lemma wp_load l c h (Φ : Cell → list Cell → Prop) :
  h !! l = Some c → Φ c h → wp (load l) h Φ.
Proof. unfold wp, load. by intros ->. Qed.

Lemma wp_store l c h (Φ : unit → list Cell → Prop) :
  l < length h → Φ tt (<[l := c]> h) → wp (store l c) h Φ.
Proof. unfold wp, store. intros Hl. by rewrite decide_True. Qed.

Lemma wp_load_array l es h (Φ : list SVal → list Cell → Prop) :
  h !! l = Some (CArray es) → Φ es h → wp (load_array (SRef l)) h Φ.
Proof. intros Hl HΦ. simpl. apply wp_bind. by eapply wp_load. Qed.

Lemma wp_load_field l f h (Φ : Field → list Cell → Prop) :
  h !! l = Some (CField f) → Φ f h → wp (load_field (SRef l)) h Φ.
Proof. intros Hl HΦ. simpl. apply wp_bind. by eapply wp_load. Qed.

Lemma wp_push l es v h (Φ : unit → list Cell → Prop) :
  h !! l = Some (CArray es) → Φ tt (<[l := CArray (es ++ [v])]> h) →
  wp (push l v) h Φ.
Proof.
  intros Hl HΦ. unfold push. apply wp_bind. eapply wp_load_array; [done|].
  apply wp_store; [|done]. by eapply lookup_lt_Some.
Qed.

(** ** How the store grows *)

Lemma keeps_refl P h : keeps P h h.
Proof. by intros a c _. Qed.

Lemma keeps_trans (P : nat → Prop) h1 h2 h3 :
  keeps P h1 h2 → keeps P h2 h3 → keeps P h1 h3.
Proof. intros H12 H23 a c Ha Hc. by apply H23, H12. Qed.

Lemma keeps_weaken (P Q : nat → Prop) h h' :
  (∀ a, Q a → P a) → keeps P h h' → keeps Q h h'.
Proof. intros HQP H a c Ha. apply H. auto. Qed.

Lemma extends_app h k : extends h (h ++ k).
Proof. intros a c _ Hc. by apply lookup_app_l_Some. Qed.

Lemma keeps_insert (P : nat → Prop) h l c :
  ¬ P l → keeps P h (<[l := c]> h).
Proof.
  intros Hl a c' Ha Hc. rewrite list_lookup_insert_ne; [done|]. by intros ->.
Qed.

Lemma raw_elems_keeps (P : nat → Prop) h h' es l :
  keeps P h h' → (∀ a f, h !! a = Some (CRaw f) → P a) →
  raw_elems h es l → raw_elems h' es l.
Proof.
  intros Hk HP Hes. eapply Forall2_impl; [exact Hes|].
  intros e f (a & -> & Ha). eauto 10.
Qed.

Lemma field_elems_keeps (P : nat → Prop) h h' es l :
  keeps P h h' → (∀ a f, h !! a = Some (CField f) → P a) →
  field_elems h es l → field_elems h' es l.
Proof.
  intros Hk HP Hes. eapply Forall2_impl; [exact Hes|].
  intros e f (a & -> & Ha). eauto 10.
Qed.

Lemma holds_fields_extends h h' v fs :
  extends h h' → holds_fields h v fs → holds_fields h' v fs.
Proof.
  intros Hk. destruct fs as [l|]; simpl; [|done].
  intros (a & es & -> & Ha & Hes). exists a, es. split_and!; [done|by apply Hk|].
  eapply raw_elems_keeps; [exact Hk|intros; exact I|done].
Qed.

Lemma holds_map_keeps (P : nat → Prop) h h' map m :
  keeps P h h' → P map → (∀ a f, h !! a = Some (CField f) → P a) →
  holds_map h map m → holds_map h' map m.
Proof.
  intros Hk Hmap HP (own_refs & proto_ref & Hm & Hown & Hproto).
  exists own_refs, proto_ref. split_and!.
  - by apply Hk.
  - eapply Forall2_impl; [done|]. intros r d [? ?]. eauto.
  - destruct Hproto; constructor. eauto.
Qed.

(** ** [normalizeFieldsArray] and [buildFieldMap] *)

Lemma wp_normalize_elements es l h (Φ : list SVal → list Cell → Prop) :
  raw_elems h es l →
  (∀ out h', extends h h' → field_elems h' out (normalizeField <$> l) → Φ out h') →
  wp (map_array normalize_element es) h Φ.
Proof.
  intros Hes. revert l h Φ Hes. unfold raw_elems.
  induction es as [|e es IH]; intros l h Φ Hes HΦ;
    inversion Hes as [|? f ? l' He Hes']; subst.
  - simpl. apply wp_ret, HΦ; [apply keeps_refl|constructor].
  - destruct He as (a & -> & Ha). simpl. apply wp_bind.
    apply wp_bind. eapply wp_load; [done|]. apply wp_bind, wp_alloc, wp_ret.
    apply wp_bind. apply (IH l').
    { eapply raw_elems_keeps; [apply extends_app|intros; exact I|exact Hes']. }
    intros out h' Hext Hout. apply wp_ret, HΦ.
    + eapply keeps_trans; [apply extends_app|done].
    + csimpl. constructor; [|done]. exists (length h). split; [done|].
      apply Hext; [done|]. by apply list_lookup_middle.
Qed.

Lemma wp_normalizeFieldsArray v fs h (Φ : nat → list Cell → Prop) :
  holds_fields h v fs →
  (∀ arr es h', extends h h' → h' !! arr = Some (CArray es) →
                field_elems h' es (Spec.normalizeFieldsArray fs) → Φ arr h') →
  wp (normalizeFieldsArray v) h Φ.
Proof.
  intros Hv HΦ. unfold normalizeFieldsArray, Spec.normalizeFieldsArray.
  destruct fs as [l|]; simpl in Hv.
  - destruct Hv as (a & es & -> & Ha & Hes). simpl. apply wp_bind, wp_ret.
    apply wp_bind. eapply wp_load_array; [done|].
    apply wp_bind. eapply wp_normalize_elements; [done|].
    intros out h' Hext Hout. apply wp_alloc. apply HΦ with (es := out).
    + eapply keeps_trans; [done|apply extends_app].
    + by apply list_lookup_middle.
    + eapply field_elems_keeps; [apply extends_app|intros; exact I|done].
  - assert (to_boolean v = false) as -> by (by destruct Hv as [-> | ->]).
    apply wp_bind, wp_bind, wp_alloc, wp_ret.
    apply wp_bind. eapply wp_load_array; [by apply list_lookup_middle|].
    simpl. apply wp_bind, wp_ret, wp_alloc. apply HΦ with (es := []).
    + eapply keeps_trans; apply extends_app.
    + by apply list_lookup_middle.
    + constructor.
Qed.

Lemma own_set_Forall2 {V W} (R : string * V → string * W → Prop) k v w l1 l2 :
  (∀ r d, R r d → r.1 = d.1) →
  Forall2 R l1 l2 → R (k, v) (k, w) →
  (∀ k' v' w', R (k', v') (k', w') → k = k' → R (k', v) (k', w)) →
  Forall2 R (own_set k v l1) (own_set k w l2).
Proof.
  intros Hkey Hl HR Hsame. induction Hl as [|[k1 v1] [k2 w2] l1 l2 H12 Hl IH]; simpl.
  - by constructor.
  - pose proof (Hkey _ _ H12) as Hk. simpl in Hk. subst k2.
    destruct (String.eqb_spec k k1) as [->|Hne].
    + constructor; [|done]. by eapply Hsame.
    + by constructor.
Qed.

Lemma keeps_alloc_store map c x h :
  keeps (λ a, a ≠ map) h (<[map := c]> (h ++ [x])).
Proof.
  intros a c' Ha Hc'. rewrite list_lookup_insert_ne by done.
  by apply lookup_app_l_Some.
Qed.

Lemma wp_install (map : nat) es nl m h (Φ : unit → list Cell → Prop) :
  holds_map h map m → field_elems h es nl →
  (∀ h', keeps (λ a, a ≠ map) h h' → holds_map h' map (foldl install m nl) → Φ tt h') →
  wp (forEach (λ v, f ← load_field v;
                    copy ← alloc (CField f);
                    Store.map_set map (name f) copy) es) h Φ.
Proof.
  intros Hm Hes. revert nl m h Φ Hm Hes. unfold field_elems.
  induction es as [|e es IH]; intros nl m h Φ Hm Hes HΦ;
    inversion Hes as [|? f ? nl' He Hes']; subst; simpl.
  - apply wp_ret, HΦ; [apply keeps_refl|done].
  - destruct He as (a & -> & Ha).
    destruct Hm as (own_refs & proto_ref & Hmap & Hown & Hproto).
    assert (map < length h) as Hlt by (by eapply lookup_lt_Some).
    set (cell := if String.eqb (name f) "__proto__"
                 then CMap own_refs (Some (length h))
                 else CMap (own_set (name f) (length h) own_refs) proto_ref).
    set (h2 := <[map := cell]> (h ++ [CField f])).
    assert (keeps (λ a, a ≠ map) h h2) as Hk by apply keeps_alloc_store.
    assert (∀ a' f', h !! a' = Some (CField f') → a' ≠ map) as Hty.
    { intros a' f' Ha' ->. congruence. }
    assert (h2 !! length h = Some (CField f)) as Hcopy.
    { unfold h2. rewrite list_lookup_insert_ne by lia. by apply list_lookup_middle. }
    apply wp_bind, wp_bind. eapply wp_load_field; [done|].
    apply wp_bind, wp_alloc. unfold Store.map_set.
    apply wp_bind. eapply wp_load; [by apply lookup_app_l_Some|].
    apply wp_store; [rewrite length_app; lia|]. fold cell h2.
    apply (IH nl' (install m f)).
    + exists (match cell with CMap o _ => o | _ => [] end),
             (match cell with CMap _ p => p | _ => None end).
      unfold install, Spec.map_set, cell.
      destruct (String.eqb (name f) "__proto__"); simpl.
      * split_and!.
        -- unfold h2, cell. rewrite list_lookup_insert_eq; [done|].
           rewrite length_app. lia.
        -- eapply Forall2_impl; [exact Hown|]. intros r d [? ?]. eauto.
        -- by constructor.
      * split_and!.
        -- unfold h2, cell. rewrite list_lookup_insert_eq; [done|].
           rewrite length_app. lia.
        -- apply own_set_Forall2.
           ++ by intros r d [? _].
           ++ eapply Forall2_impl; [exact Hown|]. intros r d [? ?]. eauto.
           ++ done.
           ++ done.
        -- destruct Hproto; constructor. eauto.
    + eapply Forall2_impl; [exact Hes'|]. intros e' f' (a' & -> & Ha'). eauto 10.
    + intros h' Hk' Hm'. apply HΦ; [|done]. by eapply keeps_trans.
Qed.

Lemma wp_buildFieldMap v fs h (Φ : nat → list Cell → Prop) :
  holds_fields h v fs →
  (∀ map h', extends h h' → holds_map h' map (Spec.buildFieldMap fs) → Φ map h') →
  wp (buildFieldMap v) h Φ.
Proof.
  intros Hv HΦ. unfold buildFieldMap.
  apply wp_bind, wp_alloc.
  apply wp_bind. eapply wp_normalizeFieldsArray.
  { eapply holds_fields_extends; [apply extends_app|done]. }
  intros arr es h2 Hext Harr Hes.
  apply wp_bind. eapply wp_load_array; [done|].
  assert (h2 !! length h = Some (CMap [] None)) as Hmap.
  { apply Hext; [done|]. by apply list_lookup_middle. }
  apply wp_bind. eapply (wp_install (length h) es _ empty_map); [|done|].
  { exists [], None. split_and!; [done|constructor|constructor]. }
  intros h3 Hk Hm3. apply wp_ret, HΦ; [|done].
  intros a c _ Ha. apply Hk.
  - apply lookup_lt_Some in Ha. lia.
  - apply Hext; [done|]. by apply lookup_app_l_Some.
Qed.

(** ** Reads on a field map *)

Lemma value_at_to_boolean h v x : value_at h v = Some x → to_boolean v = truthy x.
Proof.
  destruct v as [p|l]; simpl; [by intros [= ->]|].
  destruct (h !! l) as [[]|]; try done. by intros [= <-].
Qed.

Lemma value_at_ref h l f : h !! l = Some (CField f) → value_at h (SRef l) = Some (VField f).
Proof. simpl. by intros ->. Qed.

Lemma own_lookup_Forall2 {V W} (R : string * V → string * W → Prop) k l1 l2 :
  (∀ r d, R r d → r.1 = d.1) → Forall2 R l1 l2 →
  option_Forall2 (λ v w, R (k, v) (k, w)) (own_lookup k l1) (own_lookup k l2).
Proof.
  intros Hkey Hl. induction Hl as [|[k1 v1] [k2 w2] l1 l2 H12 Hl IH]; simpl.
  - constructor.
  - pose proof (Hkey _ _ H12) as Hk. simpl in Hk. subst k2.
    destruct (String.eqb_spec k k1) as [->|Hne]; [by constructor|done].
Qed.

Lemma holds_map_keys h map m :
  holds_map h map m →
  ∃ own_refs proto_ref, h !! map = Some (CMap own_refs proto_ref) ∧
                        own_refs.*1 = (own m).*1.
Proof.
  intros (own_refs & proto_ref & Hmap & Hown & _). exists own_refs, proto_ref.
  split; [done|]. clear Hmap. revert Hown. generalize (own m). intros l Hown.
  induction Hown as [|r d ? ? [Hk _] _ IH]; csimpl; [done|]. by f_equal.
Qed.

Lemma wp_Object_keys h map m (Φ : list string → list Cell → Prop) :
  holds_map h map m → Φ (Spec.Object_keys m) h → wp (Object_keys map) h Φ.
Proof.
  intros (own_refs & proto_ref & Hmap & Hkeys)%holds_map_keys HΦ.
  unfold Object_keys. apply wp_bind. eapply wp_load; [done|].
  apply wp_ret. unfold Spec.Object_keys in HΦ. by rewrite Hkeys.
Qed.

Lemma wp_map_get h map m k (Φ : SVal → list Cell → Prop) :
  holds_map h map m →
  (∀ v, value_at h v = Some (Spec.map_get m k) → Φ v h) →
  wp (Store.map_get map k) h Φ.
Proof.
  intros (own_refs & proto_ref & Hmap & Hown & Hproto) HΦ.
  unfold Store.map_get, Spec.map_get in *.
  apply wp_bind. eapply wp_load; [done|].
  destruct (String.eqb k "__proto__").
  { apply wp_ret, HΦ. destruct Hproto as [a f Ha|]; [|done]. by apply value_at_ref. }
  pose proof (own_lookup_Forall2 _ k _ _ (λ r d (H : _ ∧ _), proj1 H) Hown) as Hlook.
  destruct Hlook as [a f [_ Ha]|]; simpl in *.
  { apply wp_ret, HΦ. by apply value_at_ref. }
  destruct Hproto as [a f Ha|]; [|by apply wp_ret, HΦ].
  apply wp_bind. eapply wp_load_field; [done|]. by apply wp_ret, HΦ.
Qed.

Lemma wp_type_of h v x t (Φ : SVal → list Cell → Prop) :
  value_at h v = Some x → get_type x = Some t → Φ (SPrim t) h →
  wp (type_of v) h Φ.
Proof.
  destruct v as [p|l]; simpl.
  - intros [= ->] -> HΦ. by apply wp_bind, wp_ret, wp_ret.
  - destruct (h !! l) as [[]|] eqn:E; try done. intros [= <-] [= <-] HΦ.
    apply wp_bind, wp_bind. eapply wp_load; [done|]. by apply wp_ret, wp_ret.
Qed.

Lemma wp_nullable_of h v x t (Φ : SVal → list Cell → Prop) :
  value_at h v = Some x → get_nullable x = Some t → Φ (SPrim t) h →
  wp (nullable_of v) h Φ.
Proof.
  destruct v as [p|l]; simpl.
  - intros [= ->] -> HΦ. by apply wp_bind, wp_ret, wp_ret.
  - destruct (h !! l) as [[]|] eqn:E; try done. intros [= <-] [= <-] HΦ.
    apply wp_bind, wp_bind. eapply wp_load; [done|]. by apply wp_ret, wp_ret.
Qed.

(** ** The four arrays of the diff *)

Lemma value_at_keeps (P : nat → Prop) h h' e x :
  keeps P h h' → (∀ a f, h !! a = Some (CField f) → P a) →
  value_at h e = Some x → value_at h' e = Some x.
Proof.
  intros Hk HP. destruct e as [p|l]; simpl; [done|].
  destruct (h !! l) as [[]|] eqn:E; try done. intros [= <-].
  by rewrite (Hk _ _ (HP _ _ E) E).
Qed.

Lemma changed_rel_keeps (P : nat → Prop) W h h' e x :
  keeps P h h' →
  (∀ a c, h !! a = Some c → a ∉ W ∨ (∀ es, c ≠ CArray es) → P a) →
  changed_rel W h e x → changed_rel W h' e x.
Proof.
  intros Hk HP (l & b & a & d & ds & -> & Hl & Hb & Ha & Hd & Hds & ->).
  exists l, b, a, d, ((λ s, SPrim (VString s)) <$> diffs x).
  split_and!; try done; (eapply Hk; [|done]); eapply HP; try done; auto.
Qed.

Lemma holds_array_keeps {X} (P : nat → Prop) (R R' : SVal → X → Prop) h h' l xs :
  keeps P h h' → P l → (∀ e x, R e x → R' e x) →
  holds_array R h l xs → holds_array R' h' l xs.
Proof.
  intros Hk Hl HR (es & Hes & Hxs). exists es. split; [by apply Hk|].
  eapply Forall2_impl; [done|done].
Qed.

Lemma holds_array_push {X} (R R' : SVal → X → Prop) h l xs v x es :
  h !! l = Some (CArray es) → Forall2 R es xs →
  (∀ e x, R e x → R' e x) → R' v x →
  holds_array R' (<[l := CArray (es ++ [v])]> h) l (xs ++ [x]).
Proof.
  intros Hl Hes HR Hv. exists (es ++ [v]). split.
  - apply list_lookup_insert_eq. by eapply lookup_lt_Some.
  - apply Forall2_app; [|by constructor]. eapply Forall2_impl; [done|done].
Qed.

Lemma wp_push_if (c : bool) d es v h (Φ : unit → list Cell → Prop) :
  h !! d = Some (CArray es) →
  (∀ h', keeps (λ a, a ≠ d) h h' → length h' = length h →
         h' !! d = Some (CArray (es ++ if c then [v] else [])) → Φ tt h') →
  wp (if c then push d v else mret tt) h Φ.
Proof.
  intros Hd HΦ. destruct c.
  - eapply wp_push; [done|]. apply HΦ.
    + apply keeps_insert. intros H. by apply H.
    + apply length_insert.
    + apply list_lookup_insert_eq. by eapply lookup_lt_Some.
  - apply wp_ret, HΦ; [apply keeps_refl|done|by rewrite app_nil_r].
Qed.

Lemma differs_prim x y : differs (SPrim x) (SPrim y) = strict_neq x y.
Proof.
  unfold differs, strict_neq. apply bool_decide_ext. split; [|congruence].
  intros H ->. by apply H.
Qed.

Lemma or_else_prim x y : or_else (SPrim x) (SPrim y) = SPrim (js_or x y).
Proof. unfold or_else, js_or. simpl. by destruct (truthy x). Qed.

Lemma compare_strings ta tb na nb :
  (λ s, SPrim (VString s)) <$> compare ta tb na nb =
  (if strict_neq (js_or ta (VString "")) (js_or tb (VString ""))
   then [SPrim (VString "type")] else []) ++
  (if negb (eqb (truthy na) (truthy nb)) then [SPrim (VString "nullable")] else []).
Proof. unfold compare. rewrite fmap_app. by repeat case_match. Qed.

(** What [holds_lists] says of the locations. *)
Lemma holds_lists_arrays h la lr lc lu acc w :
  holds_lists h la lr lc lu acc → w ∈ [la; lr; lc; lu] →
  ∃ es, h !! w = Some (CArray es).
Proof.
  intros (_ & (ea & Ha & _) & (er & Hr & _) & (ec & Hc & _) & (eu & Hu & _)).
  rewrite !elem_of_cons, elem_of_nil. intros [->|[->|[->|[->|[]]]]]; eauto.
Qed.

(** A push into one of the four arrays, after some allocations. *)
Lemma holds_lists_keeps h h' la lr lc lu acc acc' w es v :
  holds_lists h la lr lc lu acc →
  w ∈ [la; lr; lc; lu] →
  keeps (λ a, a ≠ w) h h' →
  h' !! w = Some (CArray (es ++ [v])) → h !! w = Some (CArray es) →
  (w = la → added acc' = added acc ++ [default VUndefined (value_at h' v)] ∧
            is_Some (value_at h' v)) →
  (w ≠ la → added acc' = added acc) →
  (w = lr → removed acc' = removed acc ++ [default VUndefined (value_at h' v)] ∧
            is_Some (value_at h' v)) →
  (w ≠ lr → removed acc' = removed acc) →
  (w = lc → ∃ x, changed acc' = changed acc ++ [x] ∧
                 changed_rel [la; lr; lc; lu] h' v x) →
  (w ≠ lc → changed acc' = changed acc) →
  (w = lu → unchanged acc' = unchanged acc ++ [default VUndefined (value_at h' v)] ∧
            is_Some (value_at h' v)) →
  (w ≠ lu → unchanged acc' = unchanged acc) →
  holds_lists h' la lr lc lu acc'.
Proof.
  intros Hl Hw Hk Hw' Hwh Ha Ha' Hr Hr' Hc Hc' Hu Hu'.
  pose proof Hl as (HW & Hla & Hlr & Hlc & Hlu).
  assert (∀ a f, h !! a = Some (CField f) → a ≠ w) as Hty.
  { intros a f Haf ->. congruence. }
  assert (∀ e x, value_at h e = Some x → value_at h' e = Some x) as Hval.
  { intros e x. by apply (value_at_keeps _ _ _ _ _ Hk). }
  assert (∀ e x, changed_rel [la; lr; lc; lu] h e x →
                 changed_rel [la; lr; lc; lu] h' e x) as Hch.
  { intros e x. apply (changed_rel_keeps _ _ _ _ _ _ Hk).
    intros a c Hac [Haw|Hnarr] ->; [by apply Haw|]. simplify_eq. by eapply Hnarr. }
  assert (∀ {X} (R R' : SVal → X → Prop) l xs xs' x,
            (∀ e y, R e y → R' e y) →
            holds_array R h l xs →
            (w = l → xs' = xs ++ [x] ∧ R' v x) → (w ≠ l → xs' = xs) →
            holds_array R' h' l xs') as Hone.
  { intros X R R' l xs xs' x HR (es' & Hes' & Hxs) Heq Hne.
    destruct (decide (w = l)) as [<-|Hwl].
    - destruct (Heq eq_refl) as [-> Hv]. exists (es ++ [v]). split; [done|].
      assert (es' = es) as -> by congruence.
      apply Forall2_app; [|by constructor]. eapply Forall2_impl; [done|done].
    - rewrite (Hne Hwl). exists es'. split; [by apply Hk|].
      eapply Forall2_impl; [done|done]. }
  split_and!; [done|..].
  - eapply (Hone _ _ _ _ _ _ (default VUndefined (value_at h' v)) Hval Hla); [|done].
    intros E. destruct (Ha E) as [-> [y Hy]]. by rewrite Hy.
  - eapply (Hone _ _ _ _ _ _ (default VUndefined (value_at h' v)) Hval Hlr); [|done].
    intros E. destruct (Hr E) as [-> [y Hy]]. by rewrite Hy.
  - destruct (decide (w = lc)) as [E|E].
    + destruct (Hc E) as (x & Hx & Hrel).
      eapply (Hone _ _ _ _ _ _ x Hch Hlc); [done|done].
    + eapply (Hone _ _ _ _ _ _ (mkChanged "" (mkSnapshot VNull VNull)
                                   (mkSnapshot VNull VNull) []) Hch Hlc); [done|auto].
  - eapply (Hone _ _ _ _ _ _ (default VUndefined (value_at h' v)) Hval Hlu); [|done].
    intros E. destruct (Hu E) as [-> [y Hy]]. by rewrite Hy.
Qed.

Lemma NoDup_four (la lr lc lu : nat) :
  NoDup [la; lr; lc; lu] →
  la ≠ lr ∧ la ≠ lc ∧ la ≠ lu ∧ lr ≠ lc ∧ lr ≠ lu ∧ lc ≠ lu.
Proof.
  intros HW.
  apply NoDup_cons in HW as [H1 HW]. apply NoDup_cons in HW as [H2 HW].
  apply NoDup_cons in HW as [H3 _].
  rewrite !not_elem_of_cons in *. naive_solver.
Qed.

Lemma holds_maps_keeps h h' w es oldMap newMap mo mn :
  h !! w = Some (CArray es) → keeps (λ a, a ≠ w) h h' →
  holds_map h oldMap mo → holds_map h newMap mn →
  holds_map h' oldMap mo ∧ holds_map h' newMap mn.
Proof.
  intros Hw Hk Hmo Hmn.
  assert (∀ a f, h !! a = Some (CField f) → a ≠ w) as Hty.
  { intros a f Haf ->. congruence. }
  split; (eapply holds_map_keeps; [exact Hk| |exact Hty|done]).
  - destruct Hmo as (? & ? & Hm & _). intros ->. congruence.
  - destruct Hmn as (? & ? & Hm & _). intros ->. congruence.
Qed.

Lemma wp_visit h oldMap newMap la lr lc lu mo mn acc acc' nm
    (Φ : unit → list Cell → Prop) :
  holds_map h oldMap mo → holds_map h newMap mn →
  holds_lists h la lr lc lu acc →
  Spec.visit mo mn acc nm = Some acc' →
  (∀ h', holds_map h' oldMap mo → holds_map h' newMap mn →
         holds_lists h' la lr lc lu acc' → Φ tt h') →
  wp (Store.visit oldMap newMap la lr lc lu nm) h Φ.
Proof.
  intros Hmo Hmn Hl Hv HΦ. unfold Store.visit. unfold Spec.visit in Hv.
  apply wp_bind. eapply wp_map_get; [exact Hmo|]. intros a Ha.
  apply wp_bind. eapply wp_map_get; [exact Hmn|]. intros b Hb.
  rewrite (value_at_to_boolean _ _ _ Ha), (value_at_to_boolean _ _ _ Hb).
  set (a' := Spec.map_get mo nm) in *. set (b' := Spec.map_get mn nm) in *.
  pose proof Hl as (HW & _). apply NoDup_four in HW as (? & ? & ? & ? & ? & ?).
  destruct (negb (truthy a') && truthy b').
  { injection Hv as <-.
    destruct (holds_lists_arrays _ _ _ _ _ _ la Hl) as [es Hes]; [(rewrite !elem_of_cons; auto 6)|].
    assert (keeps (λ x, x ≠ la) h (<[la := CArray (es ++ [b])]> h)) as Hk.
    { apply keeps_insert. intros E. by apply E. }
    assert (value_at (<[la := CArray (es ++ [b])]> h) b = Some b') as Hb'.
    { eapply value_at_keeps; [exact Hk| |done]. intros ? ? ? ->. congruence. }
    eapply wp_push; [done|].
    destruct (holds_maps_keeps _ _ _ _ _ _ _ _ Hes Hk Hmo Hmn) as [? ?].
    apply HΦ; [done..|].
    eapply (holds_lists_keeps _ _ _ _ _ _ _ _ la es b Hl); simpl;
      try done; try (by intros; congruence); [(rewrite !elem_of_cons; auto 6)|..].
    - apply list_lookup_insert_eq. by eapply lookup_lt_Some.
    - intros _. rewrite Hb'. eauto. }
  destruct (truthy a' && negb (truthy b')).
  { injection Hv as <-.
    destruct (holds_lists_arrays _ _ _ _ _ _ lr Hl) as [es Hes]; [(rewrite !elem_of_cons; auto 6)|].
    assert (keeps (λ x, x ≠ lr) h (<[lr := CArray (es ++ [a])]> h)) as Hk.
    { apply keeps_insert. intros E. by apply E. }
    assert (value_at (<[lr := CArray (es ++ [a])]> h) a = Some a') as Ha''.
    { eapply value_at_keeps; [exact Hk| |done]. intros ? ? ? ->. congruence. }
    eapply wp_push; [done|].
    destruct (holds_maps_keeps _ _ _ _ _ _ _ _ Hes Hk Hmo Hmn) as [? ?].
    apply HΦ; [done..|].
    eapply (holds_lists_keeps _ _ _ _ _ _ _ _ lr es a Hl); simpl;
      try done; try (by intros; congruence); [(rewrite !elem_of_cons; auto 6)|..].
    - apply list_lookup_insert_eq. by eapply lookup_lt_Some.
    - intros _. rewrite Ha''. eauto. }
  destruct (get_type a') as [ta|] eqn:Eta; [|done].
  destruct (get_type b') as [tb|] eqn:Etb; [|done].
  destruct (get_nullable a') as [na|] eqn:Ena; [|done].
  destruct (get_nullable b') as [nb|] eqn:Enb; [|done].
  simpl in Hv.
  (* the [diffs] array *)
  apply wp_bind, wp_alloc. set (d := length h). set (h1 := h ++ [CArray []]).
  assert (extends h h1) as E1 by apply extends_app.
  assert (h1 !! d = Some (CArray [])) as Hd1 by (by apply list_lookup_middle).
  assert (∀ hx v x, keeps (λ y, y ≠ d) h1 hx →
            value_at h v = Some x → value_at hx v = Some x) as Hvals.
  { intros hx v x Hk Hvx. eapply value_at_keeps; [exact Hk| |].
    - intros ? ? ? ->. congruence.
    - eapply value_at_keeps; [exact E1|done|done]. }
  apply wp_bind. eapply wp_type_of; [|exact Eta|].
  { apply (Hvals h1); [apply keeps_refl|done]. }
  apply wp_bind. eapply wp_type_of; [|exact Etb|].
  { apply (Hvals h1); [apply keeps_refl|done]. }
  rewrite !or_else_prim, differs_prim.
  apply wp_bind. eapply wp_push_if; [exact Hd1|]. intros h2 K2 L2 Hd2.
  apply wp_bind. eapply wp_nullable_of; [|exact Ena|].
  { by apply (Hvals h2). }
  apply wp_bind. eapply wp_nullable_of; [|exact Enb|].
  { by apply (Hvals h2). }
  apply wp_bind. eapply wp_push_if; [exact Hd2|]. intros h3 K3 L3 Hd3.
  pose proof (keeps_trans _ _ _ _ K2 K3) as K13.
  simpl in Hd3. rewrite <- compare_strings in Hd3.
  apply wp_bind. eapply wp_load_array; [exact Hd3|].
  assert (extends h h3) as E3.
  { intros x c _ Hx. apply K13; [|by apply E1].
    apply lookup_lt_Some in Hx. unfold d. lia. }
  assert (length h3 = S (length h)) as L3'.
  { rewrite L3, L2. unfold h1. rewrite length_app. simpl. lia. }
  destruct (compare ta tb na nb) as [|s ds] eqn:Ecmp; simpl.
  { (* unchanged *)
    injection Hv as <-.
    destruct (holds_lists_arrays _ _ _ _ _ _ lu Hl) as [es Hes]; [(rewrite !elem_of_cons; auto 6)|].
    assert (keeps (λ x, x ≠ lu) h (<[lu := CArray (es ++ [b])]> h3)) as Hk.
    { eapply keeps_trans; [eapply keeps_weaken; [|exact E3]; done|].
      apply keeps_insert. intros E. by apply E. }
    assert (value_at (<[lu := CArray (es ++ [b])]> h3) b = Some b') as Hb'.
    { eapply value_at_keeps; [exact Hk| |done]. intros ? ? ? ->. congruence. }
    eapply wp_push; [by apply E3|].
    destruct (holds_maps_keeps _ _ _ _ _ _ _ _ Hes Hk Hmo Hmn) as [? ?].
    apply HΦ; [done..|].
    eapply (holds_lists_keeps _ _ _ _ _ _ _ _ lu es b Hl); simpl;
      try done; try (by intros; congruence); [(rewrite !elem_of_cons; auto 6)|..].
    - apply list_lookup_insert_eq. apply lookup_lt_Some in Hes. lia.
    - intros _. rewrite Hb'. eauto. }
  (* changed *)
  injection Hv as <-.
  destruct (holds_lists_arrays _ _ _ _ _ _ lc Hl) as [es Hes]; [(rewrite !elem_of_cons; auto 6)|].
  apply wp_bind, wp_alloc. apply wp_bind, wp_alloc. apply wp_bind, wp_alloc.
  set (h4 := h3 ++ [CSnapshot (SPrim ta) (SPrim na)]).
  set (h5 := h4 ++ [CSnapshot (SPrim tb) (SPrim nb)]).
  set (h6 := h5 ++ [CChanged nm (length h3) (length h4) d]).
  assert (extends h3 h6) as E36.
  { eapply keeps_trans; [|apply extends_app].
    eapply keeps_trans; apply extends_app. }
  assert (extends h h6) as E6 by (by eapply keeps_trans).
  assert (lc < length h) as Hlc by (by eapply lookup_lt_Some).
  set (h7 := <[lc := CArray (es ++ [SRef (length h5)])]> h6).
  assert (keeps (λ x, x ≠ lc) h h7) as Hk.
  { eapply keeps_trans; [eapply keeps_weaken; [|exact E6]; done|].
    apply keeps_insert. intros E. by apply E. }
  eapply wp_push; [by apply E6|]. fold h7.
  destruct (holds_maps_keeps _ _ _ _ _ _ _ _ Hes Hk Hmo Hmn) as [? ?].
  apply HΦ; [done..|].
  assert (length h4 = S (length h3)) as L4 by (unfold h4; rewrite length_app; simpl; lia).
  assert (length h5 = S (length h4)) as L5 by (unfold h5; rewrite length_app; simpl; lia).
  assert (length h6 = S (length h5)) as L6 by (unfold h6; rewrite length_app; simpl; lia).
  eapply (holds_lists_keeps _ _ _ _ _ _ _ _ lc es (SRef (length h5)) Hl); simpl;
    try done; try (by intros; congruence); [(rewrite !elem_of_cons; auto 6)|..].
  - unfold h7. apply list_lookup_insert_eq. lia.
  - intros _. eexists. split; [done|].
    exists (length h5), (length h3), (length h4), d, ((λ s, SPrim (VString s)) <$> s :: ds).
    simpl. unfold h7. split_and!; try done.
    + rewrite list_lookup_insert_ne by lia. unfold h6. by apply list_lookup_middle.
    + rewrite list_lookup_insert_ne by lia. unfold h6, h5, h4.
      rewrite <- !app_assoc. by apply list_lookup_middle.
    + rewrite list_lookup_insert_ne by lia. unfold h6, h5.
      rewrite <- !app_assoc. by apply list_lookup_middle.
    + intros Hd. destruct (holds_lists_arrays _ _ _ _ _ _ d Hl Hd) as [? Hx].
      apply lookup_lt_Some in Hx. unfold d in Hx. lia.
    + rewrite list_lookup_insert_ne by (unfold d; lia). by apply E36.
Qed.

Lemma wp_visit_loop names h oldMap newMap la lr lc lu mo mn acc acc'
    (Φ : unit → list Cell → Prop) :
  holds_map h oldMap mo → holds_map h newMap mn →
  holds_lists h la lr lc lu acc →
  Spec.forEach (Spec.visit mo mn) names acc = Some acc' →
  (∀ h', holds_lists h' la lr lc lu acc' → Φ tt h') →
  wp (forEach (Store.visit oldMap newMap la lr lc lu) names) h Φ.
Proof.
  revert h acc. induction names as [|nm names IH]; intros h acc Hmo Hmn Hl Hrun HΦ;
    simpl in *.
  - injection Hrun as <-. by apply wp_ret, HΦ.
  - destruct (Spec.visit mo mn acc nm) as [acc1|] eqn:Hv; [|done]. simpl in Hrun.
    apply wp_bind. eapply wp_visit; [exact Hmo|exact Hmn|exact Hl|exact Hv|].
    intros h1 Hmo1 Hmn1 Hl1. by eapply IH.
Qed.

Lemma changed_rel_at W h e x : changed_rel W h e x → changed_at h e = Some x.
Proof.
  intros (l & b & a & d & ds & -> & Hl & Hb & Ha & _ & Hd & ->).
  unfold changed_at, snapshot_at, array_at. rewrite Hl, Hb, Ha, Hd. simpl.
  assert (mapM string_at ((λ s, SPrim (VString s)) <$> diffs x) = Some (diffs x)) as ->.
  { apply mapM_Some. apply Forall2_fmap_l, Forall_Forall2_diag, Forall_forall. done. }
  simpl. by destruct x as [? [] [] ?].
Qed.

Lemma holds_array_at {X} (R : SVal → X → Prop) (f : SVal → option X) h l xs :
  (∀ e x, R e x → f e = Some x) →
  holds_array R h l xs → array_at h l ≫= mapM f = Some xs.
Proof.
  intros HR (es & Hl & Hes). unfold array_at. rewrite Hl. simpl.
  apply mapM_Some. eapply Forall2_impl; [done|done].
Qed.

Lemma holds_lists_diff_at h la lr lc lu acc :
  holds_lists h la lr lc lu acc →
  diff_at (h ++ [CDiff la lr lc lu]) (length h) = Some acc.
Proof.
  intros Hl.
  assert (holds_lists (h ++ [CDiff la lr lc lu]) la lr lc lu acc)
    as (_ & Ha & Hr & Hc & Hu).
  { pose proof (extends_app h [CDiff la lr lc lu]) as Hext.
    destruct Hl as (HW & Ha & Hr & Hc & Hu).
    assert (∀ e x, value_at h e = Some x →
                   value_at (h ++ [CDiff la lr lc lu]) e = Some x) as Hval.
    { intros e x. by apply (value_at_keeps _ _ _ _ _ Hext). }
    split_and!; [done|..];
      (eapply holds_array_keeps; [exact Hext|done| |done]); try done.
    intros e x. by apply (changed_rel_keeps _ _ _ _ _ _ Hext). }
  unfold diff_at. rewrite list_lookup_middle by done.
  rewrite (holds_array_at _ _ _ _ _ (λ e x H, H) Ha).
  rewrite (holds_array_at _ _ _ _ _ (λ e x H, H) Hr).
  rewrite (holds_array_at _ _ _ _ _ (changed_rel_at _ _) Hc).
  rewrite (holds_array_at _ _ _ _ _ (λ e x H, H) Hu).
  simpl. by destruct acc.
Qed.

Lemma wp_fields_of h s sch (Φ : SVal → list Cell → Prop) :
  holds_schema h s sch →
  (∀ v, holds_fields h v (fields sch) → Φ v h) →
  wp (fields_of s) h Φ.
Proof.
  intros (v & Hs & Hv) HΦ. unfold fields_of. apply wp_bind.
  eapply wp_load; [done|]. by apply wp_ret, HΦ.
Qed.

Lemma holds_schema_extends h h' s sch :
  extends h h' → holds_schema h s sch → holds_schema h' s sch.
Proof.
  intros Hext (v & Hs & Hv). exists v. split; [by apply Hext|].
  by eapply holds_fields_extends.
Qed.

Lemma wp_diffSchemas h oldSchema newSchema old_sch new_sch
    (Φ : nat → list Cell → Prop) :
  holds_schema h oldSchema old_sch → holds_schema h newSchema new_sch →
  (∀ diff h' d, Spec.diffSchemas old_sch new_sch = Some d →
                diff_at h' diff = Some d → Φ diff h') →
  wp (Store.diffSchemas oldSchema newSchema) h Φ.
Proof.
  intros Hold Hnew HΦ. unfold Store.diffSchemas.
  destruct (diffSchemas_total old_sch new_sch) as [d Hd].
  pose proof Hd as Hrun. unfold Spec.diffSchemas in Hrun.
  set (mo := Spec.buildFieldMap (fields old_sch)) in *.
  set (mn := Spec.buildFieldMap (fields new_sch)) in *.
  apply wp_bind. eapply wp_fields_of; [exact Hold|]. intros fo Hfo.
  apply wp_bind. eapply wp_buildFieldMap; [exact Hfo|]. intros oldMap h1 E1 Hmo.
  apply wp_bind. eapply wp_fields_of; [by eapply holds_schema_extends|]. intros fn Hfn.
  apply wp_bind. eapply wp_buildFieldMap; [exact Hfn|]. intros newMap h2 E2 Hmn.
  assert (holds_map h2 oldMap mo) as Hmo2.
  { eapply holds_map_keeps; [exact E2|done|done|done]. }
  do 4 (apply wp_bind, wp_alloc).
  set (la := length h2). set (h3 := h2 ++ [CArray []]).
  set (lr := length h3). set (h4 := h3 ++ [CArray []]).
  set (lc := length h4). set (h5 := h4 ++ [CArray []]).
  set (lu := length h5). set (h6 := h5 ++ [CArray []]).
  assert (lr = S la) as Hlr by (unfold lr, h3; rewrite length_app; simpl; lia).
  assert (lc = S lr) as Hlc by (unfold lc, h4; rewrite length_app; simpl; lia).
  assert (lu = S lc) as Hlu by (unfold lu, h5; rewrite length_app; simpl; lia).
  assert (extends h2 h6) as E6.
  { eapply keeps_trans; [|apply extends_app].
    eapply keeps_trans; [|apply extends_app].
    eapply keeps_trans; apply extends_app. }
  assert (holds_map h6 oldMap mo) as Hmo6.
  { eapply holds_map_keeps; [exact E6|done|done|done]. }
  assert (holds_map h6 newMap mn) as Hmn6.
  { eapply holds_map_keeps; [exact E6|done|done|done]. }
  apply wp_bind. eapply wp_Object_keys; [exact Hmo6|].
  apply wp_bind. eapply wp_Object_keys; [exact Hmn6|].
  apply wp_bind. eapply wp_visit_loop; [exact Hmo6|exact Hmn6| |exact Hrun|].
  { split_and!.
    - repeat (apply NoDup_cons; split; [rewrite ?elem_of_cons, elem_of_nil; lia|]).
      apply NoDup_nil_2.
    - exists []. split; [|constructor]. unfold h6, h5, h4, h3, la.
      rewrite <- !app_assoc. by apply list_lookup_middle.
    - exists []. split; [|constructor]. unfold h6, h5, h4, lr.
      rewrite <- !app_assoc. by apply list_lookup_middle.
    - exists []. split; [|constructor]. unfold h6, h5, lc.
      rewrite <- !app_assoc. by apply list_lookup_middle.
    - exists []. split; [|constructor]. unfold h6, lu. by apply list_lookup_middle. }
  intros h7 Hl7. apply wp_alloc. eapply HΦ; [exact Hd|].
  by apply holds_lists_diff_at.
Qed.

(** ** [computeStability] *)

Lemma wp_run {A} (m : M A) h (Φ : A → list Cell → Prop) :
  wp m h Φ ↔ ∃ x h', m h = (Some x, h') ∧ Φ x h'.
Proof.
  unfold wp. destruct (m h) as [[x|] h']; split.
  - by exists x, h'.
  - by intros (? & ? & [= <- <-] & ?).
  - done.
  - by intros (? & ? & [=] & ?).
Qed.

(** A call that returns has kept the store it started from. *)
Lemma wp_frame {A} (m : M A) h (Φ Q : A → list Cell → Prop) (R : A → Prop) :
  safe (length h) m R → wp m h Φ → wp m h (λ x h', Φ x h' ∧ extends h h').
Proof.
  intros Hsafe. unfold wp. destruct (m h) as [[x|] h'] eqn:E; [|done].
  intros HΦ. split; [done|].
  destruct (Hsafe h (Some x) h') as (_ & Hold & _); [done|apply closed_length|done|].
  intros a c _ Ha. rewrite Hold; [done|]. by eapply lookup_lt_Some.
Qed.

Lemma diff_at_no_changes h diff d (Φ : bool → list Cell → Prop) :
  diff_at h diff = Some d → Φ (Spec.no_changes d) h → wp (no_changes diff) h Φ.
Proof.
  unfold diff_at, no_changes, Spec.no_changes.
  destruct (h !! diff) as [[| | | | | | |la lr lc lu| |]|] eqn:E; try done.
  unfold array_at.
  destruct (h !! la) as [[| | |ea| | | | | |]|] eqn:Ea; try done. simpl.
  destruct (mapM (value_at h) ea) as [xa|] eqn:Ha; [|done]. simpl.
  destruct (h !! lr) as [[| | |er| | | | | |]|] eqn:Er; try done. simpl.
  destruct (mapM (value_at h) er) as [xr|] eqn:Hr; [|done]. simpl.
  destruct (h !! lc) as [[| | |ec| | | | | |]|] eqn:Ec; try done. simpl.
  destruct (mapM (changed_at h) ec) as [xc|] eqn:Hc; [|done]. simpl.
  destruct (h !! lu) as [[| | |eu| | | | | |]|] eqn:Eu; try done. simpl.
  destruct (mapM (value_at h) eu) as [xu|] eqn:Hu; [|done]. simpl.
  intros [= <-]. simpl.
  rewrite <- (length_mapM _ _ _ Ha), <- (length_mapM _ _ _ Hr), <- (length_mapM _ _ _ Hc).
  intros HΦ. apply wp_bind. eapply wp_load; [done|].
  apply wp_bind. eapply wp_load_array; [done|].
  apply wp_bind. eapply wp_load_array; [done|].
  apply wp_bind. eapply wp_load_array; [done|]. by apply wp_ret.
Qed.

Lemma schema_elem_extends h h' e sch :
  extends h h' → schema_elem h e sch → schema_elem h' e sch.
Proof. intros Hext (l & -> & Hl). exists l. split; [done|]. by eapply holds_schema_extends. Qed.

Lemma wp_stability_loop rest_refs rest prev_ref prev h totalChecks stableChecks
    (Φ : N * N → list Cell → Prop) :
  schema_elem h prev_ref prev → Forall2 (schema_elem h) rest_refs rest →
  (∀ h', Φ ((totalChecks + N.of_nat (length rest))%N,
            (stableChecks + N.of_nat (stable_pairs prev rest))%N) h') →
  wp (Store.stability_loop prev_ref rest_refs totalChecks stableChecks) h Φ.
Proof.
  revert rest prev_ref prev h totalChecks stableChecks Φ.
  induction rest_refs as [|cur_ref rest_refs IH];
    intros rest0 prev_ref prev h totalChecks stableChecks Φ Hprev Hrest0 HΦ;
    inversion Hrest0 as [|? cur ? rest Hcur Hrest]; subst; simpl.
  - apply wp_ret. specialize (HΦ h). simpl in HΦ. by rewrite !N.add_0_r in HΦ.
  - destruct Hprev as (p & -> & Hp). pose proof Hcur as (c & -> & Hc). simpl.
    apply wp_bind, wp_ret, wp_bind, wp_ret, wp_bind.
    eapply wp_mono.
    { eapply wp_frame; [exact (λ _ _, True)|apply safe_diffSchemas|].
      eapply (wp_diffSchemas h p c prev cur
                (λ diff h', ∃ d, Spec.diffSchemas prev cur = Some d ∧
                                 diff_at h' diff = Some d) Hp Hc).
      intros diff h' d Hd Hat. by exists d. }
    intros diff h' [(d & Hd & Hat) Hext]. simpl.
    apply wp_bind. eapply diff_at_no_changes; [exact Hat|].
    eapply (IH rest (SRef c) cur).
    + eapply schema_elem_extends; [exact Hext|done].
    + eapply Forall2_impl; [exact Hrest|]. intros e s. by apply schema_elem_extends.
    + intros h''. specialize (HΦ h''). cbn [stable_pairs length] in HΦ.
      unfold stable_pair in HΦ. rewrite Hd in HΦ. cbn [from_option] in HΦ.
      replace (totalChecks + 1 + N.of_nat (length rest))%N
        with (totalChecks + N.of_nat (S (length rest)))%N by lia.
      replace ((if Spec.no_changes d then stableChecks + 1 else stableChecks) +
               N.of_nat (stable_pairs cur rest))%N
        with (stableChecks +
              N.of_nat ((if Spec.no_changes d then 1 else 0) + stable_pairs cur rest))%N
        by (destruct (Spec.no_changes d); lia).
      exact HΦ.
Qed.

(** ** [fieldTimeline] *)

Lemma holds_schema_prop_extends h h' v p :
  extends h h' → holds_schema_prop h v p → holds_schema_prop h' v p.
Proof.
  intros Hext. destruct p as [|o|fs]; simpl; [done| |].
  - intros (l & -> & Hl). exists l. split; [done|]. by eapply holds_schema_extends.
  - by apply (holds_fields_extends _ _ _ (Some fs)).
Qed.

Lemma version_elem_extends h h' e s :
  extends h h' → version_elem h e s → version_elem h' e s.
Proof.
  intros Hext (l & sv & -> & Hl & Hsv). exists l, sv.
  split_and!; [done|by apply Hext|by eapply holds_schema_prop_extends].
Qed.

Lemma wp_timeline_fields h sv s l (Φ : SVal → list Cell → Prop) :
  holds_schema_prop h sv (schema s) → version_fields s = Some l →
  (∀ fv h', extends h h' → holds_fields h' fv (Some l) → Φ fv h') →
  wp (timeline_fields sv) h Φ.
Proof.
  unfold version_fields. destruct (schema s) as [|o|fs]; simpl.
  - intros Hsv [= <-] HΦ.
    assert (∃ p, sv = SPrim p ∧ truthy p = false) as (p & -> & Hp).
    { destruct Hsv as [-> | ->]; eauto. }
    simpl. rewrite Hp. apply wp_bind, wp_alloc, wp_ret. apply HΦ; [apply extends_app|].
    exists (length h), []. split_and!; [done|by apply list_lookup_middle|constructor].
  - intros (ls & -> & fv & Hls & Hfv) Ho HΦ. rewrite Ho in Hfv. simpl.
    apply wp_bind. eapply wp_load; [done|].
    pose proof Hfv as (a & es & -> & _). apply wp_ret. unfold or_else. simpl.
    apply HΦ; [apply keeps_refl|done].
  - intros Hsv [= <-] HΦ. pose proof Hsv as (a & es & -> & Ha & _). simpl.
    apply wp_bind. eapply wp_load; [done|]. apply wp_ret.
    apply HΦ; [apply keeps_refl|done].
Qed.

Lemma timeline_map_fields s :
  Spec.timeline_map s = (λ l, Spec.buildFieldMap (Some l)) <$> version_fields s.
Proof.
  unfold Spec.timeline_map, version_fields.
  destruct (schema s) as [|o|fs]; [done| |done]. by destruct (fields o).
Qed.

Lemma wp_timeline_entry fieldName h e s x (Φ : SVal → list Cell → Prop) :
  version_elem h e s → Spec.timeline_entry fieldName s = Some x →
  (∀ r h', extends h h' → entry_at h' r = Some x → Φ r h') →
  wp (Store.timeline_entry fieldName e) h Φ.
Proof.
  intros (l & sv & -> & Hl & Hsv) Hx HΦ.
  unfold Spec.timeline_entry in Hx. rewrite timeline_map_fields in Hx.
  destruct (version_fields s) as [fs|] eqn:Hfs; [|done]. simpl in Hx.
  injection Hx as <-.
  unfold Store.timeline_entry. simpl. apply wp_bind, wp_ret.
  apply wp_bind. eapply wp_load; [done|].
  apply wp_bind. eapply wp_timeline_fields; [exact Hsv|exact Hfs|].
  intros fv h1 E1 Hfv.
  apply wp_bind. eapply wp_buildFieldMap; [exact Hfv|]. intros map h2 E2 Hmap.
  apply wp_bind. eapply wp_map_get; [exact Hmap|]. intros f Hf.
  set (f' := Spec.map_get (Spec.buildFieldMap (Some fs)) fieldName) in *.
  pose proof (value_at_to_boolean _ _ _ Hf) as Hbool.
  apply wp_bind.
  eapply (wp_mono _ _ (λ ty h', ty = SPrim (optional_type f') ∧ h' = h2)).
  { unfold optional_type.
    destruct f as [p|a]; simpl in Hf.
    - injection Hf as <-.
      destruct p; simpl; try (by apply wp_ret); by apply wp_bind, wp_ret, wp_ret.
    - destruct (h2 !! a) as [[]|] eqn:Ea; try done. injection Hf as Hf.
      rewrite <- Hf. simpl. apply wp_bind, wp_bind. eapply wp_load; [done|].
      by apply wp_ret, wp_ret. }
  intros ty h' [-> ->].
  apply wp_bind.
  eapply (wp_mono _ _ (λ nl h',
            nl = SPrim (if truthy f'
                        then VBool (truthy (default VUndefined (get_nullable f')))
                        else VNull) ∧ h' = h2)).
  { rewrite Hbool. destruct (truthy f') eqn:Et; [|by apply wp_ret].
    destruct (truthy_get_nullable _ Et) as [n Hn]. rewrite Hn. simpl.
    apply wp_bind. eapply wp_nullable_of; [exact Hf|exact Hn|]. by apply wp_ret. }
  intros nl h' [-> ->].
  apply wp_bind, wp_alloc, wp_ret. apply HΦ.
  - eapply keeps_trans; [exact E1|]. eapply keeps_trans; [exact E2|apply extends_app].
  - simpl. rewrite list_lookup_middle by done. rewrite or_else_prim. simpl.
    by rewrite Hbool.
Qed.

Lemma entry_at_extends h h' e x :
  extends h h' → entry_at h e = Some x → entry_at h' e = Some x.
Proof.
  intros Hext. destruct e as [p|l]; simpl; [done|].
  destruct (h !! l) as [c|] eqn:E; [|done]. by rewrite (Hext _ _ I E).
Qed.

Lemma wp_timeline_entries fieldName es l xs h (Φ : list SVal → list Cell → Prop) :
  Forall2 (version_elem h) es l →
  mapM (Spec.timeline_entry fieldName) l = Some xs →
  (∀ out h', Forall2 (λ e x, entry_at h' e = Some x) out xs → Φ out h') →
  wp (map_array (Store.timeline_entry fieldName) es) h Φ.
Proof.
  revert l xs h Φ. induction es as [|e es IH]; intros l xs h Φ Hes Hxs HΦ;
    inversion Hes as [|? s ? l' He Hes']; subst; simpl in *.
  - injection Hxs as <-. apply wp_ret, HΦ. constructor.
  - destruct (Spec.timeline_entry fieldName s) as [x|] eqn:Hx; [|done].
    simpl in Hxs. destruct (mapM _ l') as [xs'|] eqn:Hxs'; [|done].
    injection Hxs as <-.
    apply wp_bind. eapply wp_timeline_entry; [exact He|exact Hx|].
    intros r h1 E1 Hr.
    apply wp_bind.
    eapply wp_mono.
    { eapply wp_frame; [exact (λ _ _, True)| |].
      - apply (safe_map_array _ _ _ (λ _, True)); [apply Forall_True|].
        intros v _. apply safe_timeline_entry.
      - eapply (IH l' xs' h1 (λ out h', Forall2 (λ e x, entry_at h' e = Some x) out xs')).
        + eapply Forall2_impl; [exact Hes'|]. intros ? ?. by apply version_elem_extends.
        + done.
        + done. }
    intros out h2 [Hout E2]. apply wp_ret, HΦ. constructor; [|done].
    by eapply entry_at_extends.
Qed.

Lemma wp_fieldTimeline fieldName h v hist entries :
  holds_versions h v hist →
  Spec.fieldTimeline fieldName hist = Some entries →
  wp (Store.fieldTimeline fieldName v) h
     (λ out h', timeline_at h' out = Some entries).
Proof.
  intros Hv Hentries. unfold Store.fieldTimeline, Spec.fieldTimeline in *.
  assert (∀ out h', Forall2 (λ e x, entry_at h' e = Some x) out entries →
            timeline_at (h' ++ [CArray out]) (length h') = Some entries) as Hat.
  { intros out h' Hout. unfold timeline_at, array_at.
    rewrite list_lookup_middle by done. simpl. apply mapM_Some.
    eapply Forall2_impl; [exact Hout|]. intros e x.
    apply entry_at_extends, extends_app. }
  destruct hist as [l|]; simpl in *.
  - destruct Hv as (a & es & -> & Ha & Hes). simpl.
    apply wp_bind, wp_ret. apply wp_bind. eapply wp_load_array; [done|].
    apply wp_bind. eapply wp_timeline_entries; [exact Hes|exact Hentries|].
    intros out h' Hout. apply wp_alloc. by apply Hat.
  - injection Hentries as <-.
    assert (to_boolean v = false) as -> by (by destruct Hv as [-> | ->]).
    apply wp_bind, wp_bind, wp_alloc, wp_ret.
    apply wp_bind. eapply wp_load_array; [by apply list_lookup_middle|].
    simpl. apply wp_bind, wp_ret, wp_alloc. apply Hat. constructor.
Qed.

End Refinement.

(** On a store that holds the history, a timeline that the functional
    model returns is returned by [fieldTimeline] as a new array that
    reads back as that timeline. *)
Theorem store_fieldTimeline_refines (h : list Store.Cell) (fieldName : string)
    (v : Store.SVal) (hist : option (list Version)) (entries : list TimelineEntry) :
  Store.holds_versions h v hist →
  fieldTimeline fieldName hist = Some entries →
  ∃ out h',
    Store.fieldTimeline fieldName v h = (Some out, h') ∧
    Store.timeline_at h' out = Some entries.
Proof. intros Hv Hentries. by apply wp_run, (wp_fieldTimeline _ _ _ hist). Qed.

(** * Further properties of the schema utilities *)

(** ** List and map facts *)

Lemma omap_mapM {A B C} (f : A → option B) (g : B → option C) l vs :
  mapM f l = Some vs → omap g vs = omap (λ x, f x ≫= g) l.
Proof.
  rewrite mapM_Some. induction 1 as [|x y l k Hxy _ IH]; [done|].
  csimpl. rewrite Hxy. csimpl. by rewrite IH.
Qed.

Lemma filter_all {A} (P : A → Prop) `{!∀ x, Decision (P x)} (l : list A) :
  (∀ x, x ∈ l → P x) → filter P l = l.
Proof.
  induction l as [|x l IH]; intros Hl; [done|].
  rewrite filter_cons_True by (apply Hl; left).
  f_equal. apply IH. intros y Hy. apply Hl. by right.
Qed.

Lemma omap_pointwise {A B} (f g : A → option B) (l : list A) :
  (∀ x, f x = g x) → omap f l = omap g l.
Proof.
  intros Hfg. apply list_omap_ext. induction l; constructor; auto.
Qed.

Lemma filter_none {A} (P : A → Prop) `{!∀ x, Decision (P x)} (l : list A) :
  (∀ x, x ∈ l → ¬ P x) → filter P l = [].
Proof.
  induction l as [|x l IH]; intros Hl; [done|].
  rewrite filter_cons_False by (apply Hl; left).
  apply IH. intros y Hy. apply Hl. by right.
Qed.

Lemma uniq_app (l1 l2 : list string) :
  uniq (l1 ++ l2) = uniq l1 ++ filter (λ y, y ∉ l1) (uniq l2).
Proof.
  induction l1 as [|x l1 IH]; simpl.
  - symmetry. apply filter_all. intros y _. apply not_elem_of_nil.
  - f_equal. rewrite IH, filter_app. f_equal.
    rewrite list_filter_filter. apply list_filter_iff.
    intros y. rewrite not_elem_of_cons. tauto.
Qed.

Lemma omap_uniq_swap {B} (g : string → option B) (l1 l2 : list string) :
  (∀ x, x ∈ l1 → g x = None) →
  omap g (uniq (l1 ++ l2)) = omap g (uniq (l2 ++ l1)).
Proof.
  intros Hg.
  assert (Hnil : ∀ l : list string, (∀ x, x ∈ l → x ∈ l1) → omap g l = []).
  { induction l as [|x l IH]; intros Hl; [done|]. csimpl.
    rewrite Hg by (apply Hl; left). apply IH. intros y Hy. apply Hl. by right. }
  assert (Hfil : ∀ l : list string, omap g (filter (λ y, y ∉ l1) l) = omap g l).
  { induction l as [|x l IH]; [done|]. rewrite filter_cons.
    destruct (decide (x ∉ l1)) as [Hx|Hx]; csimpl; rewrite IH; [done|].
    rewrite Hg; [done|]. by apply dec_stable. }
  rewrite !uniq_app, !omap_app, Hfil.
  rewrite (Hnil (uniq l1)) by (intros x; by rewrite elem_of_uniq).
  rewrite (Hnil (filter _ (uniq l1))).
  - by rewrite app_nil_r.
  - intros x [_ Hx]%list_elem_of_filter. by apply elem_of_uniq.
Qed.

Lemma verdict_swap oldMap newMap nm :
  verdict oldMap newMap nm ≫= added_of = verdict newMap oldMap nm ≫= removed_of.
Proof.
  unfold verdict.
  destruct (truthy (map_get oldMap nm)) eqn:Ha, (truthy (map_get newMap nm)) eqn:Hb; simpl; try done.
  - destruct (get_type _), (get_type _); simpl; try done;
    destruct (get_nullable _), (get_nullable _); simpl; try done;
    repeat (destruct (compare _ _ _ _); simpl; try done).
  - destruct (get_type _), (get_type _); simpl; try done;
    destruct (get_nullable _), (get_nullable _); simpl; try done;
    repeat (destruct (compare _ _ _ _); simpl; try done).
Qed.

Lemma own_key_truthy m nm : nm ∈ Object_keys m → truthy (map_get m nm) = true.
Proof.
  rewrite elem_of_Object_keys. intros Hk%own_lookup_is_Some.
  unfold map_get. destruct Hk as [d ->].
  destruct (String.eqb nm "__proto__"); [|done].
  by destruct (proto m).
Qed.

Lemma verdict_own_old oldMap newMap nm :
  nm ∈ Object_keys oldMap → verdict oldMap newMap nm ≫= added_of = None.
Proof.
  intros H%own_key_truthy. unfold verdict. rewrite H. simpl.
  destruct (truthy (map_get newMap nm)); simpl; [|done].
  destruct (get_type _), (get_type _); simpl; try done;
  destruct (get_nullable _), (get_nullable _); simpl; try done;
  repeat (destruct (compare _ _ _ _); simpl; try done).
Qed.

(** X1.  Swapping the two schemas swaps the groups [added] and
    [removed]: the fields [diffSchemas(a, b)] reports as added are, entry
    for entry and in the same order, the fields [diffSchemas(b, a)]
    reports as removed, and the other way round.  This holds for all
    schemas, whatever their field names. *)
Theorem diffSchemas_swap (oldSchema newSchema : Schema) :
  ∃ d d', diffSchemas oldSchema newSchema = Some d ∧
          diffSchemas newSchema oldSchema = Some d' ∧
          added d = removed d' ∧ removed d = added d'.
Proof.
  unfold diffSchemas.
  set (oldMap := buildFieldMap (fields oldSchema)).
  set (newMap := buildFieldMap (fields newSchema)).
  destruct (forEach_visit oldMap newMap (allNames oldMap newMap) empty_diff)
    as (vs & Hvs & ->); [intros nm; apply allNames_verdict|].
  destruct (forEach_visit newMap oldMap (allNames newMap oldMap) empty_diff)
    as (vs' & Hvs' & ->); [intros nm; apply allNames_verdict|].
  do 2 eexists. split; [done|]. split; [done|]. simpl.
  rewrite (omap_mapM _ added_of _ _ Hvs), (omap_mapM _ removed_of _ _ Hvs),
    (omap_mapM _ added_of _ _ Hvs'), (omap_mapM _ removed_of _ _ Hvs').
  unfold allNames. split.
  - rewrite (omap_uniq_swap _ (Object_keys oldMap));
      [|intros; by apply verdict_own_old].
    apply omap_pointwise. intros nm. apply verdict_swap.
  - rewrite <- (omap_uniq_swap _ (Object_keys newMap)).
    + apply omap_pointwise. intros nm. symmetry. apply verdict_swap.
    + intros nm Hnm. rewrite <- verdict_swap. by apply verdict_own_old.
Qed.

(** ** Own keys are listed once *)

Lemma own_set_keys {V} k (v : V) l :
  (own_set k v l).*1 = if bool_decide (k ∈ l.*1) then l.*1 else l.*1 ++ [k].
Proof.
  induction l as [|[k' v'] l IH]; csimpl; [done|].
  destruct (String.eqb_spec k k') as [->|Hne]; csimpl.
  - by rewrite bool_decide_eq_true_2 by left.
  - rewrite IH. destruct (decide (k ∈ l.*1)) as [Hin|Hin].
    + rewrite !bool_decide_eq_true_2; [done|by right|done].
    + rewrite !bool_decide_eq_false_2; [done| |done].
      rewrite not_elem_of_cons. done.
Qed.

Lemma own_set_NoDup {V} k (v : V) l : NoDup l.*1 → NoDup (own_set k v l).*1.
Proof.
  intros Hl. rewrite own_set_keys. case_bool_decide as Hin; [done|].
  apply NoDup_app. split_and!; [done| |apply NoDup_singleton].
  intros x Hx ->%list_elem_of_singleton. done.
Qed.

Lemma install_NoDup m f : NoDup (own m).*1 → NoDup (own (install m f)).*1.
Proof.
  unfold install, map_set. destruct (String.eqb _ _); simpl; [done|].
  apply own_set_NoDup.
Qed.

Lemma buildFieldMap_own_NoDup fs : NoDup (own (buildFieldMap fs)).*1.
Proof.
  unfold buildFieldMap. change (λ m f, map_set (name f) f m) with install.
  generalize (normalizeFieldsArray fs). intros l.
  assert (H : NoDup (own empty_map).*1) by constructor.
  revert H. generalize empty_map. induction l as [|f l IH]; intros m Hm; [done|].
  simpl. apply IH. by apply install_NoDup.
Qed.

Lemma insert_index_Permutation n k l : insert_index n k l ≡ₚ (n, k) :: l.
Proof.
  induction l as [|[n' k'] l IH]; simpl; [done|].
  destruct (n <? n')%N; [done|]. rewrite IH. apply perm_swap.
Qed.

Lemma index_keys_Permutation ks :
  (index_keys ks).*2 ≡ₚ filter (λ k, is_index k = true) ks.
Proof.
  induction ks as [|k ks IH]; [done|]. simpl.
  destruct (array_index k) as [n|] eqn:Hk.
  - rewrite filter_cons_True by (unfold is_index; by rewrite Hk).
    rewrite insert_index_Permutation. csimpl. by rewrite IH.
  - rewrite filter_cons_False by (unfold is_index; by rewrite Hk). done.
Qed.

Lemma key_order_Permutation ks : key_order ks ≡ₚ ks.
Proof.
  unfold key_order. rewrite index_keys_Permutation.
  rewrite <- (filter_app_complement (λ k, is_index k = true) ks) at 3.
  f_equiv. erewrite list_filter_iff; [done|]. intros k.
  simpl. destruct (is_index k); split; try done.
Qed.

Lemma Object_keys_NoDup fs : NoDup (Object_keys (buildFieldMap fs)).
Proof.
  unfold Object_keys. rewrite key_order_Permutation. apply buildFieldMap_own_NoDup.
Qed.

Lemma uniq_NoDup (l : list string) : NoDup l → uniq l = l.
Proof.
  induction 1 as [|x l Hx _ IH]; [done|]. simpl. rewrite IH. f_equal.
  apply filter_all. intros y Hy ->. done.
Qed.

(** ** A schema compared with itself *)

Lemma compare_refl t n : compare t t n n = [].
Proof.
  unfold compare, strict_neq. rewrite bool_decide_eq_false_2 by naive_solver.
  by rewrite eqb_reflx.
Qed.

Lemma verdict_equal_maps m m' nm :
  (∀ k, map_get m' k = map_get m k) →
  nm ∈ Object_keys m → verdict m m' nm = Some (IsUnchanged (map_get m nm)).
Proof.
  intros Heq H%own_key_truthy. unfold verdict. rewrite Heq, H. simpl.
  destruct (truthy_get_type _ H) as [t ->], (truthy_get_nullable _ H) as [n ->].
  simpl. by rewrite compare_refl.
Qed.

Lemma mapM_fmap_Some {A B} (f : A → option B) (g : A → B) l :
  (∀ x, x ∈ l → f x = Some (g x)) → mapM f l = Some (g <$> l).
Proof.
  intros H. apply mapM_Some. induction l as [|x l IH]; csimpl; constructor.
  - apply H. left.
  - apply IH. intros y Hy. apply H. by right.
Qed.

(** Two maps that answer every read alike and list the same keys: every
    key is filed under [unchanged]. *)
Lemma diff_equal_maps m m' :
  (∀ k, map_get m' k = map_get m k) →
  Object_keys m' ≡ₚ Object_keys m →
  NoDup (Object_keys m) →
  forEach (visit m m') (allNames m m') empty_diff =
    Some {| added := []; removed := []; changed := [];
            unchanged := map_get m <$> Object_keys m |}.
Proof.
  intros Heq Hkeys Hnd.
  assert (Hall : allNames m m' = Object_keys m).
  { unfold allNames. rewrite uniq_app, (uniq_NoDup _ Hnd).
    rewrite filter_none; [by rewrite app_nil_r|].
    intros x Hx. apply (proj1 (elem_of_uniq _ _)) in Hx.
    rewrite Hkeys in Hx. tauto. }
  rewrite Hall.
  destruct (forEach_visit m m' (Object_keys m) empty_diff) as (vs & Hvs & ->).
  { intros nm Hnm. rewrite (verdict_equal_maps _ _ _ Heq Hnm). eauto. }
  rewrite (mapM_fmap_Some _ (λ nm, IsUnchanged (map_get m nm))) in Hvs
    by (intros; by apply verdict_equal_maps).
  injection Hvs as <-. simpl. f_equal.
  generalize (Object_keys m). intros l.
  induction l as [|x l IH]; csimpl; [done|]. injection IH as -> -> -> ->. done.
Qed.

(** X2.  A schema compared with itself has no added, removed or changed
    field: every key of its field map is filed under [unchanged], in the
    order of [Object.keys].  This holds for all schemas, also with
    repeated names or names of [Object.prototype] members. *)
Theorem diffSchemas_same_schema (s : Schema) :
  let m := buildFieldMap (fields s) in
  diffSchemas s s =
    Some {| added := []; removed := []; changed := [];
            unchanged := map_get m <$> Object_keys m |}.
Proof.
  intros m. unfold diffSchemas. fold m.
  apply diff_equal_maps; [done|done|]. apply Object_keys_NoDup.
Qed.

(** ** Counting the entries *)




(** ** Entries of [changed] *)

Lemma compare_cases ta tb na nb :
  compare ta tb na nb ∈ [[]; ["type"]; ["nullable"]; ["type"; "nullable"]] ∧
  ("type" ∈ compare ta tb na nb ↔ js_or ta (VString "") ≠ js_or tb (VString "")) ∧
  ("nullable" ∈ compare ta tb na nb ↔ truthy na ≠ truthy nb).
Proof.
  unfold compare, strict_neq.
  case_bool_decide as Ht; destruct (truthy na), (truthy nb); simpl;
    rewrite ?elem_of_cons, ?elem_of_nil; split_and!; try tauto;
    try (split; [intros; try done; naive_solver|]; intros; naive_solver).
Qed.

(** X4.  An entry of [changed] always names a difference: [diffs] is
    [['type']], [['nullable']] or [['type', 'nullable']], never empty.
    [type] is listed exactly when the two types differ, an empty or
    missing type counting as [''], and [nullable] exactly when the two
    nullable flags differ in truthiness. *)
Theorem diffSchemas_changed_entry (oldSchema newSchema : Schema) (d : Diff)
    (c : Changed) :
  diffSchemas oldSchema newSchema = Some d →
  c ∈ changed d →
  diffs c ∈ [["type"]; ["nullable"]; ["type"; "nullable"]] ∧
  ("type" ∈ diffs c ↔
     js_or (snap_type (before c)) (VString "") ≠
     js_or (snap_type (after c)) (VString "")) ∧
  ("nullable" ∈ diffs c ↔
     truthy (snap_nullable (before c)) ≠ truthy (snap_nullable (after c))).
Proof.
  intros Hd Hc. destruct (changed_inv _ _ _ _ Hd Hc) as [_ Hv].
  apply verdict_inv in Hv as [(_ & _ & ?)|[(_ & _ & ?)|(_ & ta & tb & na & nb & _ & _ & _ & _ & Hcmp)]];
    [done|done|].
  destruct Hcmp as [[_ ?]|[Hne Hc']]; [done|].
  injection Hc' as ->. simpl.
  destruct (compare_cases ta tb na nb) as (Hcases & Ht & Hn).
  split_and!; [|done|done].
  apply elem_of_cons in Hcases as [?|?]; done.
Qed.

Lemma diffSchemas_changed_entry_witness :
  let c := {| changed_name := "price";
              before := {| snap_type := VString "string"; snap_nullable := VBool true |};
              after := {| snap_type := VString "decimal"; snap_nullable := VBool false |};
              diffs := ["type"; "nullable"] |} in
  diffs c ∈ [["type"]; ["nullable"]; ["type"; "nullable"]] ∧
  ("type" ∈ diffs c ↔
     js_or (snap_type (before c)) (VString "") ≠
     js_or (snap_type (after c)) (VString "")) ∧
  ("nullable" ∈ diffs c ↔
     truthy (snap_nullable (before c)) ≠ truthy (snap_nullable (after c))).
Proof.
  intros c.
  apply (diffSchemas_changed_entry
           (schema_of [named "price" "string"])
           (schema_of [flagged "price" "decimal" (VBool false)])
           {| added := []; removed := []; changed := [c]; unchanged := [] |} c).
  - reflexivity.
  - left.
Defined.

(** ** Field maps: later descriptors overwrite, order of fields *)

Lemma field_named_app k l f l' :
  name f = k → k ∉ name <$> l' → field_named k (l ++ f :: l') = Some f.
Proof.
  intros Hf Hl'. induction l as [|g l IH]; simpl.
  - apply field_named_None in Hl'. rewrite Hl'.
    by rewrite (proj2 (String.eqb_eq _ _) Hf).
  - by rewrite IH.
Qed.

(** X5.  When several fields of a list carry the same name, the field map
    holds the normalised descriptor of the last of them, and
    [Object.keys] lists the name once. *)
Theorem buildFieldMap_last_wins (earlier later : list RawField) (f : RawField) :
  let nm := name (normalizeField f) in
  nm ≠ "__proto__" →
  nm ∉ name <$> normalizeFieldsArray (Some later) →
  map_get (buildFieldMap (Some (earlier ++ f :: later))) nm =
    VField (normalizeField f) ∧
  length (filter (λ k, k = nm) (Object_keys (buildFieldMap (Some (earlier ++ f :: later))))) = 1.
Proof.
  intros nm Hnm Hlater.
  assert (Hf : field_named nm (normalizeFieldsArray (Some (earlier ++ f :: later)))
               = Some (normalizeField f)).
  { unfold normalizeFieldsArray. simpl. rewrite fmap_app, fmap_cons.
    by apply field_named_app. }
  split; [by apply map_get_declared|].
  assert (Hin : nm ∈ Object_keys (buildFieldMap (Some (earlier ++ f :: later)))).
  { apply buildFieldMap_keys. split; [done|]. rewrite Hf. eauto. }
  pose proof (Object_keys_NoDup (Some (earlier ++ f :: later))) as Hnd.
  revert Hin Hnd. generalize (Object_keys (buildFieldMap (Some (earlier ++ f :: later)))).
  intros ks. induction ks as [|k ks IH]; intros Hin Hnd; [by apply elem_of_nil in Hin|].
  apply NoDup_cons in Hnd as [Hk Hnd]. rewrite filter_cons.
  destruct (decide (k = nm)) as [->|Hne]; simpl.
  - rewrite filter_none; [done|]. intros x Hx ->. done.
  - apply IH; [|done]. apply elem_of_cons in Hin as [->|?]; done.
Qed.

Lemma buildFieldMap_last_wins_witness :
  let l := [named "id" "string"; named "id" "integer"; named "price" "decimal"] in
  map_get (buildFieldMap (Some l)) "id" = VField (normalizeField (named "id" "integer")) ∧
  length (filter (λ k, k = "id") (Object_keys (buildFieldMap (Some l)))) = 1.
Proof.
  apply (buildFieldMap_last_wins [named "id" "string"] [named "price" "decimal"]
           (named "id" "integer")).
  - discriminate.
  - intros H%list_elem_of_singleton. discriminate H.
Defined.

Lemma field_named_Permutation k l l' :
  l ≡ₚ l' → NoDup (name <$> l) → field_named k l = field_named k l'.
Proof.
  intros Hp Hnd. destruct (field_named k l) as [f|] eqn:Hf.
  - symmetry. apply field_named_NoDup.
    + by rewrite <- Hp.
    + rewrite <- Hp. by eapply field_named_elem.
    + by eapply field_named_name.
  - symmetry. apply field_named_None. rewrite <- Hp. by apply field_named_None.
Qed.

Lemma map_get_own_proto m m' :
  (∀ k, k ≠ "__proto__" → own_lookup k (own m) = own_lookup k (own m')) →
  proto m = proto m' →
  ∀ k, map_get m k = map_get m' k.
Proof.
  intros Hown Hproto k. unfold map_get. rewrite Hproto.
  destruct (String.eqb_spec k "__proto__") as [->|Hne]; [done|].
  by rewrite Hown.
Qed.

Lemma buildFieldMap_Permutation (l l' : list RawField) :
  l ≡ₚ l' → NoDup (names (schema_of l)) →
  (∀ k, map_get (buildFieldMap (Some l)) k = map_get (buildFieldMap (Some l')) k) ∧
  Object_keys (buildFieldMap (Some l)) ≡ₚ Object_keys (buildFieldMap (Some l')).
Proof.
  intros Hp Hnd. unfold names in Hnd. simpl in Hnd.
  assert (Hfn : ∀ k, field_named k (normalizeFieldsArray (Some l)) =
                     field_named k (normalizeFieldsArray (Some l'))).
  { intros k. apply field_named_Permutation; [|done].
    unfold normalizeFieldsArray. simpl. by rewrite Hp. }
  split.
  - apply map_get_own_proto.
    + intros k Hk. by rewrite !buildFieldMap_own.
    + by rewrite !buildFieldMap_proto.
  - apply NoDup_Permutation; [apply Object_keys_NoDup..|].
    intros k. by rewrite !buildFieldMap_keys, Hfn.
Qed.

Lemma verdict_ext m1 m2 m1' m2' nm :
  (∀ k, map_get m1 k = map_get m1' k) →
  (∀ k, map_get m2 k = map_get m2' k) →
  verdict m1 m2 nm = verdict m1' m2' nm.
Proof. intros H1 H2. unfold verdict. by rewrite H1, H2. Qed.

Lemma allNames_Permutation m1 m2 m1' m2' :
  Object_keys m1 ≡ₚ Object_keys m1' → Object_keys m2 ≡ₚ Object_keys m2' →
  allNames m1 m2 ≡ₚ allNames m1' m2'.
Proof.
  intros H1 H2. apply NoDup_Permutation; [apply NoDup_uniq..|].
  intros k. unfold allNames. by rewrite !elem_of_uniq, !elem_of_app, H1, H2.
Qed.

Lemma diff_groups m1 m2 :
  (∀ nm, nm ∈ allNames m1 m2 → is_Some (verdict m1 m2 nm)) →
  forEach (visit m1 m2) (allNames m1 m2) empty_diff =
    Some {| added := omap (λ nm, verdict m1 m2 nm ≫= added_of) (allNames m1 m2);
            removed := omap (λ nm, verdict m1 m2 nm ≫= removed_of) (allNames m1 m2);
            changed := omap (λ nm, verdict m1 m2 nm ≫= changed_of) (allNames m1 m2);
            unchanged := omap (λ nm, verdict m1 m2 nm ≫= unchanged_of) (allNames m1 m2) |}.
Proof.
  intros Hv. destruct (forEach_visit m1 m2 (allNames m1 m2) empty_diff Hv)
    as (vs & Hvs & ->). simpl.
  by rewrite (omap_mapM _ added_of _ _ Hvs), (omap_mapM _ removed_of _ _ Hvs),
    (omap_mapM _ changed_of _ _ Hvs), (omap_mapM _ unchanged_of _ _ Hvs).
Qed.

(** X6.  The order of the fields does not matter to the diff: when the
    names of each schema are distinct, reordering the fields of either
    schema gives the same four groups up to the order of their entries. *)
Theorem diffSchemas_field_order (old old' new new' : list RawField) :
  old ≡ₚ old' → new ≡ₚ new' →
  NoDup (names (schema_of old)) → NoDup (names (schema_of new)) →
  ∃ d d', diffSchemas (schema_of old) (schema_of new) = Some d ∧
          diffSchemas (schema_of old') (schema_of new') = Some d' ∧
          added d ≡ₚ added d' ∧ removed d ≡ₚ removed d' ∧
          changed d ≡ₚ changed d' ∧ unchanged d ≡ₚ unchanged d'.
Proof.
  intros Ho Hn Hndo Hndn.
  destruct (buildFieldMap_Permutation _ _ Ho Hndo) as [Hgo Hko].
  destruct (buildFieldMap_Permutation _ _ Hn Hndn) as [Hgn Hkn].
  unfold diffSchemas. simpl fields.
  rewrite !diff_groups by (intros nm; apply allNames_verdict).
  do 2 eexists. split; [done|]. split; [done|]. simpl.
  pose proof (allNames_Permutation _ _ _ _ Hko Hkn) as Hall.
  split_and!; rewrite Hall; erewrite omap_pointwise; try done; intros nm; simpl;
    by rewrite (verdict_ext _ _ _ _ nm Hgo Hgn).
Qed.

Lemma diffSchemas_field_order_witness :
  let id := named "id" "string" in
  let price := named "price" "string" in
  let currency := named "currency" "string" in
  ∃ d d', diffSchemas (schema_of [id; price]) (schema_of [price; currency]) = Some d ∧
          diffSchemas (schema_of [price; id]) (schema_of [currency; price]) = Some d' ∧
          added d ≡ₚ added d' ∧ removed d ≡ₚ removed d' ∧
          changed d ≡ₚ changed d' ∧ unchanged d ≡ₚ unchanged d'.
Proof.
  intros id price currency.
  apply (diffSchemas_field_order [id; price] [price; id]
           [price; currency] [currency; price]).
  - apply perm_swap.
  - apply perm_swap.
  - compute_done.
  - compute_done.
Defined.



(** ** The field timeline *)



Lemma truthy_js_or a b : truthy (js_or a b) = truthy a || truthy b.
Proof. unfold js_or. by destruct (truthy a) eqn:Ha; rewrite ?Ha. Qed.

Lemma js_or_null a : js_or a VNull = VNull ∨ truthy (js_or a VNull) = true.
Proof. unfold js_or. destruct (truthy a) eqn:Ha; auto. Qed.

(** X9.  Every entry [fieldTimeline] returns is well formed: its
    [version] is truthy (the fallbacks end in ['v?']); [created_at] is
    [null] or truthy; [type] is [null] or a non-empty string; and either
    the field is absent with [type] and [nullable] both [null], or it is
    present and [nullable] is a boolean. *)
Theorem fieldTimeline_entries (fieldName : string) (history : option (list Version))
    (entries : list TimelineEntry) :
  fieldTimeline fieldName history = Some entries →
  Forall (λ e,
    truthy (entry_version e) = true ∧
    (entry_created_at e = VNull ∨ truthy (entry_created_at e) = true) ∧
    (entry_type e = VNull ∨ ∃ t, entry_type e = VString t ∧ t ≠ "") ∧
    (present e = false ∧ entry_type e = VNull ∧ entry_nullable e = VNull ∨
     present e = true ∧ ∃ b, entry_nullable e = VBool b)) entries.
Proof.
  unfold fieldTimeline. intros H. apply Forall_forall. intros e He.
  apply (elem_of_mapM_Some _ _ _ _ H) in He as (s & _ & He).
  unfold timeline_entry in He. destruct (timeline_map s) as [m|]; [|done].
  simpl in He. injection He as <-. simpl. split_and!.
  - rewrite truthy_js_or. simpl. apply orb_true_r.
  - apply js_or_null.
  - unfold optional_type, js_or.
    destruct (map_get m fieldName) as [| |[]|z|str|f|k]; simpl; try by left.
    destruct (String.eqb_spec (type f) "") as [->|Hne]; simpl; [by left|].
    right. eauto.
  - destruct (truthy (map_get m fieldName)) eqn:Hf; [right; eauto|left].
    split_and!; [done| |done].
    unfold optional_type, js_or.
    by destruct (map_get m fieldName) as [| |[]|z|str|f|k]; simpl in *.
Qed.

Lemma fieldTimeline_entries_witness :
  Forall (λ e,
    truthy (entry_version e) = true ∧
    (entry_created_at e = VNull ∨ truthy (entry_created_at e) = true) ∧
    (entry_type e = VNull ∨ ∃ t, entry_type e = VString t ∧ t ≠ "") ∧
    (present e = false ∧ entry_type e = VNull ∧ entry_nullable e = VNull ∨
     present e = true ∧ ∃ b, entry_nullable e = VBool b))
    [ mkEntry (VNumber 1) VNull true (VString "string") (VBool true);
      mkEntry (VNumber 2) VNull false VNull VNull ].
Proof.
  apply (fieldTimeline_entries "price"
           (Some [version_of 1 [named "price" "string"];
                  version_of 2 [named "id" "string"]])).
  reflexivity.
Defined.






(** ** Normalisation *)

(** X11.  Normalising is idempotent: feeding the descriptors
    [normalizeFieldsArray] returns back into it returns them unchanged,
    so [buildFieldMap], which normalises its argument again, builds the
    same map from raw and from normalised fields. *)
Theorem normalizeFieldsArray_idempotent (fields : option (list RawField)) :
  normalizeFieldsArray (Some (as_raw <$> normalizeFieldsArray fields)) =
  normalizeFieldsArray fields ∧
  buildFieldMap (Some (as_raw <$> normalizeFieldsArray fields)) =
  buildFieldMap fields.
Proof.
  assert (H : normalizeFieldsArray (Some (as_raw <$> normalizeFieldsArray fields)) =
              normalizeFieldsArray fields).
  { unfold normalizeFieldsArray at 1. simpl.
    generalize (normalizeFieldsArray fields). intros l.
    induction l as [|f l IH]; csimpl; [done|]. rewrite IH. f_equal.
    destruct f as [n t nl nw]. unfold normalizeField, as_raw, strict_neq. simpl.
    f_equal; [by destruct nl|by destruct nw]. }
  split; [done|]. unfold buildFieldMap. by rewrite H.
Qed.

(** ** The diff of schemas with plain names *)

(** X12.  What [diffSchemas] computes when no field is named like a
    member of [Object.prototype].  [added] holds exactly the descriptors
    the new schema declares and the old one does not; [removed] exactly
    those the old schema declares and the new one does not; [changed] has
    an entry for exactly the names both declare with a different type or
    nullability; [unchanged] holds exactly the new descriptors of the
    names both declare with the same type and nullability.  Every entry
    of [added], [removed] and [unchanged] is a descriptor object. *)
Theorem diffSchemas_classification (oldSchema newSchema : Schema) :
  plain_names oldSchema → plain_names newSchema →
  ∃ d, diffSchemas oldSchema newSchema = Some d ∧
    (∀ f, VField f ∈ added d ↔
       declared newSchema (name f) = Some f ∧ declared oldSchema (name f) = None) ∧
    (∀ f, VField f ∈ removed d ↔
       declared oldSchema (name f) = Some f ∧ declared newSchema (name f) = None) ∧
    (∀ nm, Exists (λ c, changed_name c = nm) (changed d) ↔
       ∃ a b, declared oldSchema nm = Some a ∧ declared newSchema nm = Some b ∧
              (type a ≠ type b ∨ nullable a ≠ nullable b)) ∧
    (∀ f, VField f ∈ unchanged d ↔
       ∃ a, declared oldSchema (name f) = Some a ∧
            declared newSchema (name f) = Some f ∧
            type a = type f ∧ nullable a = nullable f) ∧
    (∀ v, v ∈ added d ++ removed d ++ unchanged d → ∃ f, v = VField f).
Proof.
  intros Ho Hn.
  destruct (diffSchemas_plain_names _ _ Ho Hn) as (d & Hd & Hadd & Hrem & Hch).
  destruct (diffSchemas_spec oldSchema newSchema) as (d' & Hd' & _ & _ & _ & Hun).
  rewrite Hd in Hd'. injection Hd' as <-.
  assert (Hplain : ∀ s nm, plain_names s → is_Some (declared s nm) →
            inherited nm = false ∧ nm ≠ "__proto__").
  { intros s nm Hs Hnm%declared_names. apply Hs in Hnm. split; [done|]. by intros ->. }
  assert (Hunch : ∀ v, v ∈ unchanged d ↔
            ∃ a b, v = VField b ∧ declared oldSchema (name b) = Some a ∧
                   declared newSchema (name b) = Some b ∧
                   type a = type b ∧ nullable a = nullable b).
  { intros v. rewrite Hun. split.
    - intros (nm & Hnm & Hv).
      apply allNames_spec in Hnm as [Hne Hdecl].
      assert (inherited nm = false) as Hi.
      { destruct Hdecl as [H|H]; [by apply (Hplain oldSchema)|by apply (Hplain newSchema)]. }
      unfold verdict in Hv.
      rewrite (plain_map_get _ _ Ho Hi), (plain_map_get _ _ Hn Hi) in Hv.
      destruct (declared oldSchema nm) as [a|] eqn:Ha,
               (declared newSchema nm) as [b|] eqn:Hb; simpl in Hv; try done.
      destruct (compare _ _ _ _) eqn:Hc in Hv; [|done].
      injection Hv as <-. apply compare_fields_nil in Hc as [Ht Hnl].
      pose proof (field_named_name _ _ _ Hb) as Hnb.
      exists a, b. rewrite Hnb. done.
    - intros (a & b & -> & Ha & Hb & Ht & Hnl). exists (name b).
      destruct (Hplain newSchema (name b) Hn) as [Hi Hne]; [by rewrite Hb|].
      split.
      + apply allNames_spec. split; [done|]. right. unfold declared in Hb. by rewrite Hb.
      + rewrite (verdict_both _ _ _ _ _ Hne Ha Hb).
        by rewrite (proj2 (compare_fields_nil a b)). }
  exists d. split; [done|]. split_and!.
  - intros f. rewrite Hadd. split.
    + by intros (f' & [= <-] & ? & ?).
    + intros [? ?]. by exists f.
  - intros f. rewrite Hrem. split.
    + by intros (f' & [= <-] & ? & ?).
    + intros [? ?]. by exists f.
  - intros nm. rewrite Exists_exists. split.
    + intros (c & (a & b & Ha & Hb & Hdiff & _)%Hch & <-). eauto.
    + intros (a & b & Ha & Hb & Hdiff).
      eexists {| changed_name := nm; before := snapshot a; after := snapshot b;
                 diffs := _ |}.
      split; [|done]. apply Hch. exists a, b. simpl. split_and!; done.
  - intros f. rewrite Hunch. split.
    + intros (a & b & [= <-] & ? & ? & ? & ?). eauto.
    + intros (a & ? & ? & ? & ?). exists a, f. done.
  - intros v. rewrite !elem_of_app, Hadd, Hrem, Hunch.
    intros [(f & -> & _)|[(f & -> & _)|(a & b & -> & _)]]; eauto.
Qed.

Lemma diffSchemas_classification_witness :
  let oldSchema := schema_of [named "id" "string"; named "price" "string"] in
  let newSchema := schema_of [named "id" "string"; named "price" "decimal";
                              named "currency" "string"] in
  ∃ d, diffSchemas oldSchema newSchema = Some d ∧
    (∀ f, VField f ∈ added d ↔
       declared newSchema (name f) = Some f ∧ declared oldSchema (name f) = None) ∧
    (∀ f, VField f ∈ removed d ↔
       declared oldSchema (name f) = Some f ∧ declared newSchema (name f) = None) ∧
    (∀ nm, Exists (λ c, changed_name c = nm) (changed d) ↔
       ∃ a b, declared oldSchema nm = Some a ∧ declared newSchema nm = Some b ∧
              (type a ≠ type b ∨ nullable a ≠ nullable b)) ∧
    (∀ f, VField f ∈ unchanged d ↔
       ∃ a, declared oldSchema (name f) = Some a ∧
            declared newSchema (name f) = Some f ∧
            type a = type f ∧ nullable a = nullable f) ∧
    (∀ v, v ∈ added d ++ removed d ++ unchanged d → ∃ f, v = VField f).
Proof.
  intros oldSchema newSchema.
  apply (diffSchemas_classification oldSchema newSchema).
  - intros nm Hnm. repeat (apply elem_of_cons in Hnm as [->|Hnm]; [reflexivity|]).
    by apply elem_of_nil in Hnm.
  - intros nm Hnm. repeat (apply elem_of_cons in Hnm as [->|Hnm]; [reflexivity|]).
    by apply elem_of_nil in Hnm.
Defined.

(** * Further properties of the stability score *)

(** ** Binary64 facts for the quotient [stableChecks / totalChecks] *)

Section Binary64.
Import Floats.SpecFloat.
Local Open Scope Z_scope.

Lemma digits2_pos_iter_xO p k :
  digits2_pos (Pos.iter xO p k) = (digits2_pos p + k)%positive.
Proof.
  induction k as [|k IH] using Pos.peano_ind.
  - simpl. lia.
  - rewrite Pos.iter_succ. simpl. rewrite IH. lia.
Qed.

Lemma shr_fexp_canonical m e :
  fexp Number.prec Number.emax (Zpos (digits2_pos m) + e) = e →
  shr_fexp Number.prec Number.emax (Zpos m) e loc_Exact =
    ({| shr_m := Zpos m; shr_r := false; shr_s := false |}, e).
Proof.
  intros H. unfold shr_fexp. simpl Zdigits2. rewrite H, Z.sub_diag. done.
Qed.

Lemma binary_round_aux_canonical s m e :
  fexp Number.prec Number.emax (Zpos (digits2_pos m) + e) = e →
  e <= Number.emax - Number.prec →
  binary_round_aux Number.prec Number.emax s (Zpos m) e loc_Exact = S754_finite s m e.
Proof.
  intros H He. unfold binary_round_aux.
  rewrite (shr_fexp_canonical _ _ H). simpl shr_m. simpl loc_of_shr_record.
  simpl round_nearest_even. rewrite (shr_fexp_canonical _ _ H). simpl shr_m.
  by rewrite (proj2 (Z.leb_le _ _) He).
Qed.

Lemma of_N_finite (p : positive) :
  Zpos (digits2_pos p) <= 53 →
  ∃ m e, Number.of_N (Npos p) = S754_finite false m e.
Proof.
  intros Hd. unfold Number.of_N. simpl Z.of_N. unfold binary_normalize, binary_round.
  unfold shl_align.
  set (d := Zpos (digits2_pos p)) in *.
  assert (Hf : fexp Number.prec Number.emax (d + 0) = d - 53).
  { unfold fexp, emin, Number.prec, Number.emax. lia. }
  rewrite Hf.
  destruct (d - 53 - 0) as [|k|k] eqn:Hk; [| lia |].
  - do 2 eexists. apply binary_round_aux_canonical.
    + unfold fexp, emin, Number.prec, Number.emax. fold d. lia.
    + unfold Number.prec, Number.emax. lia.
  - do 2 eexists. apply binary_round_aux_canonical.
    + rewrite digits2_pos_iter_xO. unfold fexp, emin, Number.prec, Number.emax.
      fold d. lia.
    + unfold Number.prec, Number.emax. lia.
Qed.

Lemma div_self m e :
  Number.div (S754_finite false m e) (S754_finite false m e) =
  S754_finite false 4503599627370496 (-52).
Proof.
  unfold Number.div, SFdiv, SFdiv_core_binary.
  rewrite !Z.sub_diag.
  change (Z.min (fexp Number.prec Number.emax 0) 0) with (-53).
  change (0 - -53) with 53. cbv iota.
  rewrite Z.shiftl_mul_pow2 by lia.
  pose proof (Z.div_eucl_eq (Zpos m * 2 ^ 53) (Zpos m) ltac:(lia)) as Heq.
  pose proof (Z.mod_pos_bound (Zpos m * 2 ^ 53) (Zpos m) ltac:(lia)) as Hb.
  unfold Z.modulo in Hb.
  destruct (Z.div_eucl (Zpos m * 2 ^ 53) (Zpos m)) as [q r].
  assert (q = 2 ^ 53 ∧ r = 0) as [-> ->].
  { apply (Z.div_mod_unique (Zpos m)); [lia|lia|]. rewrite <- Heq. lia. }
  unfold new_location, new_location_even, new_location_odd. simpl Z.eqb.
  destruct (Z.even (Zpos m)); reflexivity.
Qed.

Lemma score_all (p : positive) :
  Zpos (digits2_pos p) <= 53 → score (Npos p) (Npos p) = Some 100.
Proof.
  intros Hp. unfold score. destruct (of_N_finite p Hp) as (m & e & ->).
  rewrite div_self. reflexivity.
Qed.

Lemma score_none (p : positive) :
  Zpos (digits2_pos p) <= 53 → score 0 (Npos p) = Some 0.
Proof.
  intros Hp. unfold score. destruct (of_N_finite p Hp) as (m & e & ->).
  reflexivity.
Qed.

Lemma digits2_pos_lower (p : positive) : 2 ^ (Zpos (digits2_pos p) - 1) <= Zpos p.
Proof.
  induction p as [p IH|p IH|]; simpl digits2_pos.
  - rewrite Pos2Z.inj_succ. replace (Z.succ (Zpos (digits2_pos p)) - 1) with
      (Z.succ (Zpos (digits2_pos p) - 1)) by lia.
    rewrite Z.pow_succ_r by lia. lia.
  - rewrite Pos2Z.inj_succ. replace (Z.succ (Zpos (digits2_pos p)) - 1) with
      (Z.succ (Zpos (digits2_pos p) - 1)) by lia.
    rewrite Z.pow_succ_r by lia. lia.
  - simpl. lia.
Qed.

Lemma digits2_pos_53 (p : positive) : Zpos p < 2 ^ 53 → Zpos (digits2_pos p) <= 53.
Proof.
  intros Hp. pose proof (digits2_pos_lower p) as Hl.
  destruct (Z.le_gt_cases (Zpos (digits2_pos p)) 53) as [|Hgt]; [done|].
  exfalso. assert (2 ^ 53 <= 2 ^ (Zpos (digits2_pos p) - 1)).
  { apply Z.pow_le_mono_r; lia. }
  lia.
Qed.

End Binary64.

(** ** Histories without changes, histories of changes only *)

(** X13.  A history in which no two consecutive versions differ scores
    100, whatever its length (below 2^53 versions, where counters stop
    being exact): the converse of "100 means no changes" holds. *)
Theorem computeStability_without_changes (first : Schema) (rest : list Schema) :
  all_stable first rest →
  (Z.of_nat (length rest) < 2 ^ 53)%Z →
  computeStability (Some (first :: rest)) = Some 100%Z.
Proof.
  intros Hall Hlen. destruct rest as [|second rest]; [done|].
  unfold computeStability. rewrite stability_loop_counts.
  apply stable_pairs_all in Hall. rewrite Hall. simpl.
  destruct (N.of_nat (S (length rest))) as [|p] eqn:Hp; [lia|].
  apply score_all, digits2_pos_53. simpl length in Hlen. lia.
Qed.

Lemma computeStability_without_changes_witness :
  let s := schema_of [named "id" "string"; named "price" "decimal"] in
  computeStability (Some [s; s; s]) = Some 100%Z.
Proof.
  intros s. apply (computeStability_without_changes s [s; s]).
  - split; [reflexivity|]. split; [reflexivity|exact I].
  - simpl. lia.
Defined.

(** X14.  A history of at least two versions in which every two
    consecutive versions differ scores 0. *)
Theorem computeStability_all_changed (first : Schema) (rest : list Schema) :
  rest ≠ [] →
  stable_pairs first rest = 0 →
  (Z.of_nat (length rest) < 2 ^ 53)%Z →
  computeStability (Some (first :: rest)) = Some 0%Z.
Proof.
  intros Hne Hnone Hlen. destruct rest as [|second rest]; [done|].
  unfold computeStability. rewrite stability_loop_counts, Hnone. simpl.
  destruct (N.of_nat (S (length rest))) as [|p] eqn:Hp; [lia|].
  apply score_none, digits2_pos_53. simpl length in Hlen. lia.
Qed.

Lemma computeStability_all_changed_witness :
  let a := schema_of [named "price" "string"] in
  let b := schema_of [named "price" "decimal"] in
  computeStability (Some [a; b; a]) = Some 0%Z.
Proof.
  intros a b. apply (computeStability_all_changed a [b; a]).
  - discriminate.
  - reflexivity.
  - simpl. lia.
Defined.

(** ** The score as a percentage *)

Lemma scores_near_below_spec bound s t :
  scores_near_below bound = true → 1 ≤ t ≤ bound → s ≤ t → score_near s t = true.
Proof.
  unfold scores_near_below. rewrite forallb_forall. intros H Ht Hs.
  destruct t as [|t]; [lia|].
  specialize (H t). rewrite forallb_forall in H.
  apply H; apply in_seq; lia.
Qed.

Lemma scores_near_below_200 : scores_near_below 199 = true.
Proof. vm_compute. reflexivity. Qed.

Lemma score_near_inv s t :
  1 ≤ t ≤ 199 → s ≤ t →
  ∃ z, score (N.of_nat s) (N.of_nat t) = Some z ∧
       (200 * Z.of_nat s - Z.of_nat t ≤ 2 * Z.of_nat t * z ≤ 200 * Z.of_nat s + Z.of_nat t)%Z ∧
       (s < t → ∃ z', score (N.of_nat (S s)) (N.of_nat t) = Some z' ∧ (z ≤ z')%Z).
Proof.
  intros Ht Hs.
  pose proof (scores_near_below_spec _ _ _ scores_near_below_200 Ht Hs) as H.
  unfold score_near in H.
  destruct (score (N.of_nat s) _) as [z|]; [|done].
  destruct (score (N.of_nat (S s)) _) as [z'|]; [|done].
  apply andb_prop in H as [[H1 H2]%andb_prop H3].
  apply Z.leb_le in H1, H2. exists z. split_and!; [done|lia|lia|].
  intros Hlt. exists z'. split; [done|].
  rewrite (proj2 (Nat.ltb_lt _ _) Hlt) in H3. simpl in H3. by apply Z.leb_le in H3.
Qed.

Lemma score_monotone s s' t :
  1 ≤ t ≤ 199 → s ≤ s' → s' ≤ t →
  ∃ z z', score (N.of_nat s) (N.of_nat t) = Some z ∧
          score (N.of_nat s') (N.of_nat t) = Some z' ∧ (z ≤ z')%Z.
Proof.
  intros Ht Hss Hs't. induction Hss as [|s' Hss IH].
  - destruct (score_near_inv s t Ht Hs't) as (z & Hz & _). exists z, z. split_and!; [done..|lia].
  - destruct IH as (z & z1 & Hz & Hz1 & Hle); [lia|].
    destruct (score_near_inv s' t Ht ltac:(lia)) as (z1' & Hz1' & _ & Hstep).
    destruct Hstep as (z' & Hz' & Hle'); [lia|].
    exists z, z'. split_and!; [done..|]. rewrite Hz1 in Hz1'. injection Hz1' as <-. lia.
Qed.

(** X15.  For a history of 2 to 200 versions the score is an integer
    nearest to the percentage of stable steps: with [s] stable steps out
    of [t], the score [z] satisfies [|z - 100 s / t| <= 1/2].  The
    floating-point quotient can make it the lower neighbour of a half
    (23 stable steps out of 40 give 57, not 58). *)
Theorem computeStability_nearest_percentage (first : Schema) (rest : list Schema) :
  1 ≤ length rest ≤ 199 →
  ∃ z, computeStability (Some (first :: rest)) = Some z ∧
       let s := Z.of_nat (stable_pairs first rest) in
       let t := Z.of_nat (length rest) in
       (200 * s - t ≤ 2 * t * z ≤ 200 * s + t)%Z.
Proof.
  intros Hlen. destruct rest as [|second rest]; [simpl in Hlen; lia|].
  set (rest' := second :: rest) in *.
  unfold computeStability. fold rest'.
  rewrite stability_loop_counts. cbn [mbind option_bind]. rewrite !N.add_0_l.
  destruct (score_near_inv _ _ Hlen (stable_pairs_le first rest')) as (z & Hz & Hnear & _).
  exists z. split; [done|]. exact Hnear.
Qed.

Lemma computeStability_nearest_percentage_witness :
  let a := schema_of [named "price" "string"] in
  let b := schema_of [named "price" "decimal"] in
  ∃ z, computeStability (Some [a; a; b; b]) = Some z ∧
       let s := Z.of_nat (stable_pairs a [a; b; b]) in
       let t := Z.of_nat (length [a; b; b]) in
       (200 * s - t ≤ 2 * t * z ≤ 200 * s + t)%Z.
Proof.
  intros a b. apply (computeStability_nearest_percentage a [a; b; b]).
  simpl. lia.
Defined.

(** X16.  Among histories of the same length, of 2 to 200 versions, one
    with at least as many stable steps never scores lower. *)
Theorem computeStability_monotone (first first' : Schema) (rest rest' : list Schema) :
  1 ≤ length rest ≤ 199 →
  length rest' = length rest →
  stable_pairs first rest ≤ stable_pairs first' rest' →
  ∃ z z', computeStability (Some (first :: rest)) = Some z ∧
          computeStability (Some (first' :: rest')) = Some z' ∧ (z ≤ z')%Z.
Proof.
  intros Hlen Heq Hle.
  destruct rest as [|second rest]; [simpl in Hlen; lia|].
  destruct rest' as [|second' rest']; [done|].
  unfold computeStability. rewrite !stability_loop_counts.
  cbn [mbind option_bind]. rewrite !N.add_0_l, Heq.
  apply score_monotone; [done|done|].
  rewrite <- Heq. apply stable_pairs_le.
Qed.

Lemma computeStability_monotone_witness :
  let a := schema_of [named "price" "string"] in
  let b := schema_of [named "price" "decimal"] in
  ∃ z z', computeStability (Some [a; b; a]) = Some z ∧
          computeStability (Some [a; a; b]) = Some z' ∧ (z ≤ z')%Z.
Proof.
  intros a b. apply (computeStability_monotone a a [b; a] [a; b]).
  - simpl. lia.
  - reflexivity.
  - vm_compute. lia.
Defined.

(** * Properties of the views *)

Section View_properties.
Variable number_to_string : Floats.SpecFloat.spec_float → string.
Variable date_to_string : option Z → string.
Variable Date_parse : string → option Z.
Variable now : Z.
Variable toLocaleString : Js → option string.
Variable JSON_stringify : Js → option string.

(** ** Log rows *)

Lemma js_truthy_else a b : js_truthy b = true → js_truthy (js_else a b) = true.
Proof. unfold js_else. by destruct (js_truthy a) eqn:Ha. Qed.

Lemma js_else_truthy a b : js_truthy a = true → js_else a b = a.
Proof. unfold js_else. by intros ->. Qed.

Lemma js_truthy_not_nullish v : js_truthy v = true → js_nullish v = false.
Proof. by destruct v. Qed.

Lemma lower_includes_message message needle b :
  needle ≠ "" →
  lower_includes message needle = Some b →
  ∃ m, js_else message (JsString "") = JsString m ∧
       b = includes needle (toLowerCase m).
Proof.
  intros Hne.
  destruct message as [| |b'|x|str|l|ps|t]; simpl; intros [= <-];
    try (exists ""; by destruct needle).
  exists str. unfold js_else. simpl. destruct (String.eqb_spec str "") as [->|]; done.
Qed.

(** What a successful call of [transformLogRow] returns, property by
    property. *)
Lemma transformLogRow_inv log row :
  transformLogRow number_to_string date_to_string Date_parse now toLocaleString log
    = Some row →
  ∃ id timestamp timestampString message,
    js_truthy id = true ∧ js_truthy timestamp = true ∧
    row = JsObject
      [ ("id", id);
        ("filename",
          js_else (js_else (js_prop log "filename") (js_prop (extra_of log) "filename"))
                  (JsString "unknown"));
        ("message", JsString message);
        ("timestamp", timestamp);
        ("timestampString", JsString timestampString);
        ("structured_preview",
          js_else (js_else (js_prop log "structured_preview")
                           (js_prop (extra_of log) "structured_preview"))
                  (JsArray []));
        ("cleaning_stats",
          js_else (js_else (js_prop log "cleaning_stats")
                           (js_prop (extra_of log) "cleaning_stats"))
                  (JsObject []));
        ("record_count",
          js_else (js_else (js_prop log "record_count")
                           (js_prop (extra_of log) "record_count"))
                  (js_nat 0));
        ("schemaVersion",
          js_else (js_else (js_prop log "schema_version")
                           (js_prop (extra_of log) "schema_version"))
                  (JsString "v1.0"));
        ("status", JsString (status_of message)) ].
Proof.
  unfold transformLogRow, js_get. intros H.
  destruct (js_nullish log); [done|]. simpl in H. fold (extra_of log) in H.
  destruct (lower_includes _ "uploaded") as [uploaded|] eqn:Hup; [|done].
  destruct (lower_includes _ "failed") as [failed|] eqn:Hfl; [|done].
  simpl in H.
  match type of H with (?e ≫= _) = _ => destruct e as [id|] eqn:Hid end; [|done].
  simpl in H.
  match type of H with (?e ≫= _) = _ => destruct e as [tls|] eqn:Htls end; [|done].
  simpl in H. injection H as <-.
  destruct (lower_includes_message _ "uploaded" _ ltac:(done) Hup) as (m & Hm & ->).
  destruct (lower_includes_message _ "failed" _ ltac:(done) Hfl) as (m' & Hm' & ->).
  rewrite Hm in Hm'. injection Hm' as <-. rewrite Hm.
  eexists id, _, tls, m. split_and!; [| |reflexivity].
  - destruct (js_truthy (js_prop log "id")) eqn:H1; [by injection Hid as <-|].
    destruct (js_truthy (js_prop log "_id")) eqn:H2; [by injection Hid as <-|].
    destruct (ToString _ _ (js_else _ _)) as [a|]; simpl in Hid; [|done].
    destruct (ToString _ _ (js_prop log "timestamp")) as [b|]; simpl in Hid; [|done].
    injection Hid as <-. simpl. by destruct a.
  - destruct (js_truthy (js_prop log "timestamp")) eqn:Ht; [|done].
    by destruct (js_prop log "timestamp").
Qed.

(** X17.  A row [transformLogRow] returns always has its ten properties
    filled in: [id], [filename], [timestamp], [structured_preview],
    [cleaning_stats] and [schemaVersion] are truthy, [message] is a
    string, [record_count] is truthy or the number [0], and [status] is
    ['Failed'] when the lower-cased message contains [failed], else
    ['Success'] when it contains [uploaded], else
    ['Completed_With_Errors']: [failed] wins over [uploaded]. *)
Theorem transformLogRow_row (log row : Js) :
  transformLogRow number_to_string date_to_string Date_parse now toLocaleString log
    = Some row →
  ∃ id filename message timestamp timestampString preview stats count version status,
    row = JsObject
      [ ("id", id); ("filename", filename); ("message", JsString message);
        ("timestamp", timestamp); ("timestampString", JsString timestampString);
        ("structured_preview", preview); ("cleaning_stats", stats);
        ("record_count", count); ("schemaVersion", version);
        ("status", JsString status) ] ∧
    js_truthy id = true ∧ js_truthy filename = true ∧
    js_truthy timestamp = true ∧ js_truthy preview = true ∧
    js_truthy stats = true ∧ js_truthy version = true ∧
    (js_truthy count = true ∨ count = js_nat 0) ∧
    status = (if includes "failed" (toLowerCase message) then "Failed"
              else if includes "uploaded" (toLowerCase message) then "Success"
              else "Completed_With_Errors").
Proof.
  intros H. destruct (transformLogRow_inv _ _ H) as (id & ts & tls & m & Hid & Hts & ->).
  do 10 eexists. split; [reflexivity|]. split_and!; try done.
  - by apply js_truthy_else.
  - by apply js_truthy_else.
  - by apply js_truthy_else.
  - by apply js_truthy_else.
  - match goal with |- js_truthy (js_else ?a _) = true ∨ _ =>
      destruct (js_truthy a) eqn:Hc end.
    + left. by rewrite js_else_truthy.
    + right. unfold js_else at 1. by rewrite Hc.
Qed.

(** X18.  The logs view applies [normalizeLog] to rows that
    [transformLogRow] made.  On such a row [normalizeLog] never throws and
    never falls back on a default: [id], [timestamp], [filename],
    [schemaVersion], [structured_preview], [cleaning_stats] and
    [record_count] pass through as they are, so the random id is never
    used.  Only [status] is recomputed: ['Failed'] stays, and both
    ['Success'] and ['Completed_With_Errors'] become ['Success']. *)
Theorem normalizeLog_after_transformLogRow (log row : Js) (random_id : string) :
  transformLogRow number_to_string date_to_string Date_parse now toLocaleString log
    = Some row →
  ∃ status,
    js_prop row "status" = JsString status ∧
    normalizeLog random_id row =
      Some (JsObject
        [ ("id", js_prop row "id");
          ("timestamp", js_prop row "timestamp");
          ("filename", js_prop row "filename");
          ("schemaVersion", js_prop row "schemaVersion");
          ("structured_preview", js_prop row "structured_preview");
          ("cleaning_stats", js_prop row "cleaning_stats");
          ("record_count", js_prop row "record_count");
          ("status", JsString (if String.eqb status "Failed" then "Failed"
                               else "Success")) ]).
Proof.
  intros H. destruct (transformLogRow_inv _ _ H) as (id & ts & tls & m & Hid & Hts & ->).
  exists (status_of m). split; [done|].
  unfold normalizeLog, js_get. simpl.
  set (filename := js_else (js_else (js_prop log "filename") _) _).
  set (preview := js_else (js_else (js_prop log "structured_preview") _) _).
  set (stats := js_else (js_else (js_prop log "cleaning_stats") _) _).
  set (count := js_else (js_else (js_prop log "record_count") _) _).
  set (version := js_else (js_else (js_prop log "schema_version") _) _).
  assert (js_truthy filename = true) as Hfn by (by apply js_truthy_else).
  assert (js_truthy preview = true) as Hpv by (by apply js_truthy_else).
  assert (js_truthy stats = true) as Hst by (by apply js_truthy_else).
  assert (js_truthy version = true) as Hv by (by apply js_truthy_else).
  assert (js_nullish count = false) as Hc.
  { unfold count, js_else at 1.
    destruct (js_truthy (js_else _ _)) eqn:E; [by apply js_truthy_not_nullish|done]. }
  unfold js_coalesce. simpl. rewrite Hc, (js_truthy_not_nullish _ Hv).
  change (js_else JsUndefined id) with id.
  rewrite (js_else_truthy id), (js_else_truthy ts), !(js_else_truthy filename),
    !(js_else_truthy preview), (js_else_truthy stats) by done.
  do 10 f_equal. unfold status_of.
  destruct (includes "failed" _); [done|]. by destruct (includes "uploaded" _).
Qed.

(** ** The schema view *)

Lemma own_lookup_foldl_set (base es : list (string * Js)) k :
  own_lookup k (foldl (λ acc kv, own_set kv.1 kv.2 acc) base es) =
  match own_lookup k (reverse es) with
  | Some v => Some v
  | None => own_lookup k base
  end.
Proof.
  revert base. induction es as [|[k' v'] es IH]; intros base; [done|].
  simpl. rewrite IH, reverse_cons.
  assert (Happ : ∀ l1 l2 : list (string * Js), own_lookup k (l1 ++ l2) =
            match own_lookup k l1 with Some v => Some v | None => own_lookup k l2 end).
  { induction l1 as [|[k1 v1] l1 IH1]; intros l2; [done|]. simpl.
    destruct (String.eqb k k1); [done|]. apply IH1. }
  rewrite Happ. destruct (own_lookup k (reverse es)); [done|]. simpl.
  destruct (String.eqb_spec k k') as [->|Hne].
  - apply own_lookup_set_eq.
  - by apply own_lookup_set_ne.
Qed.


Lemma own_lookup_app {V} k (l1 l2 : list (string * V)) :
  own_lookup k (l1 ++ l2) =
  match own_lookup k l1 with Some v => Some v | None => own_lookup k l2 end.
Proof.
  induction l1 as [|[k1 v1] l1 IH]; [done|]. simpl.
  destruct (String.eqb k k1); [done|]. apply IH.
Qed.

Lemma own_lookup_reverse {V} k (l : list (string * V)) :
  NoDup l.*1 → own_lookup k (reverse l) = own_lookup k l.
Proof.
  induction l as [|[k1 v1] l IH]; [done|]. csimpl. intros [Hk1 Hnd]%NoDup_cons.
  rewrite reverse_cons, own_lookup_app, IH by done. simpl.
  destruct (String.eqb_spec k k1) as [->|Hne].
  - by rewrite (proj2 (own_lookup_None k1 l)).
  - by destruct (own_lookup k l).
Qed.

Lemma own_lookup_graph (f : string → Js) k (l : list string) :
  own_lookup k ((λ k, (k, f k)) <$> l) = if bool_decide (k ∈ l) then Some (f k) else None.
Proof.
  induction l as [|k1 l IH]; [done|]. csimpl.
  destruct (String.eqb_spec k k1) as [->|Hne].
  - by rewrite bool_decide_eq_true_2 by left.
  - rewrite IH. destruct (decide (k ∈ l)) as [Hin|Hin].
    + rewrite !bool_decide_eq_true_2; [done|by right|done].
    + rewrite !bool_decide_eq_false_2; [done| |done].
      rewrite not_elem_of_cons. done.
Qed.

Lemma index_names_keys {A} (g : A → Js) (l : list A) n :
  (imap (λ i x, (index_name (n + i), g x)) l).*1 = index_name <$> seq n (length l).
Proof.
  revert n. induction l as [|x l IH]; intros n; [done|]. csimpl.
  rewrite Nat.add_0_r. f_equal. rewrite <- IH. f_equal.
  apply imap_ext. intros i y _. simpl. f_equal. f_equal. lia.
Qed.

Lemma index_names_NoDup {A} (g : A → Js) (l : list A) :
  NoDup (imap (λ i x, (index_name i, g x)) l).*1.
Proof.
  pose proof (index_names_keys g l 0) as H. simpl in H. rewrite H.
  apply NoDup_fmap_2; [|apply NoDup_seq].
  intros i j Hij. unfold index_name in Hij. apply (inj pretty) in Hij. lia.
Qed.


(** The entries of a value, looked up in either direction. *)
Lemma js_entries_reverse v k :
  own_lookup k (reverse (js_entries v)) = own_lookup k (js_entries v).
Proof.
  destruct v as [| |b|x|s|l|ps|t]; try done.
  - apply own_lookup_reverse.
    apply (index_names_NoDup (λ c, JsString (String c EmptyString))).
  - apply own_lookup_reverse. apply (index_names_NoDup (λ e : Js, e)).
  - simpl. rewrite <- fmap_reverse, !own_lookup_graph.
    destruct (decide (k ∈ key_order ps.*1)) as [Hin|Hin].
    + rewrite !bool_decide_eq_true_2; [done|done|by apply elem_of_reverse].
    + rewrite !bool_decide_eq_false_2; [done|done|by rewrite elem_of_reverse].
Qed.

Lemma js_keys_lookup v k :
  k ∈ js_keys v ↔ is_Some (own_lookup k (js_entries v)).
Proof. unfold js_keys. by rewrite own_lookup_is_Some. Qed.

Lemma js_prop_absent field k :
  is_object field = true → k ∉ js_keys field → js_prop field k = JsUndefined.
Proof.
  intros Hobj Hk. destruct field as [| |b|x|s|l|ps|t]; try done.
  simpl. unfold js_keys in Hk. simpl in Hk.
  rewrite <- list_fmap_compose in Hk. simpl in Hk.
  assert (k ∉ ps.*1) as Hps.
  { intros Hin. apply Hk. apply list_elem_of_fmap. exists k. split; [done|].
    by apply elem_of_key_order. }
  by rewrite (proj2 (own_lookup_None k ps)).
Qed.

(** X19.  In the schema object of [fetchMetricsAndSchema] the spread
    [...field] comes last, so every own property of a field object wins
    over the computed [name], [type] and [nullable]: the entry has the
    field's own value under each of the field's keys, also a falsy one,
    and the defaults (the key as [name], ['string'] as [type], [true] as
    [nullable]) show only for the properties the field does not have. *)
Theorem schema_field_spread (key : string) (field : Js) (k : string) :
  is_object field = true →
  js_prop (schema_field JSON_stringify (key, field)) k =
    if bool_decide (k ∈ js_keys field) then js_index field k
    else if String.eqb k "name" then JsString key
    else if String.eqb k "type" then JsString "string"
    else if String.eqb k "nullable" then JsBool true
    else JsUndefined.
Proof.
  intros Hobj. unfold schema_field. rewrite Hobj. simpl. unfold spread.
  rewrite own_lookup_foldl_set, js_entries_reverse. unfold js_index.
  case_bool_decide as Hk.
  - apply js_keys_lookup in Hk as [v ->]. done.
  - destruct (own_lookup k (js_entries field)) as [v|] eqn:E.
    { exfalso. apply Hk, js_keys_lookup. rewrite E. eauto. }
    simpl.
    destruct (String.eqb_spec k "name") as [->|Hname]; [done|].
    destruct (String.eqb_spec k "type") as [->|Htype].
    { by rewrite js_prop_absent. }
    destruct (String.eqb_spec k "nullable") as [->|Hnull]; [|done].
    by rewrite js_prop_absent.
Qed.


(** ** The parser of [schema_diff] on a list of operations *)

Lemma forEach_file_op ops added removed changed added' removed' changed' :
  forEach (file_op number_to_string date_to_string) ops (added, removed, changed)
    = Some (added', removed', changed') →
  ∃ a r c,
    added' = added ++ a ∧ removed' = removed ++ r ∧ changed' = changed ++ c ∧
    a ++ r ++ c ≡ₚ ops ∧
    a `sublist_of` ops ∧ r `sublist_of` ops ∧ c `sublist_of` ops ∧
    Forall (λ op, files_under <$> op_type number_to_string date_to_string op = Some 0) a ∧
    Forall (λ op, files_under <$> op_type number_to_string date_to_string op = Some 1) r ∧
    Forall (λ op, files_under <$> op_type number_to_string date_to_string op = Some 2) c.
Proof.
  revert added removed changed.
  induction ops as [|op ops IH]; intros added removed changed H; simpl in H.
  - injection H as <- <- <-. exists [], [], [].
    rewrite !app_nil_r. split_and!; done.
  - destruct (file_op number_to_string date_to_string (added, removed, changed) op)
      as [[[a1 r1] c1]|] eqn:Hop; simpl in H; [|done].
    unfold file_op in Hop.
    destruct (op_type number_to_string date_to_string op) as [kind|] eqn:Hkind;
      simpl in Hop; [|done].
    apply IH in H as (a & r & c & -> & -> & -> & Hp & Ha & Hr & Hc & Fa & Fr & Fc).
    destruct (includes "add" kind) eqn:Hadd;
      [|destruct (includes "remove" kind || includes "del" kind) eqn:Hrem];
      injection Hop as <- <- <-.
    + exists (op :: a), r, c. rewrite <- !app_assoc. split_and!; try done.
      * simpl. by rewrite Hp.
      * by constructor.
      * by constructor.
      * by constructor.
      * constructor; [|done]. rewrite Hkind. simpl. unfold files_under. by rewrite Hadd.
    + exists a, (op :: r), c. rewrite <- !app_assoc. split_and!; try done.
      * simpl. rewrite <- Permutation_middle. by rewrite Hp.
      * by constructor.
      * by constructor.
      * by constructor.
      * constructor; [|done]. rewrite Hkind. simpl. unfold files_under.
        by rewrite Hadd, Hrem.
    + exists a, r, (op :: c). rewrite <- !app_assoc. split_and!; try done.
      * rewrite app_assoc, <- Permutation_middle, <- app_assoc. by rewrite Hp.
      * by constructor.
      * by constructor.
      * by constructor.
      * constructor; [|done]. rewrite Hkind. simpl. unfold files_under.
        by rewrite Hadd, Hrem.
Qed.

(** X20.  Given a list of operations, the parser of [schema_diff] files
    every operation under exactly one of [added], [removed] and
    [changed], keeping the order of the list in each group: [added] has
    the operations whose type contains [add], [removed] those whose type
    contains [remove] or [del] but not [add], [changed] the others. *)
Theorem schemaDiff_operations (ops : list Js) (groups : Groups) :
  schemaDiff number_to_string date_to_string JSON_stringify (JsArray ops)
    = Some groups →
  ∃ a r c,
    groups = {| added_group := JsArray a; removed_group := JsArray r;
                changed_group := JsArray c |} ∧
    a ++ r ++ c ≡ₚ ops ∧
    a `sublist_of` ops ∧ r `sublist_of` ops ∧ c `sublist_of` ops ∧
    Forall (λ op, files_under <$> op_type number_to_string date_to_string op = Some 0) a ∧
    Forall (λ op, files_under <$> op_type number_to_string date_to_string op = Some 1) r ∧
    Forall (λ op, files_under <$> op_type number_to_string date_to_string op = Some 2) c.
Proof.
  unfold schemaDiff. simpl. intros H.
  destruct (forEach _ ops _) as [[[a r] c]|] eqn:Hloop; [|done].
  simpl in H. injection H as <-.
  apply forEach_file_op in Hloop
    as (a' & r' & c' & -> & -> & -> & Hp & Ha & Hr & Hc & Fa & Fr & Fc).
  exists a', r', c'. split_and!; done.
Qed.

(** ** What the schema view makes of the schema object of the application *)

(** X22.  The schema object the application hands to [SchemaView] has the
    properties [version], [created_at] and [fields], while the view reads
    [schema] and [schema_diff].  So whatever the backend returned, and
    also before anything is loaded, the view finds an empty schema, no
    diff (three empty groups), a field count of [0] and no field to
    preview. *)
Theorem SchemaView_of_currentSchema (schemaData : Js) (currentSchema : Js) :
  currentSchema = JsNull ∨ currentSchema = currentSchema_of JSON_stringify schemaData →
  view_schema currentSchema = JsObject [] ∧
  schemaDiffRaw currentSchema = JsNull ∧
  schemaDiff number_to_string date_to_string JSON_stringify (schemaDiffRaw currentSchema)
    = Some empty_groups ∧
  totalFields (view_schema currentSchema) = js_nat 0 ∧
  fieldPreview (view_schema currentSchema) = Some [].
Proof.
  intros [->| ->]; split_and!; reflexivity.
Qed.


Lemma forEach_file_op_None ops acc :
  forEach (file_op number_to_string date_to_string) ops acc = None ↔
  Exists (λ op, op_type number_to_string date_to_string op = None) ops.
Proof.
  revert acc. induction ops as [|op ops IH]; intros [[a r] c]; simpl.
  - split; [done|]. by intros ?%Exists_nil.
  - rewrite Exists_cons. unfold file_op at 2.
    destruct (op_type number_to_string date_to_string op) as [kind|]; simpl.
    + rewrite IH. split; [by right|]. by intros [?|?].
    + split; [by left|done].
Qed.

(** X21.  The parser of [schema_diff] throws exactly when it is given a
    list that holds an operation whose type cannot be computed: an
    operation that is [null], or one whose [op] or [action] cannot be
    turned into a string.  On every other value it returns three
    groups. *)
Theorem schemaDiff_throws_iff (raw : Js) :
  schemaDiff number_to_string date_to_string JSON_stringify raw = None ↔
  ∃ ops, raw = JsArray ops ∧
         Exists (λ op, op_type number_to_string date_to_string op = None) ops.
Proof.
  unfold schemaDiff.
  destruct (negb (js_truthy raw)) eqn:Htruthy.
  { split; [done|]. intros (ops & -> & _). done. }
  destruct (typeof_object raw && _) eqn:Hgroups.
  { split; [done|]. intros (ops & -> & _). done. }
  destruct raw as [| |b|x|s|ops|ps|t]; try (split; [done|]; by intros (? & ? & ?)).
  destruct (forEach _ ops _) as [[[a r] c]|] eqn:Hloop; simpl.
  - split; [done|]. intros (ops' & [= <-] & Hex).
    apply forEach_file_op_None with (acc := ([], [], [])) in Hex. congruence.
  - split; [|done]. intros _. exists ops. split; [done|].
    by apply forEach_file_op_None in Hloop.
Qed.

End View_properties.

(** ** Instances *)

Lemma transformLogRow_row_witness :
  ∃ id filename message timestamp timestampString preview stats count version status,
    JsObject
      [ ("id", JsString "a1"); ("filename", JsString "day1.json");
        ("message", JsString "File Uploaded"); ("timestamp", JsDate (Some 0%Z));
        ("timestampString", JsString "1/1/1970"); ("structured_preview", JsArray []);
        ("cleaning_stats", JsObject []); ("record_count", js_nat 0);
        ("schemaVersion", JsString "v1.0"); ("status", JsString "Success") ] =
    JsObject
      [ ("id", id); ("filename", filename); ("message", JsString message);
        ("timestamp", timestamp); ("timestampString", JsString timestampString);
        ("structured_preview", preview); ("cleaning_stats", stats);
        ("record_count", count); ("schemaVersion", version);
        ("status", JsString status) ] ∧
    js_truthy id = true ∧ js_truthy filename = true ∧
    js_truthy timestamp = true ∧ js_truthy preview = true ∧
    js_truthy stats = true ∧ js_truthy version = true ∧
    (js_truthy count = true ∨ count = js_nat 0) ∧
    status = (if includes "failed" (toLowerCase message) then "Failed"
              else if includes "uploaded" (toLowerCase message) then "Success"
              else "Completed_With_Errors").
Proof.
  apply (transformLogRow_row (λ _, "0") (λ _, "Invalid Date") (λ _, None) 0%Z
           (λ _, Some "1/1/1970")
           (JsObject [("id", JsString "a1"); ("message", JsString "File Uploaded");
                      ("extra", JsObject [("filename", JsString "day1.json")])])).
  reflexivity.
Defined.

Lemma normalizeLog_after_transformLogRow_witness :
  let row := JsObject
      [ ("id", JsString "a1"); ("filename", JsString "day1.json");
        ("message", JsString "Parsed 3 fragments"); ("timestamp", JsDate (Some 0%Z));
        ("timestampString", JsString "1/1/1970"); ("structured_preview", JsArray []);
        ("cleaning_stats", JsObject []); ("record_count", js_nat 0);
        ("schemaVersion", JsString "v1.0");
        ("status", JsString "Completed_With_Errors") ] in
  ∃ status,
    js_prop row "status" = JsString status ∧
    normalizeLog "k3x9" row =
      Some (JsObject
        [ ("id", js_prop row "id");
          ("timestamp", js_prop row "timestamp");
          ("filename", js_prop row "filename");
          ("schemaVersion", js_prop row "schemaVersion");
          ("structured_preview", js_prop row "structured_preview");
          ("cleaning_stats", js_prop row "cleaning_stats");
          ("record_count", js_prop row "record_count");
          ("status", JsString (if String.eqb status "Failed" then "Failed"
                               else "Success")) ]).
Proof.
  intros row.
  apply (normalizeLog_after_transformLogRow
           (λ _, "0") (λ _, "Invalid Date") (λ _, None) 0%Z (λ _, Some "1/1/1970")
           (JsObject [("id", JsString "a1"); ("message", JsString "Parsed 3 fragments");
                      ("extra", JsObject [("filename", JsString "day1.json")])])
           row "k3x9").
  reflexivity.
Defined.

Lemma schema_field_spread_witness :
  let field := JsObject [("type", JsString ""); ("nullable", JsNull)] in
  js_prop (schema_field (λ _, None) ("price", field)) "type" =
    if bool_decide ("type" ∈ js_keys field) then js_index field "type"
    else if String.eqb "type" "name" then JsString "price"
    else if String.eqb "type" "type" then JsString "string"
    else if String.eqb "type" "nullable" then JsBool true
    else JsUndefined.
Proof.
  intros field. apply (schema_field_spread (λ _, None) "price" field "type").
  reflexivity.
Defined.

Lemma schemaDiff_operations_witness :
  let add := JsObject [("op", JsString "ADD_COLUMN"); ("path", JsString "currency")] in
  let drop := JsObject [("action", JsString "delete"); ("path", JsString "legacy")] in
  let cast := JsObject [("op", JsString "cast"); ("path", JsString "price")] in
  let ops := [cast; add; drop] in
  ∃ a r c,
    {| added_group := JsArray [add]; removed_group := JsArray [drop];
       changed_group := JsArray [cast] |} =
    {| added_group := JsArray a; removed_group := JsArray r;
       changed_group := JsArray c |} ∧
    a ++ r ++ c ≡ₚ ops ∧
    a `sublist_of` ops ∧ r `sublist_of` ops ∧ c `sublist_of` ops ∧
    Forall (λ op, files_under <$> op_type (λ _, "0") (λ _, "Invalid Date") op = Some 0) a ∧
    Forall (λ op, files_under <$> op_type (λ _, "0") (λ _, "Invalid Date") op = Some 1) r ∧
    Forall (λ op, files_under <$> op_type (λ _, "0") (λ _, "Invalid Date") op = Some 2) c.
Proof.
  intros add drop cast ops.
  apply (schemaDiff_operations (λ _, "0") (λ _, "Invalid Date") (λ _, None) ops).
  reflexivity.
Defined.

Lemma SchemaView_of_currentSchema_witness :
  let schemaData := JsObject
      [ ("version", JsString "v2");
        ("schema", JsObject [("fields",
           JsObject [("id", JsString "string");
                     ("price", JsObject [("type", JsString "decimal")])])]);
        ("schema_diff", JsObject [("added", JsArray [JsString "price"])]) ] in
  let currentSchema := currentSchema_of (λ _, None) schemaData in
  view_schema currentSchema = JsObject [] ∧
  schemaDiffRaw currentSchema = JsNull ∧
  schemaDiff (λ _, "0") (λ _, "Invalid Date") (λ _, None) (schemaDiffRaw currentSchema)
    = Some empty_groups ∧
  totalFields (view_schema currentSchema) = js_nat 0 ∧
  fieldPreview (view_schema currentSchema) = Some [].
Proof.
  intros schemaData currentSchema.
  apply (SchemaView_of_currentSchema (λ _, "0") (λ _, "Invalid Date") (λ _, None)
           schemaData currentSchema).
  by right.
Defined.

(** * Properties of the API client *)

Section Api_properties.

Variable number_to_string : Floats.SpecFloat.spec_float → string.
Variable date_to_string : option Z → string.
Variable fetch : string → Js → Reply.
Variable encodeURIComponent : string → string.
Variable cannot_read : string.
Variable cannot_convert : string.

Lemma js_prop_index (v : Js) (k : string) :
  js_nullish v = false → k ∉ js_keys v → js_prop v k = JsUndefined.
Proof.
  intros _ Hk. destruct v as [| |b|x|s|l|ps|t]; try done.
  by apply js_prop_absent.
Qed.

(** X23.  The request options of [fetchAPI] are the caller's options,
    property by property, with a [headers] property added only when the
    caller gave none.  The spread [...options] comes after the merged
    headers, so a caller's [headers] replace them as a whole: the default
    [Content-Type: application/json] is sent only when the caller passes
    no [headers] property, or repeats it there. *)
Theorem defaultOptions_request (options : Js) (k : string) :
  js_nullish options = false →
  ∃ request,
    defaultOptions options = Some request ∧
    js_prop request k =
      if bool_decide (k ∈ js_keys options) then js_index options k
      else if String.eqb k "headers"
           then JsObject [("Content-Type", JsString "application/json")]
           else JsUndefined.
Proof.
  intros Hopt. unfold defaultOptions, js_get. rewrite Hopt. simpl.
  eexists. split; [done|]. simpl. unfold spread at 1.
  rewrite own_lookup_foldl_set, js_entries_reverse. unfold js_index.
  case_bool_decide as Hk.
  - apply js_keys_lookup in Hk as [v ->]. done.
  - destruct (own_lookup k (js_entries options)) as [v|] eqn:E.
    { exfalso. apply Hk, js_keys_lookup. rewrite E. eauto. }
    simpl. destruct (String.eqb_spec k "headers") as [->|Hne]; [|done].
    simpl. by rewrite js_prop_index.
Qed.

Lemma fetchAPI_plain endpoint :
  fetchAPI number_to_string date_to_string fetch cannot_read cannot_convert
    endpoint JsUndefined =
  match fetch (API_BASE_URL +:+ endpoint) plain_request with
  | Rejected message => Thrown message
  | Response status statusText json =>
      if negb (response_ok status) then
        let errorData :=
          match json with
          | inl _ => JsObject [("detail", JsString statusText)]
          | inr body => body
          end in
        match js_get errorData "detail" with
        | None => Thrown cannot_read
        | Some detail =>
            throw_Error number_to_string date_to_string cannot_convert
              (js_else detail
                 (JsString ("HTTP error! status: " +:+ pretty status)))
        end
      else
        match json with
        | inl message => Thrown message
        | inr body => Returned body
        end
  end.
Proof. reflexivity. Qed.

(** X24.  [getSchema] tells a missing schema by the text of the error, not
    by the status of the response.  When the server answers with a status
    outside 200-299 and a JSON body, the message is the body's [detail],
    or [HTTP error! status: <status>] when there is no detail or an empty
    one; [getSchema] returns [null] when that message contains [404] and
    throws the error on otherwise.  So a 404 whose detail does not spell
    [404] is thrown on, and a 404 without detail gives [null]. *)
Theorem getSchema_error_message (sourceId : string) (status : N)
    (statusText : string) (body : Js) (detail : string) :
  fetch (API_BASE_URL +:+ "/schema/latest?source_id=" +:+ encodeURIComponent sourceId)
        plain_request
    = Response status statusText (inr body) →
  response_ok status = false →
  js_nullish body = false →
  js_prop body "detail" = JsString detail ∨
    (js_prop body "detail" = JsUndefined ∧ detail = "") →
  let message := if String.eqb detail "" then "HTTP error! status: " +:+ pretty status
                 else detail in
  getSchema number_to_string date_to_string fetch encodeURIComponent
            cannot_read cannot_convert (JsString sourceId) =
    if includes "404" message then Returned JsNull else Thrown message.
Proof.
  intros Hfetch Hok Hbody Hdetail message. unfold getSchema. simpl ToString. cbv iota.
  rewrite fetchAPI_plain, Hfetch, Hok. simpl. unfold js_get. rewrite Hbody.
  unfold message.
  destruct Hdetail as [->|[-> ->]].
  - unfold js_else. simpl. destruct (String.eqb_spec detail "") as [->|Hne]; done.
  - done.
Qed.

(** X25.  [getSchemaHistory] returns the [history] of the response, not
    the response, while [fetchMetricsAndSchema] reads [history] once more
    from what it gets.  So the schema history is set exactly when the
    request succeeds with a body whose [history] is itself an object with
    a truthy [history] property; for a [history] that is an array, as for
    a failed request, it is never set. *)
Theorem history_condition_truthy (src : Js) :
  js_truthy (history_condition number_to_string date_to_string fetch
               encodeURIComponent cannot_read cannot_convert src) = true ↔
  ∃ id status statusText body history,
    ToString number_to_string date_to_string src = Some id ∧
    fetch (API_BASE_URL +:+ "/schema/history?source_id=" +:+ encodeURIComponent id
             +:+ "&limit=100") plain_request
      = Response status statusText (inr body) ∧
    response_ok status = true ∧
    js_prop body "history" = JsObject history ∧
    js_truthy (js_prop (JsObject history) "history") = true.
Proof.
  unfold history_condition, historyData, getSchemaHistory.
  destruct (ToString _ _ src) as [id|] eqn:Hid; simpl; [|split; [done|]].
  2: { by intros (? & ? & ? & ? & ? & ? & _). }
  rewrite fetchAPI_plain.
  set (url := API_BASE_URL +:+ _).
  split.
  - intros H. exists id.
    destruct (fetch url plain_request) as [m|status statusText [m|body]] eqn:Hf;
      simpl in H; try done.
    + destruct (response_ok status); simpl in H; [done|].
      unfold throw_Error in H.
      by repeat (case_match; simpl in H; try done).
    + destruct (response_ok status) eqn:Hok; simpl in H.
      * unfold js_get in H. destruct (js_nullish body) eqn:Hn; simpl in H; [done|].
        exists status, statusText, body.
        unfold js_else, js_and in H.
        destruct (js_truthy (js_prop body "history")) eqn:Ht; simpl in H; [|done].
        destruct (js_prop body "history") as [| |b|x|s|l|ps|t] eqn:Hh; try done.
        all: rewrite Ht in H; try done.
        exists ps. done.
      * unfold js_get in H. destruct (js_nullish body); simpl in H; [done|].
        unfold throw_Error in H.
        by repeat (case_match; simpl in H; try done).
  - intros (id' & status & statusText & body & history & [= <-] & Hf & Hok & Hh & Ht).
    change (fetch url plain_request = Response status statusText (inr body)) in Hf.
    rewrite Hf, Hok. simpl. unfold js_get.
    destruct (js_nullish body) eqn:Hn.
    { by destruct body. }
    simpl. rewrite Hh. done.
Qed.

End Api_properties.

(** ** Instances *)

Lemma defaultOptions_request_witness :
  let options := JsObject [ ("method", JsString "POST");
                            ("headers", JsObject [("Accept", JsString "text/csv")]) ] in
  ∃ request,
    defaultOptions options = Some request ∧
    js_prop request "headers" =
      if bool_decide ("headers" ∈ js_keys options) then js_index options "headers"
      else if String.eqb "headers" "headers"
           then JsObject [("Content-Type", JsString "application/json")]
           else JsUndefined.
Proof.
  intros options. apply (defaultOptions_request options "headers"). reflexivity.
Defined.

Lemma getSchema_error_message_witness :
  let fetch := λ (_ : string) (_ : Js),
    Response 404 "Not Found"
      (inr (JsObject [("detail", JsString "No schema for source orders")])) in
  let message :=
    if String.eqb "No schema for source orders" ""
    then "HTTP error! status: " +:+ pretty 404%N
    else "No schema for source orders" in
  getSchema (λ _, "0") (λ _, "Invalid Date") fetch (λ s, s)
            "Cannot read properties" "Cannot convert object"
            (JsString "orders") =
    if includes "404" message then Returned JsNull else Thrown message.
Proof.
  intros fetch.
  apply (getSchema_error_message (λ _, "0") (λ _, "Invalid Date") fetch (λ s, s)
           "Cannot read properties" "Cannot convert object"
           "orders" 404 "Not Found"
           (JsObject [("detail", JsString "No schema for source orders")])
           "No schema for source orders");
    [reflexivity | reflexivity | reflexivity | by left].
Defined.
